(** * A disk scheduler monitor: FIFO, SSTF and SCAN over one request queue

    Shallow embedding of [disk_scheduler.c].  The C objects live in two
    stores indexed by address ([gmap]): one for [struct linked] queue nodes
    and one for [struct disk_scheduler] objects.  The two file-scope
    variables [nextblock] and [nextdir] are fields of the [world] record,
    next to the stores.  A C [int] is a [Z]: signed overflow is undefined
    in C, and the block numbers and block counts of the examples are far
    from it.  A null pointer is [None]. *)

From Stdlib Require Import ZArith Lia.
From stdpp Require Import base option list gmap.

(** ** Data model *)

Abbreviation loc := nat (only parsing).

Definition REQUEST_READ : Z := 0.
Definition REQUEST_WRITE : Z := 1.

(** [struct request].  The two data pointers are addresses of buffers owned
    by the caller; the one that the constructor leaves unset is [None]. *)
Record request := Request {
  read_write : Z;
  block1 : Z;
  wdata : option loc;
  rdata : option loc
}.

(** [struct linked] (typedef [req]).  The [val] pointer is written once, at
    enqueue, to a request object that nothing else points to and nothing
    modifies, so the node carries the request itself. *)
Record linked := Linked {
  val : request;
  next : option loc;
  prev : option loc
}.

(** Modelled from the spec: [disk_scheduler.h] is missing; the interface
    lists the three modes FIFO, SSTF and SCAN that the code compares
    [s->mode] with. *)
Inductive disk_scheduler_mode_t :=
  | DISK_SCHEDULER_MODE_FIFO
  | DISK_SCHEDULER_MODE_SSTF
  | DISK_SCHEDULER_MODE_SCAN.

(** Modelled from the spec: [disk.h] is missing; the device adapter is used
    here only through its block count ([disk_nblocks]). *)
Record disk := Disk { disk_nblocks : Z }.

(** [struct disk_scheduler]. *)
Record disk_scheduler := DiskScheduler {
  sdisk : disk;
  mode : disk_scheduler_mode_t;
  head : option loc;
  tail : option loc
}.

(** The process state the scheduler code reads and writes. *)
Record world := World {
  nextblock : Z;
  nextdir : Z;
  scheds : gmap loc disk_scheduler;
  nodes : gmap loc linked
}.

(** [int nextblock = 0, nextdir = 1;] and nothing allocated. *)
Definition initial_world : world :=
  {| nextblock := 0; nextdir := 1; scheds := ∅; nodes := ∅ |}.

Global Instance request_eq_dec : EqDecision request.
Proof. solve_decision. Defined.
Global Instance linked_eq_dec : EqDecision linked.
Proof. solve_decision. Defined.
Global Instance mode_eq_dec : EqDecision disk_scheduler_mode_t.
Proof. solve_decision. Defined.
Global Instance disk_eq_dec : EqDecision disk.
Proof. solve_decision. Defined.
Global Instance disk_scheduler_eq_dec : EqDecision disk_scheduler.
Proof. solve_decision. Defined.

(** Field assignments. *)
Definition set_next (x : option loc) (n : linked) : linked :=
  {| val := val n; next := x; prev := prev n |}.
Definition set_prev (x : option loc) (n : linked) : linked :=
  {| val := val n; next := next n; prev := x |}.
Definition set_head (x : option loc) (s : disk_scheduler) : disk_scheduler :=
  {| sdisk := sdisk s; mode := mode s; head := x; tail := tail s |}.
Definition set_tail (x : option loc) (s : disk_scheduler) : disk_scheduler :=
  {| sdisk := sdisk s; mode := mode s; head := head s; tail := x |}.
Definition set_mode (m : disk_scheduler_mode_t) (s : disk_scheduler) : disk_scheduler :=
  {| sdisk := sdisk s; mode := m; head := head s; tail := tail s |}.
Definition set_sdisk (d : disk) (s : disk_scheduler) : disk_scheduler :=
  {| sdisk := d; mode := mode s; head := head s; tail := tail s |}.

Definition with_nodes (h : gmap loc linked) (w : world) : world :=
  {| nextblock := nextblock w; nextdir := nextdir w; scheds := scheds w; nodes := h |}.
Definition with_scheds (m : gmap loc disk_scheduler) (w : world) : world :=
  {| nextblock := nextblock w; nextdir := nextdir w; scheds := m; nodes := nodes w |}.
Definition with_cursor (b d : Z) (w : world) : world :=
  {| nextblock := b; nextdir := d; scheds := scheds w; nodes := nodes w |}.

(** A store through a pointer: [p->f = x].  It faults ([None]) when [p]
    does not point to a live object. *)
Definition store_node (p : loc) (f : linked → linked) (h : gmap loc linked)
  : option (gmap loc linked) :=
  match h !! p with
  | Some n => Some (<[p := f n]> h)
  | None => None
  end.

Definition store_sched (p : loc) (f : disk_scheduler → disk_scheduler)
    (m : gmap loc disk_scheduler) : option (gmap loc disk_scheduler) :=
  match m !! p with
  | Some s => Some (<[p := f s]> m)
  | None => None
  end.

(** ** Results of code with loops *)

Inductive outcome (A : Type) :=
  | Done (a : A)
  | Timeout
  | Fault.
Arguments Done {A} a.
Arguments Timeout {A}.
Arguments Fault {A}.

Definition of_option {A} (o : option A) : outcome A :=
  match o with Some a => Done a | None => Fault end.

Definition obind {A B} (x : outcome A) (k : A → outcome B) : outcome B :=
  match x with
  | Done a => k a
  | Timeout => Timeout
  | Fault => Fault
  end.

(** One pass through the test and body of a [while]: go round again with a
    new state, leave the loop, or fault on a bad pointer. *)
Inductive ctl (S : Type) :=
  | Continue (s : S)
  | Break (s : S)
  | Crash.
Arguments Continue {S} s.
Arguments Break {S} s.
Arguments Crash {S}.

Fixpoint run_loop {S : Type} (step : S → ctl S) (fuel : nat) (s : S) : outcome S :=
  match fuel with
  | O => Timeout
  | S fuel' =>
      match step s with
      | Continue s' => run_loop step fuel' s'
      | Break s' => Done s'
      | Crash => Fault
      end
  end.

(** ** disk_scheduler_create *)

(** [malloc] and [disk_create] are outside this file: their results are
    inputs.  [alloc] is what [malloc] returns (a fresh address together with
    the indeterminate contents of the new object, or null), [dc] is what
    [disk_create] returns (a disk, or null). *)
Definition disk_scheduler_create (alloc : option (loc * disk_scheduler))
    (dc : option disk) (mode0 : disk_scheduler_mode_t) (w : world)
  : world * option loc :=
  match alloc with
  | None => (w, None)
  | Some (s, junk) =>
      let m1 := <[s := junk]> (scheds w) in
      match dc with
      | None => (with_scheds (delete s m1) w, None)
      | Some d =>
          let m2 := <[s := set_sdisk d junk]> m1 in
          let obj := set_tail None (set_head None (set_mode mode0 (set_sdisk d junk))) in
          (with_scheds (<[s := obj]> m2) w, Some s)
      end
  end.

(** [disk_scheduler_nblocks]. *)
Definition disk_scheduler_nblocks (s : disk_scheduler) : Z :=
  disk_nblocks (sdisk s).

(** ** Enqueue: the critical section of disk_scheduler_write / _read *)

(** Lines 115-126 (and 174-185): link the new node [curr], whose address
    [malloc] returned, at the tail of the list of scheduler [s]. *)
Definition enqueue (s : loc) (r : request) (curr : loc) (w : world) : option world :=
  sch ← scheds w !! s;
  let h0 := <[curr := {| val := r; next := None; prev := None |}]> (nodes w) in
  match head sch with
  | None =>
      Some (with_scheds (<[s := set_tail (Some curr) (set_head (Some curr) sch)]> (scheds w))
              (with_nodes h0 w))
  | Some _ =>
      t ← tail sch;
      h1 ← store_node t (set_next (Some curr)) h0;
      h2 ← store_node curr (set_prev (Some t)) h1;
      Some (with_scheds (<[s := set_tail (Some curr) sch]> (scheds w)) (with_nodes h2 w))
  end.

Definition write_request (block : Z) (data : loc) : request :=
  {| read_write := REQUEST_WRITE; block1 := block; wdata := Some data; rdata := None |}.
Definition read_request (block : Z) (data : loc) : request :=
  {| read_write := REQUEST_READ; block1 := block; wdata := None; rdata := Some data |}.

(** ** Selection: lines 224-269 of disk_scheduler_run *)

(** Lines 241-244: the next radius of the SSTF search. *)
Definition sstf_widen (nblocks nd : Z) : Z :=
  let nd1 := (nd + 1)%Z in
  if bool_decide (nd1 >= nblocks - 1)%Z then 0%Z else nd1.

(** SSTF loop state: the node pointer [curr] and the radius, which the code
    keeps in the global [nextdir]. *)
Definition sstf_step (h : gmap loc linked) (hd : loc) (nblocks nb : Z)
    (st : loc * Z) : ctl (loc * Z) :=
  let '(curr, nd) := st in
  match h !! curr with
  | None => Crash
  | Some n =>
      if bool_decide (block1 (val n) ≠ nb + nd)%Z && bool_decide (block1 (val n) ≠ nb - nd)%Z
      then
        match next n with
        | Some c => Continue (c, nd)
        | None => Continue (hd, sstf_widen nblocks nd)
        end
      else Break (curr, nd)
  end.

(** Lines 258-266: one move of the SCAN sweep, on the pair
    ([nextblock], [nextdir]). *)
Definition scan_advance (nblocks : Z) (cur : Z * Z) : Z * Z :=
  let '(nb, nd) := cur in
  let nb1 := (nb + nd)%Z in
  let '(nb2, nd2) :=
    if bool_decide (nb1 > nblocks - 1)%Z then ((nb1 - 1)%Z, (-1)%Z) else (nb1, nd) in
  if bool_decide (nb2 < 0)%Z then ((nb2 + 1)%Z, 1%Z) else (nb2, nd2).

(** SCAN loop state: [curr] and the two globals. *)
Definition scan_step (h : gmap loc linked) (hd : loc) (nblocks : Z)
    (st : loc * (Z * Z)) : ctl (loc * (Z * Z)) :=
  let '(curr, cur) := st in
  match h !! curr with
  | None => Crash
  | Some n =>
      if bool_decide (block1 (val n) ≠ cur.1)
      then
        match next n with
        | Some c => Continue (c, cur)
        | None => Continue (hd, scan_advance nblocks cur)
        end
      else Break (curr, cur)
  end.

(** The choice of [curr], with the new values of the two globals.  The
    queue is not empty here (the loop at line 216 has been left), so a null
    [s->head] is a fault. *)
Definition select (fuel : nat) (w : world) (sch : disk_scheduler)
  : outcome (loc * Z * Z) :=
  match head sch with
  | None => Fault
  | Some hd =>
      match mode sch with
      | DISK_SCHEDULER_MODE_FIFO => Done (hd, nextblock w, nextdir w)
      | DISK_SCHEDULER_MODE_SSTF =>
          obind (run_loop (sstf_step (nodes w) hd (disk_scheduler_nblocks sch) (nextblock w))
                   fuel (hd, 0%Z))
            (λ '(curr, nd),
               obind (of_option (nodes w !! curr))
                 (λ n, Done (curr, block1 (val n), nd)))
      | DISK_SCHEDULER_MODE_SCAN =>
          obind (run_loop (scan_step (nodes w) hd (disk_scheduler_nblocks sch))
                   fuel (hd, (nextblock w, nextdir w)))
            (λ '(curr, (nb, nd)), Done (curr, nb, nd))
      end
  end.

(** ** Removal: lines 272-283 *)

(** Lines 272-277: take [curr] out of the chain of its neighbours.  The
    result carries the node [curr] as it is read afterwards. *)
Definition unlink_nodes (curr : loc) (h0 : gmap loc linked)
  : option (gmap loc linked * linked) :=
  n0 ← h0 !! curr;
  h1 ← match prev n0 with
       | Some p => store_node p (set_next (next n0)) h0
       | None => Some h0
       end;
  n1 ← h1 !! curr;
  h2 ← match next n1 with
       | Some x => store_node x (set_prev (prev n1)) h1
       | None => Some h1
       end;
  n2 ← h2 !! curr;
  Some (h2, n2).

(** Lines 278-283: move [s->head] and [s->tail] off [curr]. *)
Definition unlink_ends (curr : loc) (n : linked) (sch : disk_scheduler)
  : disk_scheduler :=
  let sch1 := if bool_decide (Some curr = head sch) then set_head (next n) sch else sch in
  if bool_decide (Some curr = tail sch1) then set_tail (prev n) sch1 else sch1.

Definition unlink (s : loc) (curr : loc) (w : world) : option world :=
  '(h2, n2) ← unlink_nodes curr (nodes w);
  sch ← scheds w !! s;
  Some (with_scheds (<[s := unlink_ends curr n2 sch]> (scheds w)) (with_nodes h2 w)).

(** The critical section of one turn of the loop of [disk_scheduler_run]:
    choose, update the globals, unlink.  The result carries the node that
    is serviced after the lock is released. *)
Definition select_and_remove (fuel : nat) (s : loc) (w : world)
  : outcome (world * loc) :=
  obind (of_option (scheds w !! s)) (λ sch,
  obind (select fuel w sch) (λ '(curr, nb, nd),
  obind (of_option (unlink s curr (with_cursor nb nd w))) (λ w',
  Done (w', curr)))).

(** Line 300: [free(curr)] once the device operation is done. *)
Definition free_node (curr : loc) (w : world) : world :=
  with_nodes (delete curr (nodes w)) w.

(** One turn of the [while(1)] loop of [disk_scheduler_run], without the
    locking and the device call: the critical section, then the read of
    [curr->val] for the device operation (lines 292-299), then
    [free(curr)].  The result carries the request that was serviced. *)
Definition run_turn (fuel : nat) (s : loc) (w : world) : outcome (world * request) :=
  obind (select_and_remove fuel s w) (λ '(w1, curr),
  obind (of_option (nodes w1 !! curr)) (λ n,
  Done (free_node curr w1, val n))).

(** [n] turns in a row, with no enqueue in between. *)
Fixpoint run_turns (fuel n : nat) (s : loc) (w : world) : outcome (world * list request) :=
  match n with
  | O => Done (w, [])
  | S n' =>
      obind (run_turn fuel s w) (λ '(w1, r),
      obind (run_turns fuel n' s w1) (λ '(w2, rs),
      Done (w2, r :: rs)))
  end.

(** Requester calls that reach their wait one after the other while the
    scheduler thread is not running: each links its node, at the address
    its [malloc] returned. *)
Fixpoint enqueue_all (s : loc) (xs : list (loc * request)) (w : world) : option world :=
  match xs with
  | [] => Some w
  | (c, r) :: xs' => w' ← enqueue s r c w; enqueue_all s xs' w'
  end.

(** The operations of the module as steps on worlds.  [malloc] returns
    addresses of no live object. *)
Inductive op :=
  | OpCreate (s : loc) (junk : disk_scheduler) (dc : option disk) (m : disk_scheduler_mode_t)
  | OpEnqueue (s : loc) (r : request) (curr : loc)
  | OpTurn (s : loc) (fuel : nat).

Inductive op_step : op → world → world → Prop :=
  | step_create s junk dc m w :
      scheds w !! s = None →
      op_step (OpCreate s junk dc m) w (disk_scheduler_create (Some (s, junk)) dc m w).1
  | step_enqueue s r curr w w' :
      nodes w !! curr = None →
      enqueue s r curr w = Some w' →
      op_step (OpEnqueue s r curr) w w'
  | step_turn s fuel w w' r :
      run_turn fuel s w = Done (w', r) →
      op_step (OpTurn s fuel) w w'.

Inductive runs : list op → world → world → Prop :=
  | runs_nil w : runs [] w w
  | runs_cons o os w1 w2 w3 : op_step o w1 w2 → runs os w2 w3 → runs (o :: os) w1 w3.

(** The scheduler an operation works on. *)
Definition op_sched (o : op) : loc :=
  match o with
  | OpCreate s _ _ _ => s
  | OpEnqueue s _ _ => s
  | OpTurn s _ => s
  end.

(** An operation of scheduler [s] after its creation. *)
Definition uses_only (s : loc) (o : op) : Prop :=
  match o with
  | OpCreate _ _ _ _ => False
  | OpEnqueue s' _ _ => s' = s
  | OpTurn s' _ => s' = s
  end.

(** ** The queue a scheduler's pointers represent *)

(** Address of the [i]-th node of a queue, and of the one before it. *)
Definition addr_at (l : list (loc * request)) (i : nat) : option loc :=
  fst <$> l !! i.

Definition before_at (l : list (loc * request)) (i : nat) : option loc :=
  match i with
  | O => None
  | S j => addr_at l j
  end.

(** [is_queue h hd tl l]: in the node store [h], the pointers [hd] and [tl]
    are the two ends of a well-formed doubly linked list whose nodes are,
    from head to tail, at the addresses of [l] and hold the requests of
    [l]. *)
Definition is_queue (h : gmap loc linked) (hd tl : option loc)
    (l : list (loc * request)) : Prop :=
  NoDup l.*1 ∧
  hd = addr_at l 0 ∧
  tl = addr_at l (pred (length l)) ∧
  ∀ i c r, l !! i = Some (c, r) →
    h !! c = Some {| val := r; next := addr_at l (S i); prev := before_at l i |}.

(** The queue of scheduler [s] in world [w]. *)
Definition queue_of (w : world) (s : loc) (l : list (loc * request)) : Prop :=
  ∃ sch, scheds w !! s = Some sch ∧ is_queue (nodes w) (head sch) (tail sch) l.

(** The block numbers pending in a queue, in queue order. *)
Definition blocks (l : list (loc * request)) : list Z :=
  (λ x, block1 x.2) <$> l.

(** ** Specification vocabulary for the two searching policies *)

(** Both searches walk the list from the head, test every node against the
    current search state, and at the end of the list return to the head
    with the next search state.  [walk_step] is that shape, with the test
    and the change of state as parameters; [sstf_step] and [scan_step] are
    its two instances (lemmas [sstf_step_walk] and [scan_step_walk]). *)
Definition walk_step {T : Type} (test : T → Z → bool) (wrap : T → T)
    (h : gmap loc linked) (hd : loc) (st : loc * T) : ctl (loc * T) :=
  let '(curr, t) := st in
  match h !! curr with
  | None => Crash
  | Some n =>
      if test t (block1 (val n))
      then
        match next n with
        | Some c => Continue (c, t)
        | None => Continue (hd, wrap t)
        end
      else Break (curr, t)
  end.

(** The loop conditions of lines 236-237 and 254. *)
Definition sstf_test (nb nd b : Z) : bool :=
  bool_decide (b ≠ nb + nd)%Z && bool_decide (b ≠ nb - nd)%Z.
Definition scan_test (cur : Z * Z) (b : Z) : bool :=
  bool_decide (b ≠ cur.1).

(** No pending request passes the test in search state [t]. *)
Definition misses {T : Type} (test : T → Z → bool) (l : list (loc * request)) (t : T) : bool :=
  forallb (λ x, test t (block1 x.2)) l.

(** Position of the first pending request that stops the walk in state [t]. *)
Definition first_hit {T : Type} (test : T → Z → bool) (l : list (loc * request)) (t : T)
  : option (nat * (loc * request)) :=
  list_find (λ x, test t (block1 x.2) = false) l.

(** Seek distance of block [b] from the cursor at block [nb]. *)
Definition dist (nb b : Z) : Z := Z.abs (b - nb).


(** The SCAN cursor is on the disk and has a direction. *)
Definition cursor_in_range (nblocks : Z) (cur : Z * Z) : Prop :=
  (0 ≤ cur.1 ≤ nblocks - 1)%Z ∧ (cur.2 = 1 ∨ cur.2 = -1)%Z.

(** ** Concrete worlds for the examples *)

(** A scheduler as [disk_scheduler_create] leaves it, at address 0 of a
    process that has allocated nothing else. *)
Definition fresh_scheduler (m : disk_scheduler_mode_t) (nblocks : Z) : world :=
  (disk_scheduler_create
     (Some (0, {| sdisk := Disk 0; mode := DISK_SCHEDULER_MODE_FIFO;
                  head := Some 7; tail := Some 9 |}))
     (Some (Disk nblocks)) m initial_world).1.

(** Write requests for the blocks [bs], in nodes at consecutive addresses
    from [c] on. *)
Fixpoint requests_at (c : loc) (bs : list Z) : list (loc * request) :=
  match bs with
  | [] => []
  | b :: bs' => (c, write_request b 100) :: requests_at (S c) bs'
  end.

(** The world in which the requests [xs] have been enqueued, in that order,
    on a fresh scheduler and the cursor stands at [cur]. *)
Definition pending_world (m : disk_scheduler_mode_t) (nblocks : Z) (cur : Z * Z)
    (xs : list (loc * request)) : world :=
  let w0 := fresh_scheduler m nblocks in
  with_cursor cur.1 cur.2 (default w0 (enqueue_all 0 xs w0)).

(** Two SCAN schedulers on disks of 16 blocks in one process: scheduler 0
    with a request for block 5 pending, scheduler 1 with requests for
    blocks 2 and 8 pending; the cursor is as initialised. *)
Definition two_scan_world : world :=
  let w0 := (disk_scheduler_create
               (Some (0, {| sdisk := Disk 0; mode := DISK_SCHEDULER_MODE_FIFO;
                            head := None; tail := None |}))
               (Some (Disk 16)) DISK_SCHEDULER_MODE_SCAN initial_world).1 in
  let w1 := (disk_scheduler_create
               (Some (1, {| sdisk := Disk 0; mode := DISK_SCHEDULER_MODE_FIFO;
                            head := None; tail := None |}))
               (Some (Disk 16)) DISK_SCHEDULER_MODE_SCAN w0).1 in
  let w2 := default w1 (enqueue_all 0 (requests_at 10 [5%Z]) w1) in
  default w2 (enqueue_all 1 (requests_at 20 [2; 8]%Z) w2).

(** ** The specification's statements, to be compared with the code *)

(** The SSTF tie-break in the words of the specification: when two nearest
    pending requests sit at the same radius on opposite sides of the
    cursor, the one at [+ rad] is serviced, in whatever order the two were
    enqueued. *)
Definition sstf_prefers_plus_side : Prop :=
  ∀ w s sch l i j ci ri cj rj rad fuel w1 r,
    scheds w !! s = Some sch →
    mode sch = DISK_SCHEDULER_MODE_SSTF →
    is_queue (nodes w) (head sch) (tail sch) l →
    l !! i = Some (ci, ri) → l !! j = Some (cj, rj) →
    (0 < rad)%Z →
    block1 ri = (nextblock w + rad)%Z →
    block1 rj = (nextblock w - rad)%Z →
    (∀ y, y ∈ l → (rad ≤ dist (nextblock w) (block1 y.2))%Z) →
    run_turn fuel s w = Done (w1, r) →
    block1 r = (nextblock w + rad)%Z.

(** Cursor isolation in the words of the specification: for two SCAN
    schedulers with disjoint queues and disjoint sets of requested blocks,
    a turn of the one leaves the cursor of the other as it was, and the
    other services its requests in the same order as if the first had not
    run. *)
Definition cursor_per_scheduler : Prop :=
  ∀ w sA sB schA schB lA lB fuel wA rA n w1 rs1 w2 rs2,
    sA ≠ sB →
    scheds w !! sA = Some schA → mode schA = DISK_SCHEDULER_MODE_SCAN →
    is_queue (nodes w) (head schA) (tail schA) lA →
    scheds w !! sB = Some schB → mode schB = DISK_SCHEDULER_MODE_SCAN →
    is_queue (nodes w) (head schB) (tail schB) lB →
    (∀ c, c ∈ lA.*1 → c ∉ lB.*1) →
    (∀ b, b ∈ blocks lA → b ∉ blocks lB) →
    run_turn fuel sA w = Done (wA, rA) →
    run_turns fuel n sB w = Done (w1, rs1) →
    run_turns fuel n sB wA = Done (w2, rs2) →
    (nextblock wA, nextdir wA) = (nextblock w, nextdir w) ∧ rs1 = rs2.





(** ** The monitor: requester threads and the servicing thread *)

(** Where a thread that calls [disk_scheduler_read] or [disk_scheduler_write]
    stands: before the call; blocked in [pthread_cond_wait] (lines 129,
    188) with its node linked; unblocked but not yet back; back in the
    caller. *)
Inductive requester :=
  | Calling (r : request)
  | Waiting (c : loc)
  | Woken (c : loc)
  | Returned (c : loc).

(** Where the thread that runs [disk_scheduler_run] stands: at the top of
    its loop; blocked in the wait of line 217; between the unlock of line
    286 and the signal of line 303, with the node it took. *)
Inductive servicer :=
  | Idle
  | Blocked
  | Servicing (curr : loc).

(** [serviced] logs the nodes whose device operation has been done. *)
Record monitor := Monitor {
  mworld : world;
  threads : gmap nat requester;
  loop : servicer;
  serviced : list loc
}.

(** Interleavings.  There is one mutex and one condition variable for
    everything (lines 51-52).  Each step is a stretch of code that runs
    with the mutex held from its lock to its unlock or wait, so the mutex
    is free between steps.  [pthread_cond_signal] unblocks one of the
    threads blocked on the condition variable, and POSIX leaves open which:
    [servicer_signals] may pick any waiting requester.  POSIX also lets
    [pthread_cond_wait] return with no signal at all (a spurious wake-up);
    the loop of line 216 re-tests the queue for that reason, the waits of
    lines 129 and 188 do not.  Such returns are not among the steps below:
    the relation describes runs that a conforming implementation can
    produce, and is used only to exhibit such runs, never to conclude that
    a thread stays blocked. *)
Inductive monitor_step (s : loc) : monitor → monitor → Prop :=
  | requester_enqueues t r c m w' :
      threads m !! t = Some (Calling r) →
      nodes (mworld m) !! c = None →
      enqueue s r c (mworld m) = Some w' →
      monitor_step s m
        {| mworld := w'; threads := <[t := Waiting c]> (threads m);
           loop := loop m; serviced := serviced m |}
  | requester_returns t c m :
      threads m !! t = Some (Woken c) →
      monitor_step s m
        {| mworld := mworld m; threads := <[t := Returned c]> (threads m);
           loop := loop m; serviced := serviced m |}
  | servicer_blocks m sch :
      loop m = Idle →
      scheds (mworld m) !! s = Some sch → head sch = None →
      monitor_step s m
        {| mworld := mworld m; threads := threads m;
           loop := Blocked; serviced := serviced m |}
  | servicer_selects fuel m w' curr :
      loop m = Idle →
      select_and_remove fuel s (mworld m) = Done (w', curr) →
      monitor_step s m
        {| mworld := w'; threads := threads m;
           loop := Servicing curr; serviced := serviced m |}
  | servicer_signals t c m curr :
      loop m = Servicing curr →
      threads m !! t = Some (Waiting c) →
      monitor_step s m
        {| mworld := free_node curr (mworld m);
           threads := <[t := Woken c]> (threads m);
           loop := Idle; serviced := curr :: serviced m |}
  | servicer_signals_nobody m curr :
      loop m = Servicing curr →
      (∀ t c, threads m !! t ≠ Some (Waiting c)) →
      monitor_step s m
        {| mworld := free_node curr (mworld m); threads := threads m;
           loop := Idle; serviced := curr :: serviced m |}.

(** Own-wakeup in the words of the specification: from [m0] on, a requester
    is unblocked only after the node of its own request has been
    serviced. *)
Definition wakes_own_requester (s : loc) (m0 : monitor) : Prop :=
  ∀ m t c,
    rtc (monitor_step s) m0 m →
    threads m !! t = Some (Woken c) ∨ threads m !! t = Some (Returned c) →
    c ∈ serviced m.

(** An SSTF scheduler with nothing pending, the servicing thread at the top
    of its loop, and two threads about to write, thread 1 to block 9 and
    thread 2 to block 2. *)
Definition two_writers : monitor :=
  {| mworld := fresh_scheduler DISK_SCHEDULER_MODE_SSTF 16;
     threads := {[ 1 := Calling (write_request 9 100);
                   2 := Calling (write_request 2 101) ]};
     loop := Idle;
     serviced := [] |}.

(** An SSTF scheduler (address 0) and a SCAN scheduler (address 1) on disks
    of 16 blocks in one process: the first with a request for block 0
    pending, the second with a request for block 5 pending; the cursor is
    as initialised. *)
Definition sstf_scan_world : world :=
  let w0 := (disk_scheduler_create
               (Some (0, {| sdisk := Disk 0; mode := DISK_SCHEDULER_MODE_FIFO;
                            head := None; tail := None |}))
               (Some (Disk 16)) DISK_SCHEDULER_MODE_SSTF initial_world).1 in
  let w1 := (disk_scheduler_create
               (Some (1, {| sdisk := Disk 0; mode := DISK_SCHEDULER_MODE_FIFO;
                            head := None; tail := None |}))
               (Some (Disk 16)) DISK_SCHEDULER_MODE_SCAN w0).1 in
  let w2 := default w1 (enqueue_all 0 (requests_at 10 [0%Z]) w1) in
  default w2 (enqueue_all 1 (requests_at 20 [5%Z]) w2).

(** ** The device call of a turn: lines 291-299 *)




(** Number of enqueues and of turns in a sequence of operations. *)
Fixpoint count_enqueues (os : list op) : nat :=
  match os with
  | [] => 0
  | OpEnqueue _ _ _ :: os' => S (count_enqueues os')
  | _ :: os' => count_enqueues os'
  end.
Fixpoint count_turns (os : list op) : nat :=
  match os with
  | [] => 0
  | OpTurn _ _ :: os' => S (count_turns os')
  | _ :: os' => count_turns os'
  end.

(** ** program.c *)

(** A call of the scheduler front end made by [program_run]. *)
Inductive call :=
  | CallRead (block : Z) (data : loc)
  | CallWrite (block : Z) (data : loc).

(** The request the call enqueues (lines 103-105 and 162-164). *)
Definition call_request (c : call) : request :=
  match c with
  | CallRead block data => read_request block data
  | CallWrite block data => write_request block data
  end.

Section program.
(** [rand_r] is libc's: from the seed it gives a value and the new seed. *)
Variable rand_r : Z → Z * Z.

(** The body of the [for] loop, lines 16-25.  [seed] is the indeterminate
    value of the uninitialised local; [%] on [int] is [Z.rem]. *)
Definition program_iteration (nblocks : Z) (data : loc) (seed : Z) : call :=
  let '(v1, seed1) := rand_r seed in
  let readorwrite := Z.rem v1 2 in
  let '(v2, _) := rand_r seed1 in
  let block := Z.rem v2 nblocks in
  if bool_decide (readorwrite ≠ 0%Z)
  then CallRead block data
  else CallWrite block data.

(** [program_run]: the calls of the 100 iterations, in order.  [seed i] is
    the value the local [seed] holds when iteration [i] starts; [data] is
    the address of the local buffer. *)
Definition program_run (nblocks : Z) (data : loc) (seed : nat → Z) : list call :=
  (λ i, program_iteration nblocks data (seed i)) <$> seq 0 100.
End program.

(** * Lemmas *)

Section queue_facts.
Context (h : gmap loc linked) (hd tl : option loc) (l : list (loc * request)).
Hypothesis Hq : is_queue h hd tl l.

Lemma is_queue_node i c r :
  l !! i = Some (c, r) →
  h !! c = Some {| val := r; next := addr_at l (S i); prev := before_at l i |}.
Proof. destruct Hq as (_ & _ & _ & H). apply H. Qed.

Lemma is_queue_addr_inj i j c :
  addr_at l i = Some c → addr_at l j = Some c → i = j.
Proof.
  destruct Hq as (Hnd & _). unfold addr_at. rewrite <- !list_lookup_fmap.
  intros Hi Hj. eapply NoDup_lookup; eauto.
Qed.

Lemma addr_at_Some i c :
  addr_at l i = Some c → ∃ r, l !! i = Some (c, r).
Proof.
  unfold addr_at. destruct (l !! i) as [[c' r]|]; simpl; [|done].
  intros [= ->]. eauto.
Qed.

Lemma is_queue_head_nonempty : l ≠ [] → ∃ c r, hd = Some c ∧ l !! 0 = Some (c, r).
Proof.
  destruct Hq as (_ & -> & _). destruct l as [|[c r] l']; [done|].
  intros _. exists c, r. done.
Qed.

Lemma is_queue_empty_head : hd = None ↔ l = [].
Proof.
  destruct Hq as (_ & -> & _). destruct l as [|[c r] l']; simpl; split; done.
Qed.
End queue_facts.

Lemma addr_at_lookup l i c r : l !! i = Some (c, r) → addr_at l i = Some c.
Proof. unfold addr_at. by intros ->. Qed.

Lemma addr_at_None l i : length l ≤ i → addr_at l i = None.
Proof. intros. unfold addr_at. by rewrite lookup_ge_None_2. Qed.

Lemma addr_at_is_Some l i : i < length l → is_Some (addr_at l i).
Proof.
  intros Hi. destruct (lookup_lt_is_Some_2 l i Hi) as [[c r] H].
  exists c. by apply addr_at_lookup in H.
Qed.

Lemma is_queue_nil h : is_queue h None None [].
Proof.
  split_and!; try done. constructor.
Qed.

(** ** Loops with fuel *)

Section run_loop_facts.
Context {S : Type} (step : S → ctl S).

Lemma run_loop_mono n m s r :
  run_loop step n s = Done r → n ≤ m → run_loop step m s = Done r.
Proof.
  revert m s. induction n as [|n IH]; intros m s; simpl; [done|].
  intros H Hle. destruct m as [|m]; [lia|]. simpl.
  destruct (step s); try done. apply IH; [done|lia].
Qed.

Lemma run_loop_det n m s r r' :
  run_loop step n s = Done r → run_loop step m s = Done r' → r = r'.
Proof.
  intros H1 H2.
  apply (run_loop_mono _ (n `max` m)) in H1; [|lia].
  apply (run_loop_mono _ (n `max` m)) in H2; [|lia].
  congruence.
Qed.

Lemma run_loop_Continue n s s' :
  step s = Continue s' → run_loop step (Datatypes.S n) s = run_loop step n s'.
Proof. intros H. simpl. by rewrite H. Qed.

Lemma run_loop_Break n s s' :
  step s = Break s' → run_loop step (Datatypes.S n) s = Done s'.
Proof. intros H. simpl. by rewrite H. Qed.

(** An invariant of the loop holds of the state the loop is left in. *)
Lemma run_loop_invariant (I Q : S → Prop) :
  (∀ s s', I s → step s = Continue s' → I s') →
  (∀ s s', I s → step s = Break s' → Q s') →
  ∀ n s r, I s → run_loop step n s = Done r → Q r.
Proof.
  intros Hc Hb. induction n as [|n IH]; intros s r HI; simpl; [done|].
  destruct (step s) as [s'|s'|] eqn:E; try done.
  - apply IH. eauto.
  - intros [= <-]. eauto.
Qed.

Lemma run_loop_no_fault (I : S → Prop) :
  (∀ s s', I s → step s = Continue s' → I s') →
  (∀ s, I s → step s ≠ Crash) →
  ∀ n s, I s → run_loop step n s ≠ Fault.
Proof.
  intros Hc Hb. induction n as [|n IH]; intros s HI; simpl; [done|].
  destruct (step s) as [s'|s'|] eqn:E; try done.
  - apply IH. eauto.
  - by apply Hb in HI.
Qed.

(** A loop that can only go round never returns. *)
Lemma run_loop_diverges (I : S → Prop) :
  (∀ s, I s → ∃ s', step s = Continue s' ∧ I s') →
  ∀ n s, I s → run_loop step n s = Timeout.
Proof.
  intros Hc. induction n as [|n IH]; intros s HI; simpl; [done|].
  destruct (Hc s HI) as (s' & -> & HI'). by apply IH.
Qed.
End run_loop_facts.

(** ** Stores *)

Lemma store_node_Some p f (h : gmap loc linked) n :
  h !! p = Some n → store_node p f h = Some (<[p := f n]> h).
Proof. unfold store_node. by intros ->. Qed.

(** ** Enqueue appends at the tail *)

Lemma is_queue_in_store h hd tl l c :
  is_queue h hd tl l → c ∈ l.*1 → is_Some (h !! c).
Proof.
  intros Hq Hc. apply list_elem_of_lookup in Hc as [i Hi].
  rewrite list_lookup_fmap in Hi.
  destruct (l !! i) as [[c' r]|] eqn:E; simplify_eq/=.
  erewrite is_queue_node; eauto.
Qed.

Lemma is_queue_fresh h hd tl l c :
  is_queue h hd tl l → h !! c = None → c ∉ l.*1.
Proof.
  intros Hq Hc Hin. destruct (is_queue_in_store _ _ _ _ _ Hq Hin) as [? ?].
  congruence.
Qed.

Lemma is_queue_snoc h hd tl l r curr :
  is_queue h hd tl l → h !! curr = None →
  ∃ h',
    (let h0 := <[curr := {| val := r; next := None; prev := None |}]> h in
     match hd with
     | None => Some h0
     | Some _ =>
         t ← tl;
         h1 ← store_node t (set_next (Some curr)) h0;
         store_node curr (set_prev (Some t)) h1
     end) = Some h' ∧
    is_queue h' (match hd with None => Some curr | Some _ => hd end) (Some curr)
      (l ++ [(curr, r)]) ∧
    (∀ c, c ≠ curr → c ∉ l.*1 → h' !! c = h !! c).
Proof.
  intros Hq Hfresh.
  pose proof (is_queue_fresh _ _ _ _ _ Hq Hfresh) as Hnotin.
  destruct Hq as (Hnd & -> & -> & Hnodes).
  destruct l as [|[c0 r0] l0] using rev_ind.
  - (* empty queue *)
    simpl. eexists. split; [done|]. split.
    + split_and!; try done.
      * simpl. apply NoDup_singleton.
      * intros [|i] c r' Hi; simplify_eq/=. by rewrite lookup_insert_eq.
    + intros c Hc _. by rewrite lookup_insert_ne.
  - clear IHl0.
    set (l := l0 ++ [(c0, r0)]) in *.
    assert (Hlen : length l = Datatypes.S (length l0)).
    { unfold l. rewrite length_app. simpl. lia. }
    assert (Hlast : l !! length l0 = Some (c0, r0)).
    { unfold l. by rewrite list_lookup_middle. }
    assert (Hhd : is_Some (addr_at l 0)).
    { apply addr_at_is_Some. lia. }
    destruct Hhd as [c1 Hc1]. rewrite Hc1.
    rewrite Hlen. simpl pred. rewrite (addr_at_lookup _ _ _ _ Hlast). simpl.
    pose proof (Hnodes _ _ _ Hlast) as Ht.
    assert (Hne : c0 ≠ curr) by (intros ->; congruence).
    rewrite (store_node_Some c0 _ _ _ (eq_trans (lookup_insert_ne _ _ _ _ (not_eq_sym Hne)) Ht)).
    simpl.
    erewrite store_node_Some; last first.
    { rewrite lookup_insert_ne; [|done]. by rewrite lookup_insert_eq. }
    eexists. split; [done|]. split.
    + split_and!.
      * rewrite fmap_app. apply NoDup_app. split_and!; [done| |apply NoDup_singleton].
        intros x Hx ->%list_elem_of_singleton. done.
      * unfold addr_at. rewrite lookup_app_l; [|lia]. done.
      * rewrite length_app. simpl. replace (pred (length l + 1)) with (length l) by lia.
        unfold addr_at. by rewrite list_lookup_middle.
      * intros i c r' Hi.
        destruct (decide (i = length l)) as [->|Hil].
        -- rewrite list_lookup_middle in Hi; [|done]. simplify_eq.
           rewrite lookup_insert_eq. unfold set_prev. simpl. f_equal. f_equal.
           ++ symmetry. apply addr_at_None. rewrite length_app. simpl. lia.
           ++ rewrite Hlen. simpl. unfold addr_at.
              rewrite lookup_app_l; [|lia]. by rewrite Hlast.
        -- assert (i < length l).
           { apply lookup_lt_Some in Hi. rewrite length_app in Hi. simpl in Hi. lia. }
           rewrite lookup_app_l in Hi; [|done].
           assert (c ≠ curr).
           { intros ->. apply Hnotin. apply list_elem_of_lookup. exists i.
             rewrite list_lookup_fmap, Hi. done. }
           rewrite lookup_insert_ne; [|done].
           assert (Hbefore : before_at (l ++ [(curr, r)]) i = before_at l i).
           { destruct i; [done|]. simpl. unfold addr_at. rewrite lookup_app_l; [done|lia]. }
           destruct (decide (i = length l0)) as [->|Hi0].
           ++ simplify_eq. rewrite lookup_insert_eq. unfold set_next. simpl.
              rewrite Hbefore. f_equal. f_equal. unfold addr_at.
              rewrite <- Hlen. by rewrite list_lookup_middle.
           ++ assert (c ≠ c0).
              { intros ->. apply Hi0.
                eapply NoDup_lookup; [exact Hnd| |];
                  rewrite list_lookup_fmap; [rewrite Hi|rewrite Hlast]; done. }
              rewrite lookup_insert_ne; [|done].
              rewrite lookup_insert_ne; [|done].
              rewrite (Hnodes _ _ _ Hi), Hbefore. f_equal. f_equal.
              unfold addr_at. rewrite lookup_app_l; [done|lia].
    + intros c Hc Hcl.
      rewrite lookup_insert_ne; [|done].
      rewrite lookup_insert_ne.
      * by rewrite lookup_insert_ne.
      * intros ->. apply Hcl. apply list_elem_of_lookup. exists (length l0).
        rewrite list_lookup_fmap, Hlast. done.
Qed.

(** ** Removal unlinks exactly the chosen node *)

Lemma addr_at_delete_lt l i j : j < i → addr_at (delete i l) j = addr_at l j.
Proof. intros. unfold addr_at. by rewrite list_lookup_delete_lt. Qed.

Lemma addr_at_delete_ge l i j : i ≤ j → addr_at (delete i l) j = addr_at l (S j).
Proof. intros. unfold addr_at. by rewrite list_lookup_delete_ge. Qed.

Lemma is_queue_unlink h hd tl l i c r :
  is_queue h hd tl l → l !! i = Some (c, r) →
  let n := {| val := r; next := addr_at l (S i); prev := before_at l i |} in
  ∃ h',
    unlink_nodes c h = Some (h', n) ∧
    h' !! c = Some n ∧
    is_queue h'
      (if bool_decide (Some c = hd) then next n else hd)
      (if bool_decide (Some c = tl) then prev n else tl)
      (delete i l) ∧
    (∀ c', c' ∉ l.*1 → h' !! c' = h !! c').
Proof.
  intros Hq Hi n.
  pose proof (is_queue_addr_inj _ _ _ _ Hq) as Hinj.
  pose proof (is_queue_node _ _ _ _ Hq) as Hnodes.
  pose proof (addr_at_lookup _ _ _ _ Hi) as Hci.
  pose proof (lookup_lt_Some _ _ _ Hi) as Hlt.
  destruct Hq as (Hnd & -> & -> & _).
  assert (Hc0 : h !! c = Some n) by (by apply Hnodes).
  (* first store: the node before [c] *)
  set (h1 := match before_at l i with
             | Some p => <[p := set_next (addr_at l (S i)) {| val := (default r (snd <$> l !! pred i)); next := Some c; prev := before_at l (pred i) |}]> h
             | None => h
             end).
  assert (H1 : match prev n with
               | Some p => store_node p (set_next (next n)) h
               | None => Some h
               end = Some h1).
  { subst h1 n. simpl. destruct i as [|k]; simpl; [done|].
    destruct (addr_at l k) as [p|] eqn:Ep; [|done].
    apply addr_at_Some in Ep as [rp Ep].
    apply store_node_Some. rewrite (Hnodes _ _ _ Ep), Ep, Hci. done. }
  assert (H1c : h1 !! c = Some n).
  { clearbody n. subst h1. destruct (before_at l i) as [p|] eqn:Ep; [|done].
    rewrite lookup_insert_ne; [done|].
    intros ->. destruct i as [|k]; [done|]. simpl in Ep.
    pose proof (Hinj _ _ _ Ep Hci). lia. }
  (* second store: the node after [c] *)
  set (h2 := match addr_at l (S i) with
             | Some x => <[x := set_prev (before_at l i) {| val := (default r (snd <$> l !! S i)); next := addr_at l (S (S i)); prev := Some c |}]> h1
             | None => h1
             end).
  assert (H2 : match next n with
               | Some x => store_node x (set_prev (prev n)) h1
               | None => Some h1
               end = Some h2).
  { subst h2 n. simpl.
    destruct (addr_at l (S i)) as [x|] eqn:Ex; [|done].
    pose proof Ex as Ex'.
    apply addr_at_Some in Ex as [rx Ex].
    apply store_node_Some. subst h1.
    assert (h !! x = Some {| val := rx; next := addr_at l (S (S i)); prev := Some c |}) as Hx.
    { rewrite (Hnodes _ _ _ Ex). simpl. by rewrite Hci. }
    rewrite Ex. simpl.
    destruct (before_at l i) as [p|] eqn:Ep; [|done].
    rewrite lookup_insert_ne; [done|].
    intros ->. destruct i as [|k]; [done|]. simpl in Ep.
    pose proof (Hinj _ _ _ Ep Ex'). lia. }
  assert (H2c : h2 !! c = Some n).
  { subst h2. destruct (addr_at l (S i)) as [x|] eqn:Ex; [|done].
    rewrite lookup_insert_ne; [done|].
    intros ->. pose proof (Hinj _ _ _ Ex Hci). lia. }
  exists h2. split.
  { clearbody h2 h1 n. unfold unlink_nodes. rewrite Hc0. simpl.
    rewrite H1. simpl. rewrite H1c. simpl. rewrite H2. simpl.
    rewrite H2c. done. }
  split; [done|]. split.
  - split_and!.
    + rewrite list_fmap_delete. eapply sublist_NoDup; [exact Hnd|apply sublist_delete].
    + simpl. case_bool_decide as Hhd.
      * symmetry in Hhd. pose proof (Hinj _ _ _ Hhd Hci). subst i.
        by rewrite addr_at_delete_ge by lia.
      * rewrite addr_at_delete_lt; [done|].
        destruct i; [|lia]. by rewrite Hci in Hhd.
    + simpl. rewrite length_delete by eauto.
      case_bool_decide as Htl.
      * symmetry in Htl. pose proof (Hinj _ _ _ Htl Hci) as Hpi.
        destruct i as [|k]; simpl.
        -- replace (length l) with 1 by lia. simpl. symmetry.
           apply addr_at_None. rewrite length_delete by eauto. lia.
        -- rewrite addr_at_delete_lt by lia. f_equal. lia.
      * assert (i ≠ pred (length l)) by (intros E; apply Htl; by rewrite <- E, Hci).
        rewrite addr_at_delete_ge by lia. f_equal. lia.
    + intros j c' r' Hj.
      destruct (decide (j < i)) as [Hji|Hji].
      * rewrite list_lookup_delete_lt in Hj by done.
        pose proof (addr_at_lookup _ _ _ _ Hj) as Hcj.
        assert (Hb : before_at (delete i l) j = before_at l j).
        { destruct j; [done|]. simpl. apply addr_at_delete_lt. lia. }
        rewrite Hb.
        assert (Hx : ∀ x, addr_at l (S i) = Some x → c' ≠ x).
        { intros x Ex ->. pose proof (Hinj _ _ _ Ex Hcj). lia. }
        assert (h2 !! c' = h1 !! c') as ->.
        { subst h2. destruct (addr_at l (S i)) as [x|] eqn:Ex; [|done].
          rewrite lookup_insert_ne; [done|]. intros ->. by eapply Hx. }
        destruct (decide (S j = i)) as [<-|Hne].
        -- subst h1. simpl. rewrite Hcj.
           rewrite lookup_insert_eq. unfold set_next. simpl. rewrite Hj. simpl.
           by rewrite addr_at_delete_ge by lia.
        -- assert (h1 !! c' = h !! c') as ->.
           { subst h1. destruct (before_at l i) as [p|] eqn:Ep; [|done].
             rewrite lookup_insert_ne; [done|]. intros ->.
             destruct i as [|k]; [done|]. simpl in Ep.
             pose proof (Hinj _ _ _ Ep Hcj). lia. }
           rewrite (Hnodes _ _ _ Hj). by rewrite addr_at_delete_lt by lia.
      * rewrite list_lookup_delete_ge in Hj by lia.
        pose proof (addr_at_lookup _ _ _ _ Hj) as Hcj.
        rewrite addr_at_delete_ge by lia.
        destruct (decide (j = i)) as [->|Hne].
        -- subst h2. rewrite Hcj. rewrite lookup_insert_eq. unfold set_prev. simpl.
           rewrite Hj. simpl. f_equal. f_equal.
           destruct i as [|k]; [done|]. simpl. by rewrite addr_at_delete_lt by lia.
        -- assert (h2 !! c' = h1 !! c') as ->.
           { subst h2. destruct (addr_at l (S i)) as [x|] eqn:Ex; [|done].
             rewrite lookup_insert_ne; [done|]. intros ->.
             pose proof (Hinj _ _ _ Ex Hcj). lia. }
           assert (h1 !! c' = h !! c') as ->.
           { subst h1. destruct (before_at l i) as [p|] eqn:Ep; [|done].
             rewrite lookup_insert_ne; [done|]. intros ->.
             destruct i as [|k]; [done|]. simpl in Ep.
             pose proof (Hinj _ _ _ Ep Hcj). lia. }
           rewrite (Hnodes _ _ _ Hj). f_equal. f_equal.
           destruct j as [|j']; [lia|]. simpl. by rewrite addr_at_delete_ge by lia.
  - intros c' Hc'.
    assert (∀ k, addr_at l k ≠ Some c') as Hnot.
    { intros k Hk. apply Hc'. apply list_elem_of_lookup. exists k.
      by rewrite list_lookup_fmap. }
    assert (h2 !! c' = h1 !! c') as ->.
    { subst h2. destruct (addr_at l (S i)) as [x|] eqn:Ex; [|done].
      rewrite lookup_insert_ne; [done|]. intros ->. by eapply Hnot. }
    subst h1. destruct (before_at l i) as [p|] eqn:Ep; [|done].
    rewrite lookup_insert_ne; [done|]. intros ->.
    destruct i as [|k]; [done|]. by eapply Hnot.
Qed.

(** ** Walking the queue *)

Lemma sstf_step_walk h hd nblocks nb st :
  sstf_step h hd nblocks nb st = walk_step (sstf_test nb) (sstf_widen nblocks) h hd st.
Proof. by destruct st. Qed.

Lemma scan_step_walk h hd nblocks st :
  scan_step h hd nblocks st = walk_step scan_test (scan_advance nblocks) h hd st.
Proof. by destruct st. Qed.

Lemma misses_spec {T} (test : T → Z → bool) l t :
  misses test l t = true ↔ ∀ x, x ∈ l → test t (block1 x.2) = true.
Proof.
  unfold misses. induction l as [|y l IH]; simpl.
  - split; [|done]. intros _ x Hx. by apply elem_of_nil in Hx.
  - rewrite andb_true_iff, IH. split.
    + intros [Hy Hl] x [->|Hx]%elem_of_cons; auto.
    + intros H. split; [|intros x Hx]; apply H; by constructor.
Qed.

Lemma first_hit_None {T} (test : T → Z → bool) l t :
  first_hit test l t = None ↔ misses test l t = true.
Proof.
  unfold first_hit. rewrite list_find_None, misses_spec, Forall_forall.
  split; intros H x Hx; specialize (H x Hx); by destruct (test t (block1 x.2)).
Qed.

Section walk.
Context {T : Type} (test : T → Z → bool) (wrap : T → T).
Context (h : gmap loc linked) (hd : loc) (tl : option loc) (l : list (loc * request)).
Hypothesis Hq : is_queue h (Some hd) tl l.

Let step := walk_step test wrap h hd.

Lemma walk_head : addr_at l 0 = Some hd.
Proof. by destruct Hq as (_ & <- & _). Qed.

(** From position [i], [k - i] nodes fail to stop the walk and the node
    at [k] stops it. *)
Lemma walk_hit t fuel k c' r' :
  l !! k = Some (c', r') → test t (block1 r') = false →
  ∀ i c, i ≤ k → addr_at l i = Some c →
    (∀ j x, i ≤ j < k → l !! j = Some x → test t (block1 x.2) = true) →
    run_loop step (Datatypes.S (k - i) + fuel) (c, t) = Done (c', t).
Proof.
  intros Hk Hstop i c Hik. remember (k - i) as m eqn:Em.
  revert i c Hik Em. induction m as [|m IH]; intros i c Hik Em Hc Hmiss.
  - assert (i = k) as -> by lia.
    rewrite (addr_at_lookup _ _ _ _ Hk) in Hc. simplify_eq.
    apply run_loop_Break. unfold step, walk_step.
    rewrite (is_queue_node _ _ _ _ Hq _ _ _ Hk). simpl. by rewrite Hstop.
  - apply addr_at_Some in Hc as [r Hc].
    assert (Hnext : is_Some (addr_at l (Datatypes.S i))).
    { apply addr_at_is_Some. apply lookup_lt_Some in Hk. lia. }
    destruct Hnext as [c1 Hc1].
    change (Datatypes.S (Datatypes.S m) + fuel) with (Datatypes.S (Datatypes.S m + fuel)).
    rewrite (run_loop_Continue _ _ _ (c1, t)).
    + apply (IH (Datatypes.S i)); [lia|lia|done|].
      intros j x Hj. apply Hmiss. lia.
    + unfold step, walk_step.
      rewrite (is_queue_node _ _ _ _ Hq _ _ _ Hc). simpl.
      pose proof (Hmiss i (c, r) ltac:(lia) Hc) as Hm. simpl in Hm.
      by rewrite Hm, Hc1.
Qed.

(** From position [i], no node stops the walk: it comes back to the head
    with the next search state. *)
Lemma walk_pass t fuel :
  ∀ m i c, length l = Datatypes.S (i + m) → addr_at l i = Some c →
    (∀ j x, i ≤ j → l !! j = Some x → test t (block1 x.2) = true) →
    run_loop step (Datatypes.S m + fuel) (c, t) = run_loop step fuel (hd, wrap t).
Proof.
  induction m as [|m IH]; intros i c Hlen Hc Hmiss.
  - apply addr_at_Some in Hc as [r Hc].
    apply run_loop_Continue. unfold step, walk_step.
    rewrite (is_queue_node _ _ _ _ Hq _ _ _ Hc). simpl.
    pose proof (Hmiss i (c, r) ltac:(lia) Hc) as Hm. simpl in Hm.
    rewrite Hm, addr_at_None; [done|lia].
  - apply addr_at_Some in Hc as [r Hc].
    assert (Hnext : is_Some (addr_at l (Datatypes.S i))).
    { apply addr_at_is_Some. lia. }
    destruct Hnext as [c1 Hc1].
    change (Datatypes.S (Datatypes.S m) + fuel) with (Datatypes.S (Datatypes.S m + fuel)).
    rewrite (run_loop_Continue _ _ _ (c1, t)).
    + apply (IH (Datatypes.S i)); [lia|done|].
      intros j x Hj. apply Hmiss. lia.
    + unfold step, walk_step.
      rewrite (is_queue_node _ _ _ _ Hq _ _ _ Hc). simpl.
      pose proof (Hmiss i (c, r) ltac:(lia) Hc) as Hm. simpl in Hm.
      by rewrite Hm, Hc1.
Qed.

(** One round from the head. *)
Lemma walk_round_hit t fuel k c r :
  first_hit test l t = Some (k, (c, r)) →
  run_loop step (Datatypes.S k + fuel) (hd, t) = Done (c, t).
Proof.
  intros (Hk & Hstop & Hbefore)%list_find_Some.
  replace k with (k - 0) at 1 by lia.
  eapply walk_hit; eauto using walk_head; [lia|].
  intros j x Hj Hx. specialize (Hbefore j x Hx).
  destruct (test t (block1 x.2)); [done|]. exfalso. apply Hbefore; [lia|done].
Qed.

Lemma walk_round_miss t fuel :
  misses test l t = true →
  run_loop step (length l + fuel) (hd, t) = run_loop step fuel (hd, wrap t).
Proof.
  intros Hmiss. rewrite misses_spec in Hmiss.
  pose proof walk_head as Hhd.
  destruct (length l) as [|m] eqn:Hlen.
  { apply addr_at_Some in Hhd as [r Hr]. apply lookup_lt_Some in Hr. lia. }
  apply (walk_pass t fuel m 0); [lia|done|].
  intros j x _ Hx. apply Hmiss. by eapply list_elem_of_lookup_2.
Qed.

(** [n] rounds without a hit. *)
Lemma walk_rounds_miss t fuel n :
  (∀ m, m < n → misses test l (Nat.iter m wrap t) = true) →
  run_loop step (n * length l + fuel) (hd, t) = run_loop step fuel (hd, Nat.iter n wrap t).
Proof.
  revert fuel. induction n as [|n IH]; intros fuel Hmiss; [done|].
  replace (Datatypes.S n * length l + fuel) with (n * length l + (length l + fuel)) by lia.
  rewrite IH by (intros; apply Hmiss; lia).
  rewrite walk_round_miss by (apply Hmiss; lia). done.
Qed.

(** Total correctness of the walk: if round [n] is the first with a hit,
    the loop returns the first hit of that round. *)
Lemma walk_finds t n k c r :
  (∀ m, m < n → misses test l (Nat.iter m wrap t) = true) →
  first_hit test l (Nat.iter n wrap t) = Some (k, (c, r)) →
  run_loop step (n * length l + Datatypes.S k) (hd, t) = Done (c, Nat.iter n wrap t).
Proof.
  intros Hmiss Hhit. rewrite walk_rounds_miss by done.
  replace (Datatypes.S k) with (Datatypes.S k + 0) by lia.
  by eapply walk_round_hit.
Qed.

(** What one turn of the loop does from a node of the queue. *)
Lemma walk_step_queue k c r t :
  l !! k = Some (c, r) →
  step (c, t) =
    if test t (block1 r)
    then match addr_at l (Datatypes.S k) with
         | Some c1 => Continue (c1, t)
         | None => Continue (hd, wrap t)
         end
    else Break (c, t).
Proof.
  intros Hk. unfold step, walk_step.
  by rewrite (is_queue_node _ _ _ _ Hq _ _ _ Hk).
Qed.

Let on_queue (st : loc * T) : Prop := ∃ k r, l !! k = Some (st.1, r).

Lemma walk_on_queue_head t : on_queue (hd, t).
Proof.
  pose proof walk_head as Hhd. apply addr_at_Some in Hhd as [r Hr].
  by exists 0, r.
Qed.

Lemma walk_on_queue_Continue st st' :
  on_queue st → step st = Continue st' → on_queue st'.
Proof.
  destruct st as [c t], st' as [c' t']. intros (k & r & Hk). simpl in Hk.
  rewrite (walk_step_queue _ _ _ _ Hk).
  destruct (test t (block1 r)); [|done].
  destruct (addr_at l (Datatypes.S k)) as [c1|] eqn:E; intros [= <- <-].
  - apply addr_at_Some in E as [r1 E]. by exists (Datatypes.S k), r1.
  - apply walk_on_queue_head.
Qed.

(** Whatever the loop returns is a node of the queue that fails the test
    in the final search state. *)
Lemma walk_returns fuel t c' t' :
  run_loop step fuel (hd, t) = Done (c', t') →
  ∃ k r, l !! k = Some (c', r) ∧ test t' (block1 r) = false.
Proof.
  apply (run_loop_invariant step on_queue
           (λ st, ∃ k r, l !! k = Some (st.1, r) ∧ test st.2 (block1 r) = false)).
  - apply walk_on_queue_Continue.
  - intros [c t0] [c1 t1] (k & r & Hk). simpl in Hk.
    rewrite (walk_step_queue _ _ _ _ Hk).
    destruct (test t0 (block1 r)) eqn:Et.
    + destruct (addr_at l (Datatypes.S k)); done.
    + intros [= <- <-]. simpl. eauto.
  - apply walk_on_queue_head.
Qed.

(** The loop dereferences only nodes of the queue. *)
Lemma walk_no_fault fuel t : run_loop step fuel (hd, t) ≠ Fault.
Proof.
  apply (run_loop_no_fault step on_queue).
  - apply walk_on_queue_Continue.
  - intros [c t0] (k & r & Hk). simpl in Hk.
    rewrite (walk_step_queue _ _ _ _ Hk).
    destruct (test t0 (block1 r)); [|done].
    destruct (addr_at l (Datatypes.S k)); done.
  - apply walk_on_queue_head.
Qed.

(** The search state the loop returns is one of the states the rounds go
    through. *)
Lemma walk_returns_round fuel t c' t' :
  run_loop step fuel (hd, t) = Done (c', t') → ∃ n, t' = Nat.iter n wrap t.
Proof.
  apply (run_loop_invariant step (λ st, ∃ n, st.2 = Nat.iter n wrap t)
           (λ st, ∃ n, st.2 = Nat.iter n wrap t)).
  - intros [c0 t0] [c1 t1] [n Hn]. simpl in *. unfold step, walk_step.
    destruct (h !! c0) as [nd|]; [|done].
    destruct (test t0 (block1 (val nd))); [|done].
    destruct (next nd); intros [= <- <-]; simpl.
    + by exists n.
    + exists (Datatypes.S n). simpl. by rewrite Hn.
  - intros [c0 t0] [c1 t1] [n Hn]. simpl in *. unfold step, walk_step.
    destruct (h !! c0) as [nd|]; [|done].
    destruct (test t0 (block1 (val nd))).
    + destruct (next nd); done.
    + intros [= <- <-]. by exists n.
  - by exists 0.
Qed.

(** If no search state the walk goes through is ever hit, it never
    returns. *)
Lemma walk_diverges t :
  (∀ n, misses test l (Nat.iter n wrap t) = true) →
  ∀ fuel, run_loop step fuel (hd, t) = Timeout.
Proof.
  intros Hmiss fuel.
  destruct (run_loop step fuel (hd, t)) as [[c t']| |] eqn:E; [|done|].
  - exfalso.
    destruct (walk_returns_round _ _ _ _ E) as [n ->].
    apply walk_returns in E as (k & r & Hk & Hstop).
    specialize (Hmiss n). rewrite misses_spec in Hmiss.
    pose proof (Hmiss (c, r) (list_elem_of_lookup_2 _ _ _ Hk)) as Hm. simpl in Hm.
    congruence.
  - by apply walk_no_fault in E.
Qed.
End walk.

(** ** Enqueue, removal and selection on worlds *)

Lemma enqueue_spec w s sch l r curr :
  scheds w !! s = Some sch →
  is_queue (nodes w) (head sch) (tail sch) l →
  nodes w !! curr = None →
  ∃ w' sch',
    enqueue s r curr w = Some w' ∧
    scheds w' = <[s := sch']> (scheds w) ∧
    mode sch' = mode sch ∧ sdisk sch' = sdisk sch ∧
    is_queue (nodes w') (head sch') (tail sch') (l ++ [(curr, r)]) ∧
    nextblock w' = nextblock w ∧ nextdir w' = nextdir w ∧
    (∀ c, c ≠ curr → c ∉ l.*1 → nodes w' !! c = nodes w !! c).
Proof.
  intros Hs Hq Hfresh.
  destruct (is_queue_snoc _ _ _ _ r _ Hq Hfresh) as (h' & Hh' & Hq' & Hframe).
  unfold enqueue. rewrite Hs. simpl.
  destruct (head sch) as [hd|] eqn:Ehd.
  - destruct (tail sch) as [t|] eqn:Etl; simpl in *; [|done].
    destruct (store_node t _ _) as [h1|]; simpl in *; [|done].
    rewrite Hh'. simpl.
    eexists _, (set_tail (Some curr) sch). split; [done|].
    unfold set_tail; simpl. rewrite Ehd. split_and!; done.
  - simpl in *. simplify_eq.
    eexists _, (set_tail (Some curr) (set_head (Some curr) sch)). split; [done|].
    split_and!; done.
Qed.

Lemma unlink_spec w s sch l i c r :
  scheds w !! s = Some sch →
  is_queue (nodes w) (head sch) (tail sch) l →
  l !! i = Some (c, r) →
  ∃ w' sch',
    unlink s c w = Some w' ∧
    scheds w' = <[s := sch']> (scheds w) ∧
    mode sch' = mode sch ∧ sdisk sch' = sdisk sch ∧
    is_queue (nodes w') (head sch') (tail sch') (delete i l) ∧
    nextblock w' = nextblock w ∧ nextdir w' = nextdir w ∧
    val <$> nodes w' !! c = Some r ∧
    (∀ c', c' ∉ l.*1 → nodes w' !! c' = nodes w !! c').
Proof.
  intros Hs Hq Hi.
  destruct (is_queue_unlink _ _ _ _ _ _ _ Hq Hi) as (h' & Hu & Hc & Hq' & Hframe).
  unfold unlink. rewrite Hu. simpl. rewrite Hs. simpl.
  eexists _, _. split; [done|]. simpl.
  split; [done|].
  assert (∀ n, mode (unlink_ends c n sch) = mode sch ∧
               sdisk (unlink_ends c n sch) = sdisk sch ∧
               head (unlink_ends c n sch)
                 = (if bool_decide (Some c = head sch) then next n else head sch) ∧
               tail (unlink_ends c n sch)
                 = (if bool_decide (Some c = tail sch) then prev n else tail sch)) as Hends.
  { intros n. unfold unlink_ends. repeat case_bool_decide; simpl in *; try done. }
  destruct (Hends {| val := r; next := addr_at l (S i); prev := before_at l i |})
    as (-> & -> & -> & ->).
  split_and!; try done. by rewrite Hc.
Qed.

(** The policy's choice, once made, is carried out by the removal. *)
Lemma select_and_remove_Done fuel w s sch l c nb nd i r :
  scheds w !! s = Some sch →
  is_queue (nodes w) (head sch) (tail sch) l →
  select fuel w sch = Done (c, nb, nd) →
  l !! i = Some (c, r) →
  ∃ w' sch',
    select_and_remove fuel s w = Done (w', c) ∧
    scheds w' = <[s := sch']> (scheds w) ∧
    mode sch' = mode sch ∧ sdisk sch' = sdisk sch ∧
    is_queue (nodes w') (head sch') (tail sch') (delete i l) ∧
    nextblock w' = nb ∧ nextdir w' = nd ∧
    val <$> nodes w' !! c = Some r ∧
    (∀ c', c' ∉ l.*1 → nodes w' !! c' = nodes w !! c').
Proof.
  intros Hs Hq Hsel Hi.
  destruct (unlink_spec (with_cursor nb nd w) s sch l i c r Hs Hq Hi)
    as (w' & sch' & Hu & ?).
  exists w', sch'. split; [|done].
  unfold select_and_remove. rewrite Hs. simpl. rewrite Hsel. simpl.
  by rewrite Hu.
Qed.

(** What [select] returns, by mode. *)
Lemma select_fifo fuel w sch l c r :
  is_queue (nodes w) (head sch) (tail sch) l →
  mode sch = DISK_SCHEDULER_MODE_FIFO →
  l !! 0 = Some (c, r) →
  select fuel w sch = Done (c, nextblock w, nextdir w).
Proof.
  intros (_ & Hhd & _) Hm H0. unfold select.
  rewrite Hhd, (addr_at_lookup _ _ _ _ H0), Hm. done.
Qed.

Lemma select_sstf fuel w sch hd :
  head sch = Some hd →
  mode sch = DISK_SCHEDULER_MODE_SSTF →
  select fuel w sch =
    obind (run_loop (walk_step (sstf_test (nextblock w))
                       (sstf_widen (disk_scheduler_nblocks sch)) (nodes w) hd)
             fuel (hd, 0%Z))
      (λ '(curr, nd),
         obind (of_option (nodes w !! curr)) (λ n, Done (curr, block1 (val n), nd))).
Proof.
  intros Hhd Hm. unfold select. rewrite Hhd, Hm. reflexivity.
Qed.

Lemma select_scan fuel w sch hd :
  head sch = Some hd →
  mode sch = DISK_SCHEDULER_MODE_SCAN →
  select fuel w sch =
    obind (run_loop (walk_step scan_test (scan_advance (disk_scheduler_nblocks sch))
                       (nodes w) hd)
             fuel (hd, (nextblock w, nextdir w)))
      (λ '(curr, (nb, nd)), Done (curr, nb, nd)).
Proof.
  intros Hhd Hm. unfold select. rewrite Hhd, Hm. reflexivity.
Qed.

(** Partial correctness of [select] in every mode: the node it returns is
    in the queue. *)
Lemma select_in_queue fuel w sch l c nb nd :
  is_queue (nodes w) (head sch) (tail sch) l →
  select fuel w sch = Done (c, nb, nd) →
  ∃ i r, l !! i = Some (c, r).
Proof.
  intros Hq Hsel.
  destruct (head sch) as [hd|] eqn:Ehd; [|by unfold select in Hsel; rewrite Ehd in Hsel].
  destruct (mode sch) eqn:Em.
  - unfold select in Hsel. rewrite Ehd, Em in Hsel. simplify_eq.
    destruct Hq as (_ & Hhd & _). symmetry in Hhd.
    apply addr_at_Some in Hhd as [r Hr]. eauto.
  - rewrite (select_sstf _ _ _ _ Ehd Em) in Hsel.
    destruct (run_loop _ _ _) as [[c' nd']| |] eqn:E; simpl in Hsel; try done.
    eapply walk_returns in E as (k & r & Hk & _); [|done].
    destruct (nodes w !! c'); simpl in Hsel; simplify_eq. eauto.
  - rewrite (select_scan _ _ _ _ Ehd Em) in Hsel.
    destruct (run_loop _ _ _) as [[c' [nb' nd']]| |] eqn:E; simpl in Hsel; try done.
    eapply walk_returns in E as (k & r & Hk & _); [|done].
    simplify_eq. eauto.
Qed.

Lemma select_mono fuel fuel' w sch x :
  select fuel w sch = Done x → fuel ≤ fuel' → select fuel' w sch = Done x.
Proof.
  unfold select. destruct (head sch) as [hd|]; [|done].
  destruct (mode sch); [done| |].
  - destruct (run_loop _ fuel _) as [st| |] eqn:E; simpl; try done.
    intros H Hle. by rewrite (run_loop_mono _ _ _ _ _ E Hle).
  - destruct (run_loop _ fuel _) as [st| |] eqn:E; simpl; try done.
    intros H Hle. by rewrite (run_loop_mono _ _ _ _ _ E Hle).
Qed.

Lemma select_and_remove_mono fuel fuel' s w x :
  select_and_remove fuel s w = Done x → fuel ≤ fuel' →
  select_and_remove fuel' s w = Done x.
Proof.
  unfold select_and_remove. destruct (scheds w !! s) as [sch|]; simpl; [|done].
  destruct (select fuel w sch) as [y| |] eqn:E; simpl; try done.
  intros H Hle. by rewrite (select_mono _ _ _ _ _ E Hle).
Qed.

Section walk_total.
Context {T : Type} (test : T → Z → bool) (wrap : T → T).
Context (h : gmap loc linked) (hd : loc) (tl : option loc) (l : list (loc * request)).
Hypothesis Hq : is_queue h (Some hd) tl l.

(** The walk returns as soon as some round has a hit. *)
Lemma walk_terminates n :
  ∀ t, misses test l (Nat.iter n wrap t) = false →
  ∃ fuel c t', run_loop (walk_step test wrap h hd) fuel (hd, t) = Done (c, t').
Proof.
  assert (Hnow : ∀ t, misses test l t = false →
    ∃ fuel c t', run_loop (walk_step test wrap h hd) fuel (hd, t) = Done (c, t')).
  { intros t Hhit. destruct (first_hit test l t) as [[k [c r]]|] eqn:E.
    - exists (S k + 0), c, t. by eapply walk_round_hit.
    - apply first_hit_None in E. congruence. }
  induction n as [|n IH]; intros t Hhit.
  - by apply Hnow.
  - destruct (misses test l t) eqn:Em.
    + rewrite Nat.iter_succ_r in Hhit.
      destruct (IH _ Hhit) as (fuel & c & t' & Hrun).
      exists (length l + fuel), c, t'.
      by rewrite (walk_round_miss _ _ _ _ _ _ Hq).
    + by apply Hnow.
Qed.
End walk_total.

(** ** SSTF: radius arithmetic and the search *)

Lemma sstf_test_false nb nd b :
  (0 ≤ nd)%Z → sstf_test nb nd b = false ↔ dist nb b = nd.
Proof.
  intros Hnd. unfold sstf_test, dist.
  rewrite andb_false_iff, !bool_decide_eq_false. split.
  - intros [H|H]; apply dec_stable in H; lia.
  - intros H. destruct (decide (b = nb + nd)%Z) as [E|E]; [left|right]; intros ?; lia.
Qed.

Lemma sstf_test_true nb nd b :
  (0 ≤ nd)%Z → dist nb b ≠ nd → sstf_test nb nd b = true.
Proof.
  intros Hnd Hd. destruct (sstf_test nb nd b) eqn:E; [done|].
  by apply sstf_test_false in E.
Qed.

(** The radius of round [n] is [n], as long as [n ≤ nblocks - 2]. *)
Lemma sstf_radius nblocks n :
  (Z.of_nat n ≤ nblocks - 2)%Z → Nat.iter n (sstf_widen nblocks) 0%Z = Z.of_nat n.
Proof.
  induction n as [|n IH]; intros Hn; [done|].
  simpl. rewrite IH by lia. unfold sstf_widen.
  rewrite bool_decide_eq_false_2; lia.
Qed.

(** The radius never leaves [0 .. nblocks - 2]: line 242 sends it back to 0
    when it reaches [nblocks - 1]. *)
Lemma sstf_radius_bound nblocks n :
  let r := Nat.iter n (sstf_widen nblocks) 0%Z in
  (0 ≤ r)%Z ∧ (r = 0 ∨ r ≤ nblocks - 2)%Z.
Proof.
  cbv zeta. induction n as [|n IH]; simpl; [lia|].
  set (r := Nat.iter n _ _) in *.
  unfold sstf_widen. case_bool_decide; lia.
Qed.

(** Total correctness of the SSTF choice: the first node, in queue order,
    among those at the least distance [d] from the cursor is chosen,
    provided [d] is a radius the search reaches. *)
Lemma select_sstf_total w sch l i c r :
  is_queue (nodes w) (head sch) (tail sch) l →
  mode sch = DISK_SCHEDULER_MODE_SSTF →
  l !! i = Some (c, r) →
  let d := dist (nextblock w) (block1 r) in
  (d = 0 ∨ d ≤ disk_scheduler_nblocks sch - 2)%Z →
  (∀ j x, l !! j = Some x → j < i → (d < dist (nextblock w) (block1 x.2))%Z) →
  (∀ x, x ∈ l → (d ≤ dist (nextblock w) (block1 x.2))%Z) →
  select (Z.to_nat d * length l + S i) w sch = Done (c, block1 r, d).
Proof.
  intros Hq Hm Hi d Hreach Hfirst Hleast.
  assert (Hd0 : (0 ≤ d)%Z) by (unfold d, dist; lia).
  assert (∃ hd, head sch = Some hd) as [hd Ehd].
  { destruct Hq as (_ & -> & _). apply (addr_at_is_Some l 0).
    apply lookup_lt_Some in Hi. lia. }
  rewrite (select_sstf _ _ _ _ Ehd Hm). rewrite Ehd in Hq.
  assert (Hit : Nat.iter (Z.to_nat d) (sstf_widen (disk_scheduler_nblocks sch)) 0%Z = d).
  { destruct Hreach as [->|Hle]; [done|]. rewrite sstf_radius; lia. }
  erewrite (walk_finds _ _ _ _ _ _ Hq 0%Z (Z.to_nat d) i c r).
  - simpl. rewrite (is_queue_node _ _ _ _ Hq _ _ _ Hi). simpl. by rewrite Hit.
  - intros m Hmd. apply misses_spec. intros x Hx.
    rewrite sstf_radius by lia. apply sstf_test_true; [lia|].
    specialize (Hleast x Hx). lia.
  - rewrite Hit. apply list_find_Some. split_and!; [done|by apply sstf_test_false| ].
    intros j x Hj Hji Hx. apply sstf_test_false in Hx; [|done].
    specialize (Hfirst j x Hj Hji). lia.
Qed.

(** The search never ends when every pending request is farther from the
    cursor than the widest radius, [nblocks - 2]. *)
Lemma select_sstf_diverges w sch l :
  is_queue (nodes w) (head sch) (tail sch) l →
  mode sch = DISK_SCHEDULER_MODE_SSTF →
  l ≠ [] →
  (∀ x, x ∈ l →
     (0 < dist (nextblock w) (block1 x.2))%Z ∧
     (disk_scheduler_nblocks sch - 2 < dist (nextblock w) (block1 x.2))%Z) →
  ∀ fuel, select fuel w sch = Timeout.
Proof.
  intros Hq Hm Hne Hfar fuel.
  destruct (is_queue_head_nonempty _ _ _ _ Hq Hne) as (hd & r & Ehd & _).
  rewrite (select_sstf _ _ _ _ Ehd Hm). rewrite Ehd in Hq.
  rewrite (walk_diverges _ _ _ _ _ _ Hq); [done|].
  intros n. apply misses_spec. intros x Hx.
  pose proof (sstf_radius_bound (disk_scheduler_nblocks sch) n) as Hb.
  cbv zeta in Hb. destruct Hb as [H0 Hb].
  cbv zeta in H0, Hb. apply sstf_test_true; [done|].
  specialize (Hfar x Hx). lia.
Qed.

(** It ends when some pending request is within reach. *)
Lemma select_sstf_terminates w sch l x :
  is_queue (nodes w) (head sch) (tail sch) l →
  mode sch = DISK_SCHEDULER_MODE_SSTF →
  x ∈ l →
  (dist (nextblock w) (block1 x.2) = 0 ∨
   dist (nextblock w) (block1 x.2) ≤ disk_scheduler_nblocks sch - 2)%Z →
  ∃ fuel res, select fuel w sch = Done res.
Proof.
  intros Hq Hm Hx Hreach.
  assert (l ≠ []) as Hne by (intros ->; by apply elem_of_nil in Hx).
  destruct (is_queue_head_nonempty _ _ _ _ Hq Hne) as (hd & r & Ehd & _).
  rewrite Ehd in Hq.
  set (d := dist (nextblock w) (block1 x.2)) in *.
  assert (Hd0 : (0 ≤ d)%Z) by (unfold d, dist; lia).
  destruct (walk_terminates (sstf_test (nextblock w))
              (sstf_widen (disk_scheduler_nblocks sch)) _ _ _ _ Hq (Z.to_nat d) 0%Z)
    as (fuel & c & nd & Hrun).
  { assert (Nat.iter (Z.to_nat d) (sstf_widen (disk_scheduler_nblocks sch)) 0%Z = d) as ->.
    { destruct Hreach as [->|Hle]; [done|]. rewrite sstf_radius; lia. }
    destruct (misses _ _ _) eqn:E; [|done].
    rewrite misses_spec in E. specialize (E x Hx).
    assert (sstf_test (nextblock w) d (block1 x.2) = false) by (by apply sstf_test_false).
    congruence. }
  exists fuel. rewrite (select_sstf _ _ _ _ Ehd Hm), Hrun. simpl.
  destruct (walk_returns _ _ _ _ _ _ Hq _ _ _ _ Hrun) as (k & r' & Hk & _).
  rewrite (is_queue_node _ _ _ _ Hq _ _ _ Hk). simpl. eauto.
Qed.

(** ** SCAN: the sweep *)

Lemma scan_advance_up nblocks nb :
  (0 ≤ nb < nblocks - 1)%Z → scan_advance nblocks (nb, 1%Z) = ((nb + 1)%Z, 1%Z).
Proof.
  intros H. unfold scan_advance.
  rewrite bool_decide_eq_false_2 by lia. rewrite bool_decide_eq_false_2 by lia. done.
Qed.

Lemma scan_advance_top nblocks :
  (1 ≤ nblocks)%Z → scan_advance nblocks ((nblocks - 1)%Z, 1%Z) = ((nblocks - 1)%Z, (-1)%Z).
Proof.
  intros H. unfold scan_advance.
  rewrite bool_decide_eq_true_2 by lia. rewrite bool_decide_eq_false_2 by lia.
  f_equal. lia.
Qed.

Lemma scan_advance_down nblocks nb :
  (0 < nb ≤ nblocks - 1)%Z → scan_advance nblocks (nb, (-1)%Z) = ((nb - 1)%Z, (-1)%Z).
Proof.
  intros H. unfold scan_advance.
  rewrite bool_decide_eq_false_2 by lia. rewrite bool_decide_eq_false_2 by lia.
  f_equal.
Qed.

Lemma scan_advance_bottom nblocks :
  (1 ≤ nblocks)%Z → scan_advance nblocks (0%Z, (-1)%Z) = (0%Z, 1%Z).
Proof.
  intros H. unfold scan_advance.
  rewrite bool_decide_eq_false_2 by lia. rewrite bool_decide_eq_true_2 by lia. done.
Qed.

Lemma scan_advance_in_range nblocks cur :
  (1 ≤ nblocks)%Z → cursor_in_range nblocks cur →
  cursor_in_range nblocks (scan_advance nblocks cur).
Proof.
  destruct cur as [nb nd]. unfold cursor_in_range, scan_advance. simpl.
  intros HN [Hb Hd]. repeat case_bool_decide; simpl; lia.
Qed.

Lemma scan_iter_in_range nblocks cur n :
  (1 ≤ nblocks)%Z → cursor_in_range nblocks cur →
  cursor_in_range nblocks (Nat.iter n (scan_advance nblocks) cur).
Proof.
  intros HN Hc. induction n as [|n IH]; [done|].
  simpl. by apply scan_advance_in_range.
Qed.

(** Sweeping up from [nb] reaches every block above it, one block a move. *)
Lemma scan_climb nblocks k :
  ∀ nb, (0 ≤ nb)%Z → (nb + Z.of_nat k ≤ nblocks - 1)%Z →
  Nat.iter k (scan_advance nblocks) (nb, 1%Z) = ((nb + Z.of_nat k)%Z, 1%Z).
Proof.
  induction k as [|k IH]; intros nb H0 Hk.
  - simpl. f_equal. lia.
  - rewrite Nat.iter_succ_r, scan_advance_up by lia.
    rewrite IH by lia. f_equal. lia.
Qed.

Lemma scan_descend nblocks k :
  ∀ nb, (nb ≤ nblocks - 1)%Z → (0 ≤ nb - Z.of_nat k)%Z →
  Nat.iter k (scan_advance nblocks) (nb, (-1)%Z) = ((nb - Z.of_nat k)%Z, (-1)%Z).
Proof.
  induction k as [|k IH]; intros nb H0 Hk.
  - simpl. f_equal. lia.
  - rewrite Nat.iter_succ_r, scan_advance_down by lia.
    rewrite IH by lia. f_equal. lia.
Qed.

Lemma iter_one {A} (f : A → A) (x : A) : Nat.iter 1 f x = f x.
Proof. reflexivity. Qed.

(** From a cursor on the disk, the sweep comes to every block of the disk. *)
Lemma scan_reaches nblocks cur b :
  cursor_in_range nblocks cur → (0 ≤ b ≤ nblocks - 1)%Z →
  ∃ n, (Nat.iter n (scan_advance nblocks) cur).1 = b.
Proof.
  destruct cur as [nb nd]. intros [Hnb [Hd|Hd]] Hb; simpl in *; subst nd.
  - destruct (decide (nb ≤ b)%Z).
    + exists (Z.to_nat (b - nb)). rewrite scan_climb by lia. simpl. lia.
    + exists (Z.to_nat (nblocks - 1 - b) + (1 + Z.to_nat (nblocks - 1 - nb))).
      rewrite Nat.iter_add, Nat.iter_add, scan_climb by lia.
      replace (nb + Z.of_nat (Z.to_nat (nblocks - 1 - nb)))%Z with (nblocks - 1)%Z by lia.
      rewrite iter_one, scan_advance_top by lia.
      rewrite scan_descend by lia. simpl. lia.
  - destruct (decide (b ≤ nb)%Z).
    + exists (Z.to_nat (nb - b)). rewrite scan_descend by lia. simpl. lia.
    + exists (Z.to_nat b + (1 + Z.to_nat nb)).
      rewrite Nat.iter_add, Nat.iter_add, scan_descend by lia.
      replace (nb - Z.of_nat (Z.to_nat nb))%Z with 0%Z by lia.
      rewrite iter_one, scan_advance_bottom by lia.
      rewrite scan_climb by lia. simpl. lia.
Qed.

Lemma scan_test_false cur b : scan_test cur b = false ↔ b = cur.1.
Proof.
  unfold scan_test. rewrite bool_decide_eq_false. split.
  - apply dec_stable.
  - intros -> H. done.
Qed.

(** What a SCAN selection returns: a node of the queue whose block is the
    new [nextblock], and a cursor some moves of the sweep away. *)
Lemma select_scan_returns fuel w sch l c nb nd :
  is_queue (nodes w) (head sch) (tail sch) l →
  mode sch = DISK_SCHEDULER_MODE_SCAN →
  select fuel w sch = Done (c, nb, nd) →
  ∃ k r n, l !! k = Some (c, r) ∧ block1 r = nb ∧
    (nb, nd) = Nat.iter n (scan_advance (disk_scheduler_nblocks sch)) (nextblock w, nextdir w).
Proof.
  intros Hq Hm Hsel.
  destruct (head sch) as [hd|] eqn:Ehd; [|by unfold select in Hsel; rewrite Ehd in Hsel].
  rewrite (select_scan _ _ _ _ Ehd Hm) in Hsel.
  destruct (run_loop _ _ _) as [[c' [nb' nd']]| |] eqn:E; simpl in Hsel; try done.
  simplify_eq.
  destruct (walk_returns _ _ _ _ _ _ Hq _ _ _ _ E) as (k & r & Hk & Ht).
  destruct (walk_returns_round _ _ _ _ _ _ _ _ E) as (n & Hn).
  apply scan_test_false in Ht. simpl in Ht. eauto 10.
Qed.

(** SCAN selection ends when the cursor is on the disk and some pending
    request is for a block of the disk. *)
Lemma select_scan_terminates w sch l x :
  is_queue (nodes w) (head sch) (tail sch) l →
  mode sch = DISK_SCHEDULER_MODE_SCAN →
  cursor_in_range (disk_scheduler_nblocks sch) (nextblock w, nextdir w) →
  x ∈ l → (0 ≤ block1 x.2 ≤ disk_scheduler_nblocks sch - 1)%Z →
  ∃ fuel res, select fuel w sch = Done res.
Proof.
  intros Hq Hm Hcur Hx Hb.
  assert (l ≠ []) as Hne by (intros ->; by apply elem_of_nil in Hx).
  destruct (is_queue_head_nonempty _ _ _ _ Hq Hne) as (hd & r & Ehd & _).
  rewrite Ehd in Hq.
  destruct (scan_reaches _ _ _ Hcur Hb) as [n Hn].
  destruct (walk_terminates scan_test (scan_advance (disk_scheduler_nblocks sch))
              _ _ _ _ Hq n (nextblock w, nextdir w)) as (fuel & c & [nb nd] & Hrun).
  { destruct (misses _ _ _) eqn:E; [|done].
    rewrite misses_spec in E. specialize (E x Hx).
    assert (scan_test (Nat.iter n (scan_advance (disk_scheduler_nblocks sch))
                         (nextblock w, nextdir w)) (block1 x.2) = false)
      by (by apply scan_test_false).
    congruence. }
  exists fuel. rewrite (select_scan _ _ _ _ Ehd Hm), Hrun. simpl. eauto.
Qed.

(** ** Turns of the servicing loop *)

Lemma is_queue_free h hd tl l c :
  is_queue h hd tl l → c ∉ l.*1 → is_queue (delete c h) hd tl l.
Proof.
  intros (Hnd & Hhd & Htl & Hnodes) Hc. split_and!; try done.
  intros i c' r Hi. rewrite lookup_delete_ne; [by apply Hnodes|].
  intros ->. apply Hc. apply list_elem_of_lookup. exists i.
  by rewrite list_lookup_fmap, Hi.
Qed.

Lemma not_in_delete (l : list (loc * request)) i c r :
  NoDup l.*1 → l !! i = Some (c, r) → c ∉ (delete i l).*1.
Proof.
  intros Hnd Hi Hin. apply list_elem_of_lookup in Hin as [j Hj].
  rewrite list_fmap_delete in Hj.
  assert (l.*1 !! i = Some c) as Hci by (by rewrite list_lookup_fmap, Hi).
  destruct (decide (j < i)).
  - rewrite list_lookup_delete_lt in Hj by done.
    pose proof (NoDup_lookup _ _ _ _ Hnd Hj Hci). lia.
  - rewrite list_lookup_delete_ge in Hj by lia.
    pose proof (NoDup_lookup _ _ _ _ Hnd Hj Hci). lia.
Qed.

(** A turn whose selection returns the node at position [i] services that
    request and leaves the queue without it. *)
Lemma run_turn_Done fuel w s sch l c nb nd i r :
  scheds w !! s = Some sch →
  is_queue (nodes w) (head sch) (tail sch) l →
  select fuel w sch = Done (c, nb, nd) →
  l !! i = Some (c, r) →
  ∃ w' sch',
    run_turn fuel s w = Done (w', r) ∧
    scheds w' = <[s := sch']> (scheds w) ∧
    mode sch' = mode sch ∧ sdisk sch' = sdisk sch ∧
    is_queue (nodes w') (head sch') (tail sch') (delete i l) ∧
    nextblock w' = nb ∧ nextdir w' = nd ∧
    (∀ c', c' ∉ l.*1 → nodes w' !! c' = nodes w !! c').
Proof.
  intros Hs Hq Hsel Hi.
  destruct (select_and_remove_Done _ _ _ _ _ _ _ _ _ _ Hs Hq Hsel Hi)
    as (w1 & sch' & Hrun & Hsch & Hm & Hd & Hq' & Hnb & Hnd & Hval & Hframe).
  exists (free_node c w1), sch'.
  unfold run_turn. rewrite Hrun. simpl.
  destruct (nodes w1 !! c) as [n|] eqn:En; simpl in *; [|done]. simplify_eq.
  split_and!; try done.
  - apply is_queue_free; [done|]. eapply not_in_delete; [|done]. by destruct Hq.
  - intros c' Hc'. rewrite lookup_delete_ne; [by apply Hframe|].
    intros ->. apply Hc'. apply list_elem_of_lookup. exists i.
    by rewrite list_lookup_fmap, Hi.
Qed.

(** Conversely, a turn that returns has serviced a request of the queue. *)
Lemma run_turn_inv fuel w s sch l w' r :
  scheds w !! s = Some sch →
  is_queue (nodes w) (head sch) (tail sch) l →
  run_turn fuel s w = Done (w', r) →
  ∃ c nb nd i, select fuel w sch = Done (c, nb, nd) ∧ l !! i = Some (c, r).
Proof.
  intros Hs Hq Hrun. unfold run_turn, select_and_remove in Hrun.
  rewrite Hs in Hrun. simpl in Hrun.
  destruct (select fuel w sch) as [[[c nb] nd]| |] eqn:Hsel; simpl in Hrun; try done.
  destruct (select_in_queue _ _ _ _ _ _ _ Hq Hsel) as (i & r0 & Hi).
  destruct (run_turn_Done _ _ _ _ _ _ _ _ _ _ Hs Hq Hsel Hi) as (w1 & sch' & Hrun' & _).
  unfold run_turn, select_and_remove in Hrun'. rewrite Hs in Hrun'. simpl in Hrun'.
  rewrite Hsel in Hrun'. simpl in Hrun'. rewrite Hrun' in Hrun. simplify_eq.
  eauto 10.
Qed.

Lemma enqueue_all_spec s xs :
  ∀ w sch l,
    scheds w !! s = Some sch →
    is_queue (nodes w) (head sch) (tail sch) l →
    NoDup xs.*1 →
    (∀ c, c ∈ xs.*1 → nodes w !! c = None) →
    ∃ w' sch',
      enqueue_all s xs w = Some w' ∧
      scheds w' = <[s := sch']> (scheds w) ∧
      mode sch' = mode sch ∧ sdisk sch' = sdisk sch ∧
      is_queue (nodes w') (head sch') (tail sch') (l ++ xs) ∧
      nextblock w' = nextblock w ∧ nextdir w' = nextdir w.
Proof.
  induction xs as [|[c r] xs IH]; intros w sch l Hs Hq Hnd Hfresh.
  - exists w, sch. rewrite app_nil_r. split_and!; try done.
    by rewrite insert_id.
  - simpl in Hnd. apply NoDup_cons in Hnd as [Hc Hnd].
    destruct (enqueue_spec w s sch l r c Hs Hq) as
      (w1 & sch1 & He & Hs1 & Hm1 & Hd1 & Hq1 & Hb1 & Hdir1 & Hframe).
    { apply Hfresh. simpl. by left. }
    destruct (IH w1 sch1 (l ++ [(c, r)])) as (w2 & sch2 & He2 & Hs2 & Hm2 & Hd2 & Hq2 & Hb2 & Hdir2).
    + by rewrite Hs1, lookup_insert_eq.
    + done.
    + done.
    + intros c' Hc'. rewrite Hframe.
      * apply Hfresh. simpl. by right.
      * intros ->. done.
      * apply (is_queue_fresh _ _ _ _ _ Hq). apply Hfresh. simpl. by right.
    + exists w2, sch2. simpl. rewrite He. simpl. rewrite He2.
      rewrite <- app_assoc in Hq2. simpl in Hq2.
      split_and!; try done; try congruence.
      by rewrite Hs2, Hs1, insert_insert_eq.
Qed.

(** In FIFO mode, [n] turns service the first [n] requests of the queue in
    queue order, whatever the fuel: the choice has no loop. *)
Lemma run_turns_fifo fuel s :
  ∀ l w sch,
    scheds w !! s = Some sch →
    mode sch = DISK_SCHEDULER_MODE_FIFO →
    is_queue (nodes w) (head sch) (tail sch) l →
    ∃ w' sch',
      run_turns fuel (length l) s w = Done (w', l.*2) ∧
      scheds w' !! s = Some sch' ∧
      is_queue (nodes w') (head sch') (tail sch') [] ∧
      nextblock w' = nextblock w ∧ nextdir w' = nextdir w.
Proof.
  induction l as [|[c r] l IH]; intros w sch Hs Hm Hq.
  - exists w, sch. done.
  - assert (Hsel : select fuel w sch = Done (c, nextblock w, nextdir w)).
    { by eapply select_fifo. }
    destruct (run_turn_Done _ _ _ _ _ _ _ _ 0 r Hs Hq Hsel eq_refl)
      as (w1 & sch1 & Hrun & Hs1 & Hm1 & Hd1 & Hq1 & Hb1 & Hdir1 & _).
    simpl in Hq1.
    destruct (IH w1 sch1) as (w2 & sch2 & Hrun2 & Hs2 & Hq2 & Hb2 & Hdir2).
    + by rewrite Hs1, lookup_insert_eq.
    + congruence.
    + done.
    + exists w2, sch2. simpl. rewrite Hrun. simpl. rewrite Hrun2. simpl.
      split_and!; try done; congruence.
Qed.

(** * The claims *)

(** ** FIFO *)

(** C6: in FIFO mode selection returns the head of the queue, and since
    enqueue appends at the tail, requests are serviced in arrival order:
    whatever is pending ([l]) and whatever is then enqueued ([xs]) while the
    servicing loop is paused, the next turns service [l ++ xs] in that
    order.  With an empty queue and requests for blocks 5, 2, 8 enqueued in
    that order the service order is 5, 2, 8. *)
Theorem fifo_arrival_order w s sch l :
  scheds w !! s = Some sch →
  mode sch = DISK_SCHEDULER_MODE_FIFO →
  is_queue (nodes w) (head sch) (tail sch) l →
  (∀ fuel c r, l !! 0 = Some (c, r) →
     select fuel w sch = Done (c, nextblock w, nextdir w)) ∧
  (∀ xs, NoDup xs.*1 → (∀ c, c ∈ xs.*1 → nodes w !! c = None) →
     ∃ w1, enqueue_all s xs w = Some w1 ∧
       ∀ fuel, ∃ w2,
         run_turns fuel (length (l ++ xs)) s w1 = Done (w2, (l ++ xs).*2)).
Proof.
  intros Hs Hm Hq. split.
  - intros fuel c r H0. by eapply select_fifo.
  - intros xs Hnd Hfresh.
    destruct (enqueue_all_spec s xs w sch l Hs Hq Hnd Hfresh)
      as (w1 & sch1 & He & Hs1 & Hm1 & Hd1 & Hq1 & _).
    exists w1. split; [done|]. intros fuel.
    destruct (run_turns_fifo fuel s (l ++ xs) w1 sch1) as (w2 & sch2 & Hrun & _).
    + by rewrite Hs1, lookup_insert_eq.
    + congruence.
    + done.
    + by exists w2.
Qed.

Lemma fifo_arrival_order_witness :
  ∃ w1,
    enqueue_all 0 [(10, write_request 5 100); (11, read_request 2 101);
                   (12, write_request 8 102)]
      (fresh_scheduler DISK_SCHEDULER_MODE_FIFO 16) = Some w1 ∧
    ∀ fuel, ∃ w2,
      run_turns fuel 3 0 w1
      = Done (w2, [write_request 5 100; read_request 2 101; write_request 8 102]).
Proof.
  refine ((proj2 (fifo_arrival_order (fresh_scheduler DISK_SCHEDULER_MODE_FIFO 16) 0
            {| sdisk := Disk 16; mode := DISK_SCHEDULER_MODE_FIFO;
               head := None; tail := None |} [] _ _ _))
          [(10, write_request 5 100); (11, read_request 2 101);
           (12, write_request 8 102)] _ _).
  - vm_compute. reflexivity.
  - reflexivity.
  - apply is_queue_nil.
  - apply (bool_decide_unpack (NoDup [10; 11; 12])). vm_compute. exact I.
  - intros c Hc. vm_compute. reflexivity.
Defined.

(** ** SSTF *)

Lemma run_turn_mono fuel fuel' s w x :
  run_turn fuel s w = Done x → fuel ≤ fuel' → run_turn fuel' s w = Done x.
Proof.
  unfold run_turn.
  destruct (select_and_remove fuel s w) as [y| |] eqn:E; simpl; try done.
  intros H Hle. by rewrite (select_and_remove_mono _ _ _ _ _ E Hle).
Qed.

(** Every non-empty queue has a first request among the nearest ones. *)
Lemma first_nearest (f : loc * request → Z) (l : list (loc * request)) :
  l ≠ [] →
  ∃ i x, l !! i = Some x ∧
    (∀ j y, l !! j = Some y → j < i → (f x < f y)%Z) ∧
    (∀ y, y ∈ l → (f x ≤ f y)%Z).
Proof.
  induction l as [|a l IH]; [done|]. intros _.
  destruct (decide (l = [])) as [->|Hne].
  { exists 0, a. split_and!; [done|intros; lia|].
    intros y ->%list_elem_of_singleton. lia. }
  destruct (IH Hne) as (i & x & Hi & Hfirst & Hleast).
  destruct (decide (f a ≤ f x)%Z).
  - exists 0, a. split_and!; [done|intros; lia|].
    intros y [->|Hy]%elem_of_cons; [lia|]. specialize (Hleast y Hy). lia.
  - exists (S i), x. split_and!; [done| |].
    + intros [|j] y Hj Hlt; simpl in Hj; simplify_eq; [lia|].
      apply (Hfirst j); [done|lia].
    + intros y [->|Hy]%elem_of_cons; [lia|]. by apply Hleast.
Qed.

(** What an SSTF selection returns, whenever it returns: the first request,
    in queue order, among those at the least distance from the cursor; the
    new [nextblock] is its block and [nextdir] is left at that distance. *)
Lemma select_sstf_spec fuel w sch l c nb nd :
  is_queue (nodes w) (head sch) (tail sch) l →
  mode sch = DISK_SCHEDULER_MODE_SSTF →
  select fuel w sch = Done (c, nb, nd) →
  ∃ i r, l !! i = Some (c, r) ∧ nb = block1 r ∧
    nd = dist (nextblock w) (block1 r) ∧
    (nd = 0 ∨ nd ≤ disk_scheduler_nblocks sch - 2)%Z ∧
    (∀ j y, l !! j = Some y → j < i → (nd < dist (nextblock w) (block1 y.2))%Z) ∧
    (∀ y, y ∈ l → (nd ≤ dist (nextblock w) (block1 y.2))%Z).
Proof.
  intros Hq Hm Hsel.
  assert (l ≠ []) as Hne.
  { intros ->. destruct Hq as (_ & Hhd & _). unfold select in Hsel.
    by rewrite Hhd in Hsel. }
  destruct (first_nearest (λ x, dist (nextblock w) (block1 x.2)) l Hne)
    as (i & [c0 r0] & Hi & Hfirst & Hleast). simpl in *.
  set (d := dist (nextblock w) (block1 r0)) in *.
  destruct (decide (d = 0 ∨ d ≤ disk_scheduler_nblocks sch - 2)%Z) as [Hreach|Hfar].
  - pose proof (select_sstf_total w sch l i c0 r0 Hq Hm Hi Hreach Hfirst Hleast) as Htot.
    fold d in Htot.
    pose proof (select_mono _ (fuel `max` (Z.to_nat d * length l + S i)) _ _ _ Hsel
                  ltac:(lia)) as H1.
    pose proof (select_mono _ (fuel `max` (Z.to_nat d * length l + S i)) _ _ _ Htot
                  ltac:(lia)) as H2.
    rewrite H1 in H2. simplify_eq. exists i, r0. split_and!; done.
  - rewrite (select_sstf_diverges w sch l Hq Hm Hne) in Hsel; [done|].
    intros y Hy. specialize (Hleast y Hy). unfold dist in *. lia.
Qed.

(** Total correctness of an SSTF turn. *)
Lemma run_turn_sstf w s sch l i c r :
  scheds w !! s = Some sch →
  is_queue (nodes w) (head sch) (tail sch) l →
  mode sch = DISK_SCHEDULER_MODE_SSTF →
  l !! i = Some (c, r) →
  let d := dist (nextblock w) (block1 r) in
  (d = 0 ∨ d ≤ disk_scheduler_nblocks sch - 2)%Z →
  (∀ j y, l !! j = Some y → j < i → (d < dist (nextblock w) (block1 y.2))%Z) →
  (∀ y, y ∈ l → (d ≤ dist (nextblock w) (block1 y.2))%Z) →
  ∀ fuel, Z.to_nat d * length l + S i ≤ fuel →
  ∃ w' sch',
    run_turn fuel s w = Done (w', r) ∧
    scheds w' = <[s := sch']> (scheds w) ∧
    mode sch' = mode sch ∧ sdisk sch' = sdisk sch ∧
    is_queue (nodes w') (head sch') (tail sch') (delete i l) ∧
    nextblock w' = block1 r ∧ nextdir w' = d ∧
    (∀ c', c' ∉ l.*1 → nodes w' !! c' = nodes w !! c').
Proof.
  intros Hs Hq Hm Hi d Hreach Hfirst Hleast fuel Hfuel.
  pose proof (select_sstf_total w sch l i c r Hq Hm Hi Hreach Hfirst Hleast) as Hsel.
  apply (select_mono _ fuel) in Hsel; [|done].
  by eapply run_turn_Done.
Qed.

Lemma blocks_pick l b bs :
  blocks l ≡ₚ b :: bs →
  ∃ i c r, l !! i = Some (c, r) ∧ block1 r = b ∧ blocks (delete i l) ≡ₚ bs.
Proof.
  intros Hp.
  assert (b ∈ blocks l) as Hb by (rewrite Hp; by left).
  apply list_elem_of_lookup in Hb as [i Hi].
  unfold blocks in Hi. rewrite list_lookup_fmap in Hi.
  destruct (l !! i) as [[c r]|] eqn:E; simplify_eq/=.
  exists i, c, r. split_and!; [done..|].
  apply (delete_Permutation _ _ _) in E.
  unfold blocks in *. rewrite E in Hp. simpl in Hp.
  by apply Permutation_cons_inv in Hp.
Qed.

Lemma elem_of_delete_other (l : list (loc * request)) i j y :
  l !! j = Some y → j ≠ i → y ∈ delete i l.
Proof.
  intros Hj Hne. apply list_elem_of_lookup.
  destruct (decide (j < i)).
  - exists j. by rewrite list_lookup_delete_lt.
  - exists (pred j). rewrite list_lookup_delete_ge by lia.
    by replace (S (pred j)) with j by lia.
Qed.

Lemma elem_of_blocks l y : y ∈ l → block1 y.2 ∈ blocks l.
Proof. intros Hy. unfold blocks. by apply (list_elem_of_fmap_2 (λ x, block1 x.2)). Qed.

(** An SSTF turn when one pending request is strictly nearer than all the
    others. *)
Lemma run_turn_sstf_nearest w s sch l i c r :
  scheds w !! s = Some sch →
  is_queue (nodes w) (head sch) (tail sch) l →
  mode sch = DISK_SCHEDULER_MODE_SSTF →
  l !! i = Some (c, r) →
  let d := dist (nextblock w) (block1 r) in
  (d = 0 ∨ d ≤ disk_scheduler_nblocks sch - 2)%Z →
  (∀ y, y ∈ delete i l → (d < dist (nextblock w) (block1 y.2))%Z) →
  ∀ fuel, Z.to_nat d * length l + length l ≤ fuel →
  ∃ w' sch',
    run_turn fuel s w = Done (w', r) ∧
    scheds w' !! s = Some sch' ∧
    mode sch' = mode sch ∧ sdisk sch' = sdisk sch ∧
    is_queue (nodes w') (head sch') (tail sch') (delete i l) ∧
    nextblock w' = block1 r.
Proof.
  intros Hs Hq Hm Hi d Hreach Hnear fuel Hfuel.
  pose proof (lookup_lt_Some _ _ _ Hi) as Hlt.
  destruct (run_turn_sstf w s sch l i c r Hs Hq Hm Hi Hreach) with (fuel := fuel)
    as (w' & sch' & Hrun & Hs' & Hm' & Hd' & Hq' & Hnb & _).
  - intros j y Hj Hji. apply Hnear. eapply elem_of_delete_other; [done|lia].
  - intros y [j Hj]%list_elem_of_lookup.
    destruct (decide (j = i)) as [->|Hne].
    + rewrite Hi in Hj. simplify_eq. done.
    + apply Z.lt_le_incl, Hnear. by eapply elem_of_delete_other.
  - lia.
  - exists w', sch'. rewrite Hs', lookup_insert_eq. done.
Qed.

(** C1: in SSTF mode the search goes outward from the cursor, radius by
    radius, up to radius [nblocks - 2].  When the nearest pending request
    is within that radius (or on the cursor), the turn returns: it services
    the first request in the queue among those at the least distance and
    leaves the cursor on its block.  When every pending request is farther,
    as a request for block [nblocks - 1] is from block 0, the turn never
    returns and nothing is selected.  Whenever a turn returns, what it
    services is at the least distance.  With the cursor at block 10 and
    exactly the requests for blocks 3, 12 and 9 pending (in any queue
    order), three turns service 9, then 12, then 3, and after each the
    cursor is the block just serviced. *)
Theorem sstf_nearest_first w s sch l :
  scheds w !! s = Some sch →
  mode sch = DISK_SCHEDULER_MODE_SSTF →
  is_queue (nodes w) (head sch) (tail sch) l →
  (∀ i c r, l !! i = Some (c, r) →
     (∀ j y, l !! j = Some y → j < i →
        (dist (nextblock w) (block1 r) < dist (nextblock w) (block1 y.2))%Z) →
     (∀ y, y ∈ l →
        (dist (nextblock w) (block1 r) ≤ dist (nextblock w) (block1 y.2))%Z) →
     (dist (nextblock w) (block1 r) = 0 ∨
      dist (nextblock w) (block1 r) ≤ disk_scheduler_nblocks sch - 2)%Z →
     ∀ fuel, Z.to_nat (dist (nextblock w) (block1 r)) * length l + S i ≤ fuel →
     ∃ w1 sch1,
       run_turn fuel s w = Done (w1, r) ∧ nextblock w1 = block1 r ∧
       scheds w1 !! s = Some sch1 ∧
       is_queue (nodes w1) (head sch1) (tail sch1) (delete i l)) ∧
  (l ≠ [] →
   (∀ y, y ∈ l →
      (0 < dist (nextblock w) (block1 y.2))%Z ∧
      (disk_scheduler_nblocks sch - 2 < dist (nextblock w) (block1 y.2))%Z) →
   ∀ fuel, run_turn fuel s w = Timeout) ∧
  (∀ fuel w1 r, run_turn fuel s w = Done (w1, r) →
     r ∈ l.*2 ∧ nextblock w1 = block1 r ∧
     ∀ y, y ∈ l → (dist (nextblock w) (block1 r) ≤ dist (nextblock w) (block1 y.2))%Z) ∧
  (nextblock w = 10%Z → blocks l ≡ₚ [3; 12; 9]%Z →
   (12 < disk_scheduler_nblocks sch)%Z →
   ∀ fuel, 10 ≤ fuel →
   ∃ w1 w2 w3 r1 r2 r3,
     run_turn fuel s w = Done (w1, r1) ∧ block1 r1 = 9%Z ∧ nextblock w1 = 9%Z ∧
     run_turn fuel s w1 = Done (w2, r2) ∧ block1 r2 = 12%Z ∧ nextblock w2 = 12%Z ∧
     run_turn fuel s w2 = Done (w3, r3) ∧ block1 r3 = 3%Z ∧ nextblock w3 = 3%Z).
Proof.
  intros Hs Hm Hq. split; [|split; [|split]].
  - intros i c r Hi Hfirst Hleast Hreach fuel Hfuel.
    destruct (run_turn_sstf w s sch l i c r Hs Hq Hm Hi Hreach Hfirst Hleast fuel Hfuel)
      as (w1 & sch1 & Hrun & Hs1 & _ & _ & Hq1 & Hnb & _).
    exists w1, sch1. rewrite Hs1, lookup_insert_eq. done.
  - intros Hne Hfar fuel.
    unfold run_turn, select_and_remove. rewrite Hs. simpl.
    by rewrite (select_sstf_diverges w sch l Hq Hm Hne Hfar).
  - intros fuel w1 r Hrun.
    destruct (run_turn_inv _ _ _ _ _ _ _ Hs Hq Hrun) as (c & nb & nd & i & Hsel & Hi).
    destruct (select_sstf_spec _ _ _ _ _ _ _ Hq Hm Hsel)
      as (i' & r' & Hi' & -> & -> & _ & _ & Hleast).
    assert (i' = i) as ->.
    { apply (is_queue_addr_inj _ _ _ _ Hq _ _ c); by eapply addr_at_lookup. }
    rewrite Hi in Hi'. simplify_eq.
    destruct (run_turn_Done _ _ _ _ _ _ _ _ _ _ Hs Hq Hsel Hi)
      as (w' & sch' & Hrun' & _ & _ & _ & _ & Hnb & _).
    rewrite Hrun in Hrun'. simplify_eq. split_and!; [|done..].
    apply list_elem_of_lookup. exists i. by rewrite list_lookup_fmap, Hi.
  - intros Hcur Hp HN fuel Hfuel.
    assert (Hlen : length l = 3).
    { apply Permutation_length in Hp. unfold blocks in Hp.
      by rewrite length_fmap in Hp. }
    (* first turn: block 9 *)
    assert (Hp1 : blocks l ≡ₚ [9; 3; 12]%Z).
    { rewrite Hp. symmetry. apply (Permutation_cons_append [3; 12]%Z 9%Z). }
    destruct (blocks_pick _ _ _ Hp1) as (i1 & c1 & r1 & Hi1 & Hb1 & Hrest1).
    destruct (run_turn_sstf_nearest w s sch l i1 c1 r1 Hs Hq Hm Hi1) with (fuel := fuel)
      as (w1 & sch1 & Hrun1 & Hs1 & Hm1 & Hd1 & Hq1 & Hnb1).
    { rewrite Hcur, Hb1. unfold dist. lia. }
    { intros y Hy%elem_of_blocks. rewrite Hrest1 in Hy. rewrite Hcur, Hb1.
      unfold dist. set_unfold. lia. }
    { rewrite Hcur, Hb1, Hlen. unfold dist. simpl. lia. }
    (* second turn: block 12 *)
    assert (Hlen1 : length (delete i1 l) = 2).
    { apply Permutation_length in Hrest1. unfold blocks in Hrest1.
      by rewrite length_fmap in Hrest1. }
    assert (Hp2 : blocks (delete i1 l) ≡ₚ [12; 3]%Z) by (rewrite Hrest1; apply Permutation_swap).
    destruct (blocks_pick _ _ _ Hp2) as (i2 & c2 & r2 & Hi2 & Hb2 & Hrest2).
    assert (HN1 : disk_scheduler_nblocks sch1 = disk_scheduler_nblocks sch)
      by (unfold disk_scheduler_nblocks; by rewrite Hd1).
    destruct (run_turn_sstf_nearest w1 s sch1 _ i2 c2 r2 Hs1 Hq1 ltac:(congruence) Hi2)
      with (fuel := fuel)
      as (w2 & sch2 & Hrun2 & Hs2 & Hm2 & Hd2 & Hq2 & Hnb2).
    { rewrite Hnb1, Hb1, Hb2, HN1. unfold dist. lia. }
    { intros y Hy%elem_of_blocks. rewrite Hrest2 in Hy. rewrite Hnb1, Hb1, Hb2.
      unfold dist. set_unfold. lia. }
    { rewrite Hnb1, Hb1, Hb2, Hlen1. unfold dist. simpl. lia. }
    (* third turn: block 3 *)
    assert (Hlen2 : length (delete i2 (delete i1 l)) = 1).
    { apply Permutation_length in Hrest2. unfold blocks in Hrest2.
      by rewrite length_fmap in Hrest2. }
    destruct (blocks_pick _ _ _ Hrest2) as (i3 & c3 & r3 & Hi3 & Hb3 & Hrest3).
    assert (HN2 : disk_scheduler_nblocks sch2 = disk_scheduler_nblocks sch)
      by (unfold disk_scheduler_nblocks; by rewrite Hd2, Hd1).
    destruct (run_turn_sstf_nearest w2 s sch2 _ i3 c3 r3 Hs2 Hq2 ltac:(congruence) Hi3)
      with (fuel := fuel)
      as (w3 & sch3 & Hrun3 & Hs3 & Hm3 & Hd3 & Hq3 & Hnb3).
    { rewrite Hnb2, Hb2, Hb3, HN2. unfold dist. lia. }
    { intros y Hy%elem_of_blocks. rewrite Hrest3 in Hy. by apply elem_of_nil in Hy. }
    { rewrite Hnb2, Hb2, Hb3, Hlen2. unfold dist. simpl. lia. }
    exists w1, w2, w3, r1, r2, r3. split_and!; congruence.
Qed.

(** The queue of a concrete world, by evaluation. *)
Ltac solve_is_queue :=
  split_and!;
  [ match goal with |- ?P => apply (bool_decide_unpack P) end; vm_compute; exact I
  | reflexivity
  | reflexivity
  | let i := fresh "i" in
    let Hi := fresh "Hi" in
    intros i ? ? Hi;
    repeat (destruct i as [|i]; [injection Hi as <- <-; vm_compute; reflexivity|]);
    discriminate Hi ].

Lemma sstf_nearest_first_witness :
  (∃ w1 w2 w3 r1 r2 r3,
     let w := pending_world DISK_SCHEDULER_MODE_SSTF 16 (10%Z, 1%Z)
                (requests_at 10 [3; 12; 9]%Z) in
     run_turn 10 0 w = Done (w1, r1) ∧ block1 r1 = 9%Z ∧ nextblock w1 = 9%Z ∧
     run_turn 10 0 w1 = Done (w2, r2) ∧ block1 r2 = 12%Z ∧ nextblock w2 = 12%Z ∧
     run_turn 10 0 w2 = Done (w3, r3) ∧ block1 r3 = 3%Z ∧ nextblock w3 = 3%Z) ∧
  run_turn 1000 0
    (pending_world DISK_SCHEDULER_MODE_SSTF 16 (0%Z, 1%Z) (requests_at 10 [15%Z]))
  = Timeout.
Proof.
  split.
  - refine (proj2 (proj2 (proj2 (sstf_nearest_first
              (pending_world DISK_SCHEDULER_MODE_SSTF 16 (10%Z, 1%Z)
                 (requests_at 10 [3; 12; 9]%Z)) 0
              {| sdisk := Disk 16; mode := DISK_SCHEDULER_MODE_SSTF;
                 head := Some 10; tail := Some 12 |}
              (requests_at 10 [3; 12; 9]%Z) _ _ _))) _ _ _ 10 _).
    + vm_compute. reflexivity.
    + reflexivity.
    + solve_is_queue.
    + reflexivity.
    + reflexivity.
    + vm_compute. reflexivity.
    + lia.
  - refine (proj1 (proj2 (sstf_nearest_first
              (pending_world DISK_SCHEDULER_MODE_SSTF 16 (0%Z, 1%Z)
                 (requests_at 10 [15%Z])) 0
              {| sdisk := Disk 16; mode := DISK_SCHEDULER_MODE_SSTF;
                 head := Some 10; tail := Some 10 |}
              (requests_at 10 [15%Z]) _ _ _)) _ _ 1000).
    + vm_compute. reflexivity.
    + reflexivity.
    + solve_is_queue.
    + discriminate.
    + intros y Hy. simpl in Hy. apply list_elem_of_singleton in Hy as ->.
      vm_compute. split; reflexivity.
Defined.

(** C3, as stated, fails: with the cursor at block 10 and the requests for
    blocks 9 and 11 enqueued in that order, the turn services block 9, the
    request on the minus side. *)
Lemma sstf_prefers_plus_side_fails : ¬ sstf_prefers_plus_side.
Proof.
  intros H.
  pose (w := pending_world DISK_SCHEDULER_MODE_SSTF 16 (10%Z, 1%Z)
               (requests_at 10 [9; 11]%Z)).
  destruct (run_turn 10 0 w) as [[w1 r]| |] eqn:Hrun; [|by vm_compute in Hrun..].
  assert (block1 r = 9%Z) as Hr by (vm_compute in Hrun; by simplify_eq).
  specialize (H w 0
    {| sdisk := Disk 16; mode := DISK_SCHEDULER_MODE_SSTF;
       head := Some 10; tail := Some 11 |}
    (requests_at 10 [9; 11]%Z) 1 0 11 (write_request 11 100) 10 (write_request 9 100)
    1%Z 10 w1 r).
  rewrite Hr in H. cut (9 = 10 + 1)%Z; [lia|]. apply H; try done.
  - solve_is_queue.
  - intros y Hy. simpl in Hy.
    apply elem_of_cons in Hy as [->|Hy]; [vm_compute; discriminate|].
    apply list_elem_of_singleton in Hy as ->. vm_compute; discriminate.
Qed.

(** C3 (amended): when the two nearest pending requests sit at the same
    radius on opposite sides of the cursor, the one that is nearer the head
    of the queue (enqueued earlier) is serviced, whichever side it is on. *)
Theorem sstf_tie_queue_order w s sch l i j ci ri cj rj rad :
  scheds w !! s = Some sch →
  mode sch = DISK_SCHEDULER_MODE_SSTF →
  is_queue (nodes w) (head sch) (tail sch) l →
  l !! i = Some (ci, ri) → l !! j = Some (cj, rj) →
  i < j →
  (0 < rad ≤ disk_scheduler_nblocks sch - 2)%Z →
  (block1 ri = nextblock w + rad ∧ block1 rj = nextblock w - rad ∨
   block1 ri = nextblock w - rad ∧ block1 rj = nextblock w + rad)%Z →
  (∀ k y, l !! k = Some y → k ≠ i → k ≠ j →
     (rad < dist (nextblock w) (block1 y.2))%Z) →
  ∀ fuel, Z.to_nat (rad + 1) * length l ≤ fuel →
  ∃ w1, run_turn fuel s w = Done (w1, ri) ∧ nextblock w1 = block1 ri.
Proof.
  intros Hs Hm Hq Hi Hj Hij Hrad Hsides Hothers fuel Hfuel.
  assert (Hdi : dist (nextblock w) (block1 ri) = rad) by (unfold dist; lia).
  assert (Hdj : dist (nextblock w) (block1 rj) = rad) by (unfold dist; lia).
  pose proof (lookup_lt_Some _ _ _ Hi) as Hlt.
  destruct (run_turn_sstf w s sch l i ci ri Hs Hq Hm Hi) with (fuel := fuel)
    as (w1 & sch1 & Hrun & _ & _ & _ & _ & Hnb & _).
  - rewrite Hdi. lia.
  - rewrite Hdi. intros k y Hk Hki. apply (Hothers k); [done|lia|lia].
  - rewrite Hdi. intros y [k Hk]%list_elem_of_lookup.
    destruct (decide (k = i)) as [->|]; [rewrite Hi in Hk; simplify_eq; simpl; lia|].
    destruct (decide (k = j)) as [->|]; [rewrite Hj in Hk; simplify_eq; simpl; lia|].
    apply Z.lt_le_incl. by apply (Hothers k).
  - rewrite Hdi. nia.
  - by exists w1.
Qed.

Lemma sstf_tie_queue_order_witness :
  ∃ w1,
    run_turn 4 0 (pending_world DISK_SCHEDULER_MODE_SSTF 16 (10%Z, 1%Z)
                    (requests_at 10 [9; 11]%Z))
    = Done (w1, write_request 9 100) ∧
    nextblock w1 = 9%Z.
Proof.
  refine (sstf_tie_queue_order
            (pending_world DISK_SCHEDULER_MODE_SSTF 16 (10%Z, 1%Z)
               (requests_at 10 [9; 11]%Z)) 0
            {| sdisk := Disk 16; mode := DISK_SCHEDULER_MODE_SSTF;
               head := Some 10; tail := Some 11 |}
            (requests_at 10 [9; 11]%Z) 0 1 10 (write_request 9 100)
            11 (write_request 11 100) 1%Z _ _ _ _ _ _ _ _ _ 4 _).
  - vm_compute. reflexivity.
  - reflexivity.
  - solve_is_queue.
  - reflexivity.
  - reflexivity.
  - lia.
  - unfold disk_scheduler_nblocks. simpl. lia.
  - right. split; reflexivity.
  - intros [|[|k]] y Hk Hi Hj; try done.
  - vm_compute. lia.
Defined.

(** C2: the SSTF search does not reach radius [nblocks - 1].  With the
    cursor at block 0 and one pending request, for the last block of a disk
    of at least two blocks, the selection never returns, whatever the fuel:
    line 242 resets the radius to 0 when it reaches [nblocks - 1], one
    short of the distance of that request. *)
Theorem sstf_last_block_never_found w s sch c r :
  scheds w !! s = Some sch →
  mode sch = DISK_SCHEDULER_MODE_SSTF →
  is_queue (nodes w) (head sch) (tail sch) [(c, r)] →
  (2 ≤ disk_scheduler_nblocks sch)%Z →
  nextblock w = 0%Z →
  block1 r = (disk_scheduler_nblocks sch - 1)%Z →
  ∀ fuel, select_and_remove fuel s w = Timeout ∧ run_turn fuel s w = Timeout.
Proof.
  intros Hs Hm Hq HN Hcur Hb fuel.
  assert (select fuel w sch = Timeout) as Hsel.
  { apply (select_sstf_diverges w sch [(c, r)]); [done..|].
    intros y ->%list_elem_of_singleton. simpl. rewrite Hcur, Hb. unfold dist. lia. }
  assert (select_and_remove fuel s w = Timeout) as Hsr.
  { unfold select_and_remove. rewrite Hs. simpl. by rewrite Hsel. }
  split; [done|]. unfold run_turn. by rewrite Hsr.
Qed.

Lemma sstf_last_block_never_found_witness :
  let w := pending_world DISK_SCHEDULER_MODE_SSTF 16 (0%Z, 1%Z) (requests_at 10 [15%Z]) in
  select_and_remove 1000 0 w = Timeout ∧ run_turn 1000 0 w = Timeout.
Proof.
  refine (sstf_last_block_never_found
            (pending_world DISK_SCHEDULER_MODE_SSTF 16 (0%Z, 1%Z) (requests_at 10 [15%Z])) 0
            {| sdisk := Disk 16; mode := DISK_SCHEDULER_MODE_SSTF;
               head := Some 10; tail := Some 10 |}
            10 (write_request 15 100) _ _ _ _ _ _ 1000).
  - vm_compute. reflexivity.
  - reflexivity.
  - solve_is_queue.
  - unfold disk_scheduler_nblocks. simpl. lia.
  - reflexivity.
  - reflexivity.
Defined.

(** ** SCAN *)

(** Total correctness of a SCAN turn: if the sweep first comes to a pending
    block after [n] moves, the turn services the first request in the queue
    for that block and leaves the cursor there. *)
Lemma run_turn_scan w s sch l n :
  scheds w !! s = Some sch →
  is_queue (nodes w) (head sch) (tail sch) l →
  mode sch = DISK_SCHEDULER_MODE_SCAN →
  let sweep m := Nat.iter m (scan_advance (disk_scheduler_nblocks sch))
                   (nextblock w, nextdir w) in
  (∀ m, m < n → misses scan_test l (sweep m) = true) →
  misses scan_test l (sweep n) = false →
  ∀ fuel, n * length l + length l ≤ fuel →
  ∃ w' sch' k c r,
    run_turn fuel s w = Done (w', r) ∧
    l !! k = Some (c, r) ∧ block1 r = (sweep n).1 ∧
    scheds w' !! s = Some sch' ∧
    mode sch' = mode sch ∧ sdisk sch' = sdisk sch ∧
    is_queue (nodes w') (head sch') (tail sch') (delete k l) ∧
    nextblock w' = (sweep n).1 ∧ nextdir w' = (sweep n).2.
Proof.
  intros Hs Hq Hm sweep Hmiss Hhit fuel Hfuel.
  destruct (first_hit scan_test l (sweep n)) as [[k [c r]]|] eqn:Efh; last first.
  { apply first_hit_None in Efh. congruence. }
  pose proof Efh as (Hk & Htest & _)%list_find_Some. simpl in Htest.
  apply scan_test_false in Htest.
  pose proof (lookup_lt_Some _ _ _ Hk) as Hlt.
  assert (∃ hd, head sch = Some hd) as [hd Ehd].
  { destruct Hq as (_ & -> & _). apply (addr_at_is_Some l 0). lia. }
  assert (Hsel : select fuel w sch = Done (c, (sweep n).1, (sweep n).2)).
  { apply (select_mono (n * length l + S k)); [|lia].
    rewrite (select_scan _ _ _ _ Ehd Hm). rewrite Ehd in Hq.
    erewrite (walk_finds _ _ _ _ _ _ Hq _ n k c r); [|done..].
    simpl. fold (sweep n). by destruct (sweep n). }
  destruct (run_turn_Done _ _ _ _ _ _ _ _ _ _ Hs Hq Hsel Hk)
    as (w' & sch' & Hrun & Hs' & Hm' & Hd' & Hq' & Hnb & Hnd & _).
  exists w', sch', k, c, r. rewrite Hs', lookup_insert_eq. split_and!; done.
Qed.

Lemma misses_scan_false l cur y :
  y ∈ l → block1 y.2 = cur.1 → misses scan_test l cur = false.
Proof.
  intros Hy Hb. destruct (misses scan_test l cur) eqn:E; [|done].
  rewrite misses_spec in E. specialize (E y Hy).
  apply scan_test_false in Hb. congruence.
Qed.

Lemma misses_scan_true l cur :
  cur.1 ∉ blocks l → misses scan_test l cur = true.
Proof.
  intros Hb. apply misses_spec. intros y Hy.
  destruct (scan_test cur (block1 y.2)) eqn:E; [done|].
  apply scan_test_false in E. exfalso. apply Hb. rewrite <- E.
  by apply elem_of_blocks.
Qed.

Lemma blocks_delete l k c r :
  l !! k = Some (c, r) → blocks l ≡ₚ block1 r :: blocks (delete k l).
Proof.
  intros Hk. apply (delete_Permutation _ _ _) in Hk.
  unfold blocks. by rewrite Hk at 1.
Qed.

(** The sweep from the top block, going up: it turns round on the spot and
    comes down one block a move. *)
Lemma scan_from_top nblocks m :
  (1 ≤ nblocks)%Z → (Z.of_nat m ≤ nblocks - 1)%Z →
  Nat.iter (S m) (scan_advance nblocks) ((nblocks - 1)%Z, 1%Z)
  = ((nblocks - 1 - Z.of_nat m)%Z, (-1)%Z).
Proof.
  intros HN Hm. rewrite Nat.iter_succ_r, scan_advance_top by done.
  rewrite scan_descend by lia. done.
Qed.

(** The least number with a decidable property, below one that has it. *)
Lemma least_below (P : nat → Prop) `{∀ n, Decision (P n)} n :
  P n → ∃ k, k ≤ n ∧ P k ∧ ∀ m, m < k → ¬ P m.
Proof.
  assert (Hall : ∀ n, (∃ k, k ≤ n ∧ P k ∧ ∀ m, m < k → ¬ P m) ∨ (∀ m, m ≤ n → ¬ P m)).
  { clear n. induction n as [|n [(k & Hk & HPk & Hmin)|Hnone]].
    - destruct (decide (P 0)) as [H0|H0].
      + left. exists 0. split_and!; [done..|]. intros m Hm. lia.
      + right. intros m Hm. by replace m with 0 by lia.
    - left. exists k. split_and!; [lia|done..].
    - destruct (decide (P (S n))) as [HS|HS].
      + left. exists (S n). split_and!; [done..|]. intros m Hm. apply Hnone. lia.
      + right. intros m Hm. destruct (decide (m = S n)) as [->|]; [done|].
        apply Hnone. lia. }
  intros Hn. destruct (Hall n) as [?|Hnone]; [done|].
  exfalso. by apply (Hnone n).
Qed.

(** Total correctness of a SCAN turn, with the place in the queue of the
    request it services: the first request for the first pending block that
    the sweep comes to. *)
Lemma run_turn_scan_first w s sch l n :
  scheds w !! s = Some sch →
  is_queue (nodes w) (head sch) (tail sch) l →
  mode sch = DISK_SCHEDULER_MODE_SCAN →
  let sweep m := Nat.iter m (scan_advance (disk_scheduler_nblocks sch))
                   (nextblock w, nextdir w) in
  (∀ m, m < n → (sweep m).1 ∉ blocks l) →
  (sweep n).1 ∈ blocks l →
  ∀ fuel, n * length l + length l ≤ fuel →
  ∃ w1 sch1 k c r,
    run_turn fuel s w = Done (w1, r) ∧
    l !! k = Some (c, r) ∧ block1 r = (sweep n).1 ∧
    (∀ j y, l !! j = Some y → j < k → block1 y.2 ≠ (sweep n).1) ∧
    nextblock w1 = (sweep n).1 ∧ nextdir w1 = (sweep n).2 ∧
    scheds w1 !! s = Some sch1 ∧
    is_queue (nodes w1) (head sch1) (tail sch1) (delete k l).
Proof.
  intros Hs Hq Hm sweep Hmiss Hhit fuel Hfuel.
  destruct (first_hit scan_test l (sweep n)) as [[k [c r]]|] eqn:Efh; last first.
  { apply first_hit_None in Efh. rewrite misses_spec in Efh.
    apply list_elem_of_fmap in Hhit as (y & Hyb & Hy).
    specialize (Efh y Hy). symmetry in Hyb. apply scan_test_false in Hyb.
    congruence. }
  pose proof Efh as (Hk & Htest & Hbefore)%list_find_Some. simpl in Htest.
  apply scan_test_false in Htest.
  pose proof (lookup_lt_Some _ _ _ Hk) as Hlt.
  assert (∃ hd, head sch = Some hd) as [hd Ehd].
  { destruct Hq as (_ & -> & _). apply (addr_at_is_Some l 0). lia. }
  assert (Hsel : select fuel w sch = Done (c, (sweep n).1, (sweep n).2)).
  { apply (select_mono (n * length l + S k)); [|lia].
    rewrite (select_scan _ _ _ _ Ehd Hm). rewrite Ehd in Hq.
    erewrite (walk_finds _ _ _ _ _ _ Hq _ n k c r); [|
      intros m Hmn; apply misses_scan_true; by apply Hmiss|done].
    simpl. fold (sweep n). by destruct (sweep n). }
  destruct (run_turn_Done _ _ _ _ _ _ _ _ _ _ Hs Hq Hsel Hk)
    as (w1 & sch1 & Hrun & Hs1 & _ & _ & Hq1 & Hnb & Hnd & _).
  exists w1, sch1, k, c, r. rewrite Hs1, lookup_insert_eq. split_and!; try done.
  intros j y Hj Hjk Hy. apply (Hbefore j y Hj Hjk). by apply scan_test_false.
Qed.

(** Whenever a SCAN turn returns, what it services is on the first pending
    block that the sweep comes to. *)
Lemma run_turn_scan_inv w s sch l fuel w1 r :
  scheds w !! s = Some sch →
  is_queue (nodes w) (head sch) (tail sch) l →
  mode sch = DISK_SCHEDULER_MODE_SCAN →
  let sweep m := Nat.iter m (scan_advance (disk_scheduler_nblocks sch))
                   (nextblock w, nextdir w) in
  run_turn fuel s w = Done (w1, r) →
  r ∈ l.*2 ∧
  ∃ n, (∀ m, m < n → (sweep m).1 ∉ blocks l) ∧
    block1 r = (sweep n).1 ∧
    nextblock w1 = (sweep n).1 ∧ nextdir w1 = (sweep n).2.
Proof.
  intros Hs Hq Hm sweep Hrun.
  destruct (run_turn_inv _ _ _ _ _ _ _ Hs Hq Hrun) as (c & nb & nd & i & Hsel & Hi).
  split.
  { apply list_elem_of_lookup. exists i. by rewrite list_lookup_fmap, Hi. }
  destruct (select_scan_returns _ _ _ _ _ _ _ Hq Hm Hsel) as (k & r' & n' & Hk & Hb & Hn').
  assert (k = i) as ->.
  { apply (is_queue_addr_inj _ _ _ _ Hq _ _ c); by eapply addr_at_lookup. }
  rewrite Hi in Hk. injection Hk as <-.
  assert (Hhit' : (sweep n').1 ∈ blocks l).
  { unfold sweep. rewrite <- Hn'. simpl. rewrite <- Hb.
    apply (elem_of_blocks l (c, r)). by eapply list_elem_of_lookup_2. }
  destruct (least_below (λ m, (sweep m).1 ∈ blocks l) n' Hhit')
    as (n & _ & Hhit & Hmin).
  exists n. split; [done|].
  destruct (run_turn_scan_first w s sch l n Hs Hq Hm Hmin Hhit
              (fuel `max` (n * length l + length l)) ltac:(lia))
    as (w2 & sch2 & k2 & c2 & r2 & Hrun2 & _ & Hb2 & _ & Hnb2 & Hnd2 & _).
  apply (run_turn_mono _ (fuel `max` (n * length l + length l))) in Hrun; [|lia].
  rewrite Hrun in Hrun2. injection Hrun2 as <- <-. done.
Qed.

(** C5: the SCAN sweep moves one block at a time in the current direction;
    at the last block with direction +1 its next move turns it to -1 on
    that block, at block 0 with direction -1 its next move turns it to +1.
    A turn services the first request in the queue for the first pending
    block that the sweep comes to, and leaves the cursor on that block with
    the direction the sweep has there, for the next turn to go on from; it
    returns whenever the cursor is on the disk and a request for a block of
    the disk is pending.  With 16 blocks, the cursor at block 14 going up
    and the requests for blocks 0 and 15 pending (in either order), the
    first turn services 15 and the second services 0. *)
Theorem scan_sweep w s sch l :
  scheds w !! s = Some sch →
  mode sch = DISK_SCHEDULER_MODE_SCAN →
  is_queue (nodes w) (head sch) (tail sch) l →
  let N := disk_scheduler_nblocks sch in
  ((∀ nb, (0 ≤ nb < N - 1)%Z → scan_advance N (nb, 1%Z) = ((nb + 1)%Z, 1%Z)) ∧
   (∀ nb, (0 < nb ≤ N - 1)%Z → scan_advance N (nb, (-1)%Z) = ((nb - 1)%Z, (-1)%Z)) ∧
   ((1 ≤ N)%Z → scan_advance N ((N - 1)%Z, 1%Z) = ((N - 1)%Z, (-1)%Z)) ∧
   ((1 ≤ N)%Z → scan_advance N (0%Z, (-1)%Z) = (0%Z, 1%Z))) ∧
  (∀ n,
     (∀ m, m < n →
        (Nat.iter m (scan_advance N) (nextblock w, nextdir w)).1 ∉ blocks l) →
     (Nat.iter n (scan_advance N) (nextblock w, nextdir w)).1 ∈ blocks l →
     ∀ fuel, n * length l + length l ≤ fuel →
     ∃ w1 sch1 k c r,
       run_turn fuel s w = Done (w1, r) ∧
       l !! k = Some (c, r) ∧
       (∀ j y, l !! j = Some y → j < k → block1 y.2 ≠ block1 r) ∧
       (block1 r, nextdir w1) = Nat.iter n (scan_advance N) (nextblock w, nextdir w) ∧
       nextblock w1 = block1 r ∧
       scheds w1 !! s = Some sch1 ∧
       is_queue (nodes w1) (head sch1) (tail sch1) (delete k l)) ∧
  (∀ fuel w1 r, run_turn fuel s w = Done (w1, r) →
     r ∈ l.*2 ∧ nextblock w1 = block1 r ∧
     ∃ n,
       (∀ m, m < n →
          (Nat.iter m (scan_advance N) (nextblock w, nextdir w)).1 ∉ blocks l) ∧
       (nextblock w1, nextdir w1)
       = Nat.iter n (scan_advance N) (nextblock w, nextdir w)) ∧
  (cursor_in_range N (nextblock w, nextdir w) →
   (∃ y, y ∈ l ∧ (0 ≤ block1 y.2 ≤ N - 1)%Z) →
   ∃ fuel w1 r, run_turn fuel s w = Done (w1, r)) ∧
  (N = 16%Z → nextblock w = 14%Z → nextdir w = 1%Z → blocks l ≡ₚ [0; 15]%Z →
   ∀ fuel, 17 ≤ fuel →
   ∃ w1 w2 r1 r2,
     run_turn fuel s w = Done (w1, r1) ∧ block1 r1 = 15%Z ∧
     nextblock w1 = 15%Z ∧ nextdir w1 = 1%Z ∧
     run_turn fuel s w1 = Done (w2, r2) ∧ block1 r2 = 0%Z ∧
     nextblock w2 = 0%Z ∧ nextdir w2 = (-1)%Z).
Proof.
  intros Hs Hm Hq N. split_and!.
  - apply scan_advance_up.
  - apply scan_advance_down.
  - apply scan_advance_top.
  - apply scan_advance_bottom.
  - intros n Hmiss Hhit fuel Hfuel.
    destruct (run_turn_scan_first w s sch l n Hs Hq Hm Hmiss Hhit fuel Hfuel)
      as (w1 & sch1 & k & c & r & Hrun & Hk & Hb & Hbefore & Hnb & Hnd & Hs1 & Hq1).
    exists w1, sch1, k, c, r. split_and!; try done.
    + intros j y Hj Hjk. rewrite Hb. by eapply Hbefore.
    + rewrite Hb, Hnd. fold N. by destruct (Nat.iter n _ _).
    + by rewrite Hnb, Hb.
  - intros fuel w1 r Hrun.
    destruct (run_turn_scan_inv w s sch l fuel w1 r Hs Hq Hm Hrun)
      as (Hin & n & Hmin & Hb & Hnb & Hnd).
    split_and!; [done|by rewrite Hnb, Hb|].
    exists n. split; [done|]. rewrite Hnb, Hnd. fold N. by destruct (Nat.iter n _ _).
  - intros Hcur (y & Hy & Hyb).
    destruct (select_scan_terminates w sch l y Hq Hm Hcur Hy Hyb)
      as (fuel & [[c nb] nd] & Hsel).
    destruct (select_in_queue _ _ _ _ _ _ _ Hq Hsel) as (i & r & Hi).
    destruct (run_turn_Done _ _ _ _ _ _ _ _ _ _ Hs Hq Hsel Hi) as (w1 & sch1 & Hrun & _).
    by exists fuel, w1, r.
  - intros HN Hb Hd Hp fuel Hfuel. subst N.
    assert (Hlen : length l = 2).
    { apply Permutation_length in Hp. unfold blocks in Hp.
      by rewrite length_fmap in Hp. }
    (* first turn: one move up, to block 15 *)
    assert (15%Z ∈ blocks l) as [y1 [Hy1b Hy1]]%list_elem_of_fmap.
    { rewrite Hp. set_solver. }
    destruct (run_turn_scan w s sch l 1 Hs Hq Hm) with (fuel := fuel)
      as (w1 & sch1 & k1 & c1 & r1 & Hrun1 & Hk1 & Hb1 & Hs1 & Hm1 & Hd1 & Hq1 & Hnb1 & Hnd1).
    { intros m Hlt. assert (m = 0) as -> by lia. simpl.
      apply misses_scan_true. rewrite Hp, Hb. simpl. set_unfold. lia. }
    { rewrite Hb, Hd, HN. apply (misses_scan_false _ _ y1); [done|].
      rewrite iter_one, scan_advance_up by lia. simpl. lia. }
    { lia. }
    rewrite Hb, Hd, HN, iter_one, scan_advance_up in Hb1, Hnb1, Hnd1 by lia.
    simpl in Hb1, Hnb1, Hnd1. change (14 + 1)%Z with 15%Z in *.
    (* second turn: round at the top and down to block 0 *)
    assert (Hp1 : blocks (delete k1 l) ≡ₚ [0%Z]).
    { pose proof (blocks_delete _ _ _ _ Hk1) as Hd1'. rewrite Hb1, Hp in Hd1'.
      rewrite (Permutation_swap 15 0 [])%Z in Hd1'.
      by apply Permutation_cons_inv in Hd1'. }
    assert (Hlen1 : length (delete k1 l) = 1).
    { apply Permutation_length in Hp1. unfold blocks in Hp1.
      by rewrite length_fmap in Hp1. }
    assert (0%Z ∈ blocks (delete k1 l)) as [y2 [Hy2b Hy2]]%list_elem_of_fmap.
    { rewrite Hp1. set_solver. }
    assert (HN1 : disk_scheduler_nblocks sch1 = 16%Z)
      by (unfold disk_scheduler_nblocks in *; by rewrite Hd1).
    assert (Ht : Nat.iter 16 (scan_advance 16) (15%Z, 1%Z) = (0%Z, (-1)%Z))
      by (vm_compute; reflexivity).
    destruct (run_turn_scan w1 s sch1 (delete k1 l) 16 Hs1 Hq1 ltac:(congruence))
      with (fuel := fuel)
      as (w2 & sch2 & k2 & c2 & r2 & Hrun2 & Hk2 & Hb2 & Hs2 & Hm2 & Hd2 & Hq2 & Hnb2 & Hnd2).
    { intros m Hlt. rewrite Hnb1, Hnd1, HN1.
      apply misses_scan_true. rewrite Hp1.
      destruct m as [|m]; [simpl; set_unfold; lia|].
      pose proof (scan_from_top 16 m ltac:(lia) ltac:(lia)) as Hm'.
      change (16 - 1)%Z with 15%Z in Hm'. rewrite Hm'. simpl. set_unfold. lia. }
    { rewrite Hnb1, Hnd1, HN1. apply (misses_scan_false _ _ y2); [done|].
      rewrite Ht. simpl. lia. }
    { lia. }
    rewrite Hnb1, Hnd1, HN1, Ht in Hb2, Hnb2, Hnd2.
    simpl in Hb2, Hnb2, Hnd2.
    exists w1, w2, r1, r2. split_and!; done.
Qed.

Lemma scan_sweep_witness :
  ∃ w1 w2 r1 r2,
    let w := pending_world DISK_SCHEDULER_MODE_SCAN 16 (14%Z, 1%Z)
               (requests_at 10 [0; 15]%Z) in
    run_turn 17 0 w = Done (w1, r1) ∧ block1 r1 = 15%Z ∧
    nextblock w1 = 15%Z ∧ nextdir w1 = 1%Z ∧
    run_turn 17 0 w1 = Done (w2, r2) ∧ block1 r2 = 0%Z ∧
    nextblock w2 = 0%Z ∧ nextdir w2 = (-1)%Z.
Proof.
  refine (proj2 (proj2 (proj2 (proj2 (scan_sweep
            (pending_world DISK_SCHEDULER_MODE_SCAN 16 (14%Z, 1%Z)
               (requests_at 10 [0; 15]%Z)) 0
            {| sdisk := Disk 16; mode := DISK_SCHEDULER_MODE_SCAN;
               head := Some 10; tail := Some 11 |}
            (requests_at 10 [0; 15]%Z) _ _ _)))) _ _ _ _ 17 _).
  - vm_compute. reflexivity.
  - reflexivity.
  - solve_is_queue.
  - reflexivity.
  - reflexivity.
  - reflexivity.
  - vm_compute. reflexivity.
  - lia.
Defined.

(** ** What the operations do to the scheduler objects and to the cursor *)

Lemma unlink_ends_fields c n sch :
  mode (unlink_ends c n sch) = mode sch ∧ sdisk (unlink_ends c n sch) = sdisk sch.
Proof. unfold unlink_ends. repeat case_bool_decide; done. Qed.

Lemma enqueue_inv s r curr w w' :
  enqueue s r curr w = Some w' →
  ∃ sch sch',
    scheds w !! s = Some sch ∧ scheds w' = <[s := sch']> (scheds w) ∧
    mode sch' = mode sch ∧ sdisk sch' = sdisk sch ∧
    nextblock w' = nextblock w ∧ nextdir w' = nextdir w.
Proof.
  unfold enqueue. destruct (scheds w !! s) as [sch|] eqn:Hs; simpl; [|done].
  destruct (head sch).
  - destruct (tail sch) as [t|]; simpl; [|done].
    destruct (store_node t _ _) as [h1|]; simpl; [|done].
    destruct (store_node curr _ _) as [h2|]; simpl; [|done].
    intros [= <-]. eexists _, _. split_and!; done.
  - intros [= <-]. eexists _, _. split_and!; done.
Qed.

Lemma run_turn_inv_cursor fuel s w w' r :
  run_turn fuel s w = Done (w', r) →
  ∃ sch sch' c,
    scheds w !! s = Some sch ∧
    select fuel w sch = Done (c, nextblock w', nextdir w') ∧
    scheds w' = <[s := sch']> (scheds w) ∧
    mode sch' = mode sch ∧ sdisk sch' = sdisk sch.
Proof.
  unfold run_turn, select_and_remove.
  destruct (scheds w !! s) as [sch|] eqn:Hs; simpl; [|done].
  destruct (select fuel w sch) as [[[c nb] nd]| |] eqn:Hsel; simpl; try done.
  unfold unlink.
  destruct (unlink_nodes c _) as [[h2 n2]|]; simpl; [|done].
  rewrite Hs. simpl.
  destruct (h2 !! c) as [n|]; simpl; [|done].
  intros [= <- <-]. exists sch, (unlink_ends c n2 sch), c. simpl.
  destruct (unlink_ends_fields c n2 sch). split_and!; done.
Qed.

Lemma create_inv s junk dc m w :
  let w' := (disk_scheduler_create (Some (s, junk)) dc m w).1 in
  (∀ s', s' ≠ s → scheds w' !! s' = scheds w !! s') ∧
  nodes w' = nodes w ∧ nextblock w' = nextblock w ∧ nextdir w' = nextdir w.
Proof.
  unfold disk_scheduler_create. destruct dc as [d|]; simpl.
  - split_and!; try done. intros s' Hne.
    by rewrite !lookup_insert_ne.
  - split_and!; try done. intros s' Hne.
    by rewrite lookup_delete_ne, lookup_insert_ne.
Qed.

(** No operation writes the [mode] or the [disk] field of a scheduler that
    exists. *)
Lemma op_step_fields o w w' s sch :
  op_step o w w' → scheds w !! s = Some sch →
  ∃ sch', scheds w' !! s = Some sch' ∧ mode sch' = mode sch ∧ sdisk sch' = sdisk sch.
Proof.
  intros Hstep Hs. destruct Hstep as [s0 junk dc m w Hfresh|s0 r c w w' _ He|s0 fuel w w' r Hrun].
  - destruct (create_inv s0 junk dc m w) as (Hother & _).
    exists sch. rewrite Hother; [done|]. intros ->. congruence.
  - destruct (enqueue_inv _ _ _ _ _ He) as (sch0 & sch' & Hs0 & -> & Hm & Hd & _).
    destruct (decide (s0 = s)) as [->|Hne].
    + rewrite lookup_insert_eq. exists sch'. split_and!; congruence.
    + rewrite lookup_insert_ne by done. by exists sch.
  - destruct (run_turn_inv_cursor _ _ _ _ _ Hrun) as (sch0 & sch' & c & Hs0 & _ & -> & Hm & Hd).
    destruct (decide (s0 = s)) as [->|Hne].
    + rewrite lookup_insert_eq. exists sch'. split_and!; congruence.
    + rewrite lookup_insert_ne by done. by exists sch.
Qed.

Lemma runs_fields os w w' s sch :
  runs os w w' → scheds w !! s = Some sch →
  ∃ sch', scheds w' !! s = Some sch' ∧ mode sch' = mode sch ∧ sdisk sch' = sdisk sch.
Proof.
  intros Hruns. revert sch. induction Hruns as [w|o os w1 w2 w3 Hstep _ IH]; intros sch Hs.
  - by exists sch.
  - destruct (op_step_fields _ _ _ _ _ Hstep Hs) as (sch2 & Hs2 & Hm2 & Hd2).
    destruct (IH _ Hs2) as (sch3 & Hs3 & Hm3 & Hd3).
    exists sch3. split_and!; congruence.
Qed.

(** The cursor a SCAN selection returns is some moves of the sweep away
    from the cursor it started with. *)
Lemma select_scan_cursor fuel w sch c nb nd :
  mode sch = DISK_SCHEDULER_MODE_SCAN →
  select fuel w sch = Done (c, nb, nd) →
  ∃ n, (nb, nd) = Nat.iter n (scan_advance (disk_scheduler_nblocks sch))
                    (nextblock w, nextdir w).
Proof.
  intros Hm Hsel.
  destruct (head sch) as [hd|] eqn:Ehd; [|by unfold select in Hsel; rewrite Ehd in Hsel].
  rewrite (select_scan _ _ _ _ Ehd Hm) in Hsel.
  destruct (run_loop _ _ _) as [[c' [nb' nd']]| |] eqn:E; simpl in Hsel; try done.
  simplify_eq.
  destruct (walk_returns_round _ _ _ _ _ _ _ _ E) as (n & Hn). eauto.
Qed.

(** ** SCAN keeps its cursor on the disk *)








(** ** Creation *)

(** C8: [disk_scheduler_create] returns null exactly when [malloc] or
    [disk_create] returns null; when [disk_create] fails the scheduler
    object is freed again, so that the process state is what it was; on
    success the new object holds the disk, the requested mode and null
    [head] and [tail], and no later operation of the module changes its
    mode. *)
Theorem create_returns alloc dc m w :
  let w' := (disk_scheduler_create alloc dc m w).1 in
  let res := (disk_scheduler_create alloc dc m w).2 in
  (res = None ↔ alloc = None ∨ dc = None) ∧
  (alloc = None → w' = w) ∧
  (∀ s junk, alloc = Some (s, junk) → scheds w !! s = None → dc = None → w' = w) ∧
  (∀ s, res = Some s →
     (∃ junk, alloc = Some (s, junk)) ∧
     ∃ d, dc = Some d ∧
       scheds w' !! s = Some {| sdisk := d; mode := m; head := None; tail := None |} ∧
       is_queue (nodes w') None None [] ∧
       ∀ os w2, runs os w' w2 →
         ∃ sch, scheds w2 !! s = Some sch ∧ mode sch = m ∧ sdisk sch = d).
Proof.
  unfold disk_scheduler_create.
  destruct alloc as [[s junk]|], dc as [d|]; simpl; split_and!; try done;
    try (split; [done|intros [?|?]; done]); try tauto; try by (split; auto).
  - intros s' [= <-]. split; [by eexists|]. exists d. split; [done|].
    rewrite lookup_insert_eq. split; [done|]. split; [apply is_queue_nil|].
    intros os w2 Hruns.
    eapply runs_fields in Hruns; [|simpl; apply lookup_insert_eq].
    destruct Hruns as (sch & ? & ? & ?). by exists sch.
  - intros s' junk' [= <- <-] Hfresh _.
    destruct w as [nb nd ss ns]. unfold with_scheds. simpl in *. f_equal.
    rewrite delete_insert_eq. by apply delete_id.
Qed.

Lemma create_returns_witness :
  let w' := fresh_scheduler DISK_SCHEDULER_MODE_SCAN 16 in
  scheds w' !! 0 = Some {| sdisk := Disk 16; mode := DISK_SCHEDULER_MODE_SCAN;
                            head := None; tail := None |} ∧
  ∀ os w2, runs os w' w2 →
    ∃ sch, scheds w2 !! 0 = Some sch ∧ mode sch = DISK_SCHEDULER_MODE_SCAN ∧
           sdisk sch = Disk 16.
Proof.
  intros w'.
  destruct (proj2 (proj2 (proj2 (create_returns
              (Some (0, {| sdisk := Disk 0; mode := DISK_SCHEDULER_MODE_FIFO;
                           head := Some 7; tail := Some 9 |}))
              (Some (Disk 16)) DISK_SCHEDULER_MODE_SCAN initial_world))) 0 eq_refl)
    as (_ & d & Hd & Hs & _ & Himm).
  injection Hd as <-. split; [exact Hs|exact Himm].
Defined.

(** ** Selection and removal *)

(** A SCAN selection never returns when no pending request is for a block
    of the disk: the sweep stays on the disk. *)
Lemma select_scan_diverges w sch l :
  is_queue (nodes w) (head sch) (tail sch) l →
  mode sch = DISK_SCHEDULER_MODE_SCAN →
  l ≠ [] →
  (1 ≤ disk_scheduler_nblocks sch)%Z →
  cursor_in_range (disk_scheduler_nblocks sch) (nextblock w, nextdir w) →
  (∀ y, y ∈ l → ¬ (0 ≤ block1 y.2 ≤ disk_scheduler_nblocks sch - 1)%Z) →
  ∀ fuel, select fuel w sch = Timeout.
Proof.
  intros Hq Hm Hne HN Hcur Hout fuel.
  destruct (is_queue_head_nonempty _ _ _ _ Hq Hne) as (hd & r & Ehd & _).
  rewrite (select_scan _ _ _ _ Ehd Hm). rewrite Ehd in Hq.
  rewrite (walk_diverges _ _ _ _ _ _ Hq); [done|].
  intros n. apply misses_spec. intros y Hy.
  destruct (scan_test _ _) eqn:E; [done|]. apply scan_test_false in E.
  pose proof (scan_iter_in_range _ _ n HN Hcur) as [Hin _].
  exfalso. apply (Hout y Hy). by rewrite E.
Qed.

(** C7: on every queue and in every mode, whenever selection-and-removal
    returns, it returns a node that was in the queue, and the queue
    afterwards is the queue before without exactly that node: the other
    nodes are the same, in the same order, and the node returned still
    carries its request.  On a non-empty queue it returns in FIFO mode
    always; in SCAN mode whenever the cursor is on the disk and a request
    for a block of the disk is pending; in SSTF mode, with the cursor and
    the requested blocks on the disk, whenever some pending request is not
    exactly [nblocks - 1] blocks from the cursor.  When all of them are,
    on a disk of two or more blocks, it never returns. *)
Theorem select_and_remove_unlinks_one w s sch l :
  scheds w !! s = Some sch →
  is_queue (nodes w) (head sch) (tail sch) l →
  let N := disk_scheduler_nblocks sch in
  (∀ fuel w' c, select_and_remove fuel s w = Done (w', c) →
     ∃ i r sch',
       l !! i = Some (c, r) ∧
       scheds w' !! s = Some sch' ∧
       is_queue (nodes w') (head sch') (tail sch') (delete i l) ∧
       val <$> nodes w' !! c = Some r ∧
       (∀ c', c' ∉ l.*1 → nodes w' !! c' = nodes w !! c')) ∧
  (l ≠ [] → mode sch = DISK_SCHEDULER_MODE_FIFO →
     ∀ fuel, ∃ w' c, select_and_remove fuel s w = Done (w', c)) ∧
  (mode sch = DISK_SCHEDULER_MODE_SCAN →
     cursor_in_range N (nextblock w, nextdir w) →
     (∃ y, y ∈ l ∧ (0 ≤ block1 y.2 ≤ N - 1)%Z) →
     ∃ fuel w' c, select_and_remove fuel s w = Done (w', c)) ∧
  (mode sch = DISK_SCHEDULER_MODE_SSTF →
     (0 ≤ nextblock w ≤ N - 1)%Z →
     (∀ y, y ∈ l → (0 ≤ block1 y.2 ≤ N - 1)%Z) →
     l ≠ [] →
     ((∃ y, y ∈ l ∧ dist (nextblock w) (block1 y.2) ≠ (N - 1)%Z) ∨ N = 1%Z →
        ∃ fuel w' c, select_and_remove fuel s w = Done (w', c)) ∧
     ((2 ≤ N)%Z → (∀ y, y ∈ l → dist (nextblock w) (block1 y.2) = (N - 1)%Z) →
        ∀ fuel, select_and_remove fuel s w = Timeout)).
Proof.
  intros Hs Hq N.
  assert (Hdone : ∀ fuel res, select fuel w sch = Done res →
            ∃ w' c, select_and_remove fuel s w = Done (w', c)).
  { intros fuel [[c nb] nd] Hsel.
    destruct (select_in_queue _ _ _ _ _ _ _ Hq Hsel) as (i & r & Hi).
    destruct (select_and_remove_Done _ _ _ _ _ _ _ _ _ _ Hs Hq Hsel Hi)
      as (w1 & sch' & Hrun' & _).
    eauto. }
  split; [|split; [|split]].
  - intros fuel w' c Hrun.
    assert (∃ nb nd, select fuel w sch = Done (c, nb, nd)) as (nb & nd & Hsel).
    { unfold select_and_remove in Hrun. rewrite Hs in Hrun. simpl in Hrun.
      destruct (select fuel w sch) as [[[c0 nb] nd]| |]; simpl in Hrun; try done.
      destruct (unlink s c0 _); simpl in Hrun; simplify_eq. eauto. }
    destruct (select_in_queue _ _ _ _ _ _ _ Hq Hsel) as (i & r & Hi).
    destruct (select_and_remove_Done _ _ _ _ _ _ _ _ _ _ Hs Hq Hsel Hi)
      as (w1 & sch' & Hrun' & Hs' & _ & _ & Hq' & _ & _ & Hval & Hframe).
    rewrite Hrun in Hrun'. simplify_eq.
    exists i, r, sch'. rewrite Hs', lookup_insert_eq. done.
  - intros Hne Hm fuel.
    destruct (is_queue_head_nonempty _ _ _ _ Hq Hne) as (hd & r & Ehd & H0).
    apply (Hdone fuel (hd, nextblock w, nextdir w)). by eapply select_fifo.
  - intros Hm Hcur (y & Hy & Hb).
    destruct (select_scan_terminates w sch l y Hq Hm Hcur Hy Hb) as (fuel & res & Hsel).
    exists fuel. by eapply Hdone.
  - intros Hm Hcur Hin Hne. split.
    + intros Hnear.
      assert (∃ y, y ∈ l ∧
                (dist (nextblock w) (block1 y.2) = 0 ∨
                 dist (nextblock w) (block1 y.2) ≤ N - 2)%Z) as (y & Hy & Hreach).
      { destruct Hnear as [(y & Hy & Hd)|HN1].
        - exists y. split; [done|]. right.
          specialize (Hin y Hy). unfold dist in *. lia.
        - destruct l as [|y l']; [done|]. exists y. split; [by left|]. left.
          specialize (Hin y ltac:(by left)). unfold dist. lia. }
      destruct (select_sstf_terminates w sch l y Hq Hm Hy Hreach) as (fuel & res & Hsel).
      exists fuel. by eapply Hdone.
    + intros HN Hfar fuel.
      unfold select_and_remove. rewrite Hs. simpl.
      rewrite (select_sstf_diverges w sch l Hq Hm Hne); [done|].
      intros y Hy. rewrite (Hfar y Hy). fold N. lia.
Qed.

Lemma select_and_remove_unlinks_one_witness :
  (∃ fuel w' c,
     select_and_remove fuel 0
       (pending_world DISK_SCHEDULER_MODE_SSTF 16 (10%Z, 1%Z) (requests_at 10 [3; 12; 9]%Z))
     = Done (w', c)) ∧
  select_and_remove 1000 0
    (pending_world DISK_SCHEDULER_MODE_SSTF 16 (0%Z, 1%Z) (requests_at 10 [15%Z]))
  = Timeout.
Proof.
  split.
  - refine (proj1 (proj2 (proj2 (proj2 (select_and_remove_unlinks_one
              (pending_world DISK_SCHEDULER_MODE_SSTF 16 (10%Z, 1%Z)
                 (requests_at 10 [3; 12; 9]%Z)) 0
              {| sdisk := Disk 16; mode := DISK_SCHEDULER_MODE_SSTF;
                 head := Some 10; tail := Some 12 |}
              (requests_at 10 [3; 12; 9]%Z) _ _))) _ _ _ _) _).
    + vm_compute. reflexivity.
    + solve_is_queue.
    + reflexivity.
    + unfold disk_scheduler_nblocks. simpl. lia.
    + intros y Hy. unfold disk_scheduler_nblocks. simpl in *.
      repeat (apply elem_of_cons in Hy as [->|Hy]; [simpl; lia|]).
      by apply elem_of_nil in Hy.
    + discriminate.
    + left. exists (12, write_request 9 100). split.
      * simpl. do 2 right. left.
      * vm_compute. discriminate.
  - refine (proj2 (proj2 (proj2 (proj2 (select_and_remove_unlinks_one
              (pending_world DISK_SCHEDULER_MODE_SSTF 16 (0%Z, 1%Z)
                 (requests_at 10 [15%Z])) 0
              {| sdisk := Disk 16; mode := DISK_SCHEDULER_MODE_SSTF;
                 head := Some 10; tail := Some 10 |}
              (requests_at 10 [15%Z]) _ _))) _ _ _ _) _ _ 1000).
    + vm_compute. reflexivity.
    + solve_is_queue.
    + reflexivity.
    + unfold disk_scheduler_nblocks. simpl. lia.
    + intros y Hy. unfold disk_scheduler_nblocks. simpl in *.
      apply list_elem_of_singleton in Hy as ->. simpl. lia.
    + discriminate.
    + unfold disk_scheduler_nblocks. simpl. lia.
    + intros y Hy. simpl in Hy. apply list_elem_of_singleton in Hy as ->.
      vm_compute. reflexivity.
Defined.

(** ** One cursor for all schedulers *)

Lemma run_loop_S {S} (step : S → ctl S) n s :
  run_loop step (Datatypes.S n) s =
    match step s with
    | Continue s' => run_loop step n s'
    | Break s' => Done s'
    | Crash => Fault
    end.
Proof. reflexivity. Qed.

(** The walk reads the store only at the nodes of the queue. *)
Lemma walk_frame {T} (test : T → Z → bool) (wrap : T → T) h h' hd tl l :
  is_queue h (Some hd) tl l → is_queue h' (Some hd) tl l →
  ∀ fuel c t, (∃ k r, l !! k = Some (c, r)) →
    run_loop (walk_step test wrap h hd) fuel (c, t)
    = run_loop (walk_step test wrap h' hd) fuel (c, t).
Proof.
  intros Hq Hq'. induction fuel as [|fuel IH]; intros c t (k & r & Hk); [done|].
  rewrite !run_loop_S.
  rewrite (walk_step_queue test wrap h hd tl l Hq k c r t Hk).
  rewrite (walk_step_queue test wrap h' hd tl l Hq' k c r t Hk).
  destruct (test t (block1 r)); [|done].
  destruct (addr_at l (S k)) as [c1|] eqn:E.
  - apply addr_at_Some in E as [r1 E]. apply IH. eauto.
  - apply IH. pose proof (walk_head h hd tl l Hq) as [r0 H0]%addr_at_Some. eauto.
Qed.

Lemma select_frame fuel w w' sch l :
  is_queue (nodes w) (head sch) (tail sch) l →
  is_queue (nodes w') (head sch) (tail sch) l →
  nextblock w' = nextblock w → nextdir w' = nextdir w →
  select fuel w' sch = select fuel w sch.
Proof.
  intros Hq Hq' Hnb Hnd.
  destruct (head sch) as [hd|] eqn:Ehd; [|by unfold select; rewrite Ehd].
  pose proof (walk_head _ _ _ _ Hq) as [r0 H0]%addr_at_Some.
  destruct (mode sch) eqn:Hm.
  - unfold select. rewrite Ehd, Hm, Hnb, Hnd. done.
  - rewrite !(select_sstf _ _ _ _ Ehd Hm), Hnb.
    rewrite (walk_frame _ _ _ _ _ _ _ Hq' Hq) by eauto.
    destruct (run_loop _ _ _) as [[c nd]| |] eqn:E; [|done..]. simpl.
    destruct (walk_returns _ _ _ _ _ _ Hq _ _ _ _ E) as (k & r & Hk & _).
    by rewrite (is_queue_node _ _ _ _ Hq _ _ _ Hk), (is_queue_node _ _ _ _ Hq' _ _ _ Hk).
  - rewrite !(select_scan _ _ _ _ Ehd Hm), Hnb, Hnd.
    by rewrite (walk_frame _ _ _ _ _ _ _ Hq' Hq) by eauto.
Qed.

(** Membership in a concrete list, refuted entry by entry. *)
Ltac refute_elem_of H :=
  repeat (apply elem_of_cons in H as [H|H]; [discriminate H|]);
  by apply elem_of_nil in H.

(** C4, as stated, fails: the cursor is the pair of file-scope variables
    [nextblock], [nextdir], one for the whole process.  In
    [two_scan_world] a turn of scheduler 0 moves the cursor from block 0 to
    block 5, and scheduler 1 then services block 8 before block 2, while
    without that turn it services 2 before 8. *)
Lemma cursor_per_scheduler_fails : ¬ cursor_per_scheduler.
Proof.
  intros H.
  assert (G4 : ∀ c, c ∈ (requests_at 10 [5%Z]).*1 → c ∉ (requests_at 20 [2; 8]%Z).*1).
  { intros c Hc Hin. apply list_elem_of_singleton in Hc. subst c. refute_elem_of Hin. }
  assert (G5 : ∀ b, b ∈ blocks (requests_at 10 [5%Z]) → b ∉ blocks (requests_at 20 [2; 8]%Z)).
  { intros b Hb Hin. apply list_elem_of_singleton in Hb. subst b. refute_elem_of Hin. }
  pose (wA := match run_turn 100 0 two_scan_world with
              | Done (w, _) => w
              | _ => two_scan_world
              end).
  pose (w1 := match run_turns 100 2 1 two_scan_world with
              | Done (w, _) => w
              | _ => two_scan_world
              end).
  pose (w2 := match run_turns 100 2 1 wA with
              | Done (w, _) => w
              | _ => two_scan_world
              end).
  destruct (H two_scan_world 0 1
              {| sdisk := Disk 16; mode := DISK_SCHEDULER_MODE_SCAN;
                 head := Some 10; tail := Some 10 |}
              {| sdisk := Disk 16; mode := DISK_SCHEDULER_MODE_SCAN;
                 head := Some 20; tail := Some 21 |}
              (requests_at 10 [5%Z]) (requests_at 20 [2; 8]%Z)
              100 wA (write_request 5 100) 2
              w1 [write_request 2 100; write_request 8 100]
              w2 [write_request 8 100; write_request 2 100]) as [_ Heq].
  - discriminate.
  - vm_compute. reflexivity.
  - reflexivity.
  - solve_is_queue.
  - vm_compute. reflexivity.
  - reflexivity.
  - solve_is_queue.
  - exact G4.
  - exact G5.
  - vm_compute. reflexivity.
  - vm_compute. reflexivity.
  - vm_compute. reflexivity.
  - discriminate Heq.
Qed.

(** C4 (amended): the cursor is one pair of variables for the whole
    process.  A turn of scheduler [sA] leaves the object and the queue of
    every other scheduler [sB] as they were, but it sets the one cursor: in
    SSTF and SCAN mode [nextblock] becomes the block just serviced (in FIFO
    mode the cursor is left alone), and the next selection of [sB] is the
    one it would have made before, had the cursor stood there. *)
Theorem turn_shares_cursor w sA sB schA schB lA lB fuel wA r :
  sA ≠ sB →
  scheds w !! sA = Some schA →
  is_queue (nodes w) (head schA) (tail schA) lA →
  scheds w !! sB = Some schB →
  is_queue (nodes w) (head schB) (tail schB) lB →
  (∀ c, c ∈ lA.*1 → c ∉ lB.*1) →
  run_turn fuel sA w = Done (wA, r) →
  scheds wA !! sB = Some schB ∧
  is_queue (nodes wA) (head schB) (tail schB) lB ∧
  (mode schA = DISK_SCHEDULER_MODE_FIFO →
     nextblock wA = nextblock w ∧ nextdir wA = nextdir w) ∧
  (mode schA ≠ DISK_SCHEDULER_MODE_FIFO → nextblock wA = block1 r) ∧
  (∀ fuel', select fuel' wA schB
            = select fuel' (with_cursor (nextblock wA) (nextdir wA) w) schB).
Proof.
  intros Hne HsA HqA HsB HqB Hdisj Hrun.
  destruct (run_turn_inv _ _ _ _ _ _ _ HsA HqA Hrun) as (c & nb & nd & i & Hsel & Hi).
  destruct (run_turn_Done _ _ _ _ _ _ _ _ _ _ HsA HqA Hsel Hi)
    as (w' & sch' & Hrun' & Hs' & _ & _ & _ & Hnb & Hnd & Hframe).
  assert (w' = wA) as -> by congruence.
  assert (HqB' : is_queue (nodes wA) (head schB) (tail schB) lB).
  { destruct HqB as (HndB & HhdB & HtlB & HnodesB). split_and!; try done.
    intros j c' r' Hj. rewrite Hframe; [by apply HnodesB|].
    intros Hin. apply (Hdisj c' Hin). apply list_elem_of_lookup. exists j.
    by rewrite list_lookup_fmap, Hj. }
  split_and!.
  - by rewrite Hs', lookup_insert_ne.
  - done.
  - intros Hm. unfold select in Hsel.
    destruct (head schA); [|done]. rewrite Hm in Hsel. simplify_eq. done.
  - intros Hm. destruct (mode schA) eqn:Em; [done| |].
    + destruct (select_sstf_spec _ _ _ _ _ _ _ HqA Em Hsel) as (i' & r' & Hi' & -> & _).
      assert (i' = i) as ->.
      { apply (is_queue_addr_inj _ _ _ _ HqA _ _ c); by eapply addr_at_lookup. }
      rewrite Hi in Hi'. by simplify_eq.
    + destruct (select_scan_returns _ _ _ _ _ _ _ HqA Em Hsel) as (i' & r' & n & Hi' & Hb & _).
      assert (i' = i) as ->.
      { apply (is_queue_addr_inj _ _ _ _ HqA _ _ c); by eapply addr_at_lookup. }
      rewrite Hi in Hi'. simplify_eq. done.
  - intros fuel'. by apply (select_frame _ _ _ _ lB).
Qed.

Lemma turn_shares_cursor_witness :
  let wA := match run_turn 100 0 two_scan_world with
            | Done (w, _) => w
            | _ => two_scan_world
            end in
  nextblock wA = 5%Z ∧
  scheds wA !! 1 = Some {| sdisk := Disk 16; mode := DISK_SCHEDULER_MODE_SCAN;
                           head := Some 20; tail := Some 21 |} ∧
  is_queue (nodes wA) (Some 20) (Some 21) (requests_at 20 [2; 8]%Z).
Proof.
  intros wA.
  destruct (turn_shares_cursor two_scan_world 0 1
              {| sdisk := Disk 16; mode := DISK_SCHEDULER_MODE_SCAN;
                 head := Some 10; tail := Some 10 |}
              {| sdisk := Disk 16; mode := DISK_SCHEDULER_MODE_SCAN;
                 head := Some 20; tail := Some 21 |}
              (requests_at 10 [5%Z]) (requests_at 20 [2; 8]%Z)
              100 wA (write_request 5 100))
    as (Hs & Hq & _ & Hnb & _).
  - discriminate.
  - vm_compute. reflexivity.
  - solve_is_queue.
  - vm_compute. reflexivity.
  - solve_is_queue.
  - intros c Hc Hin. apply list_elem_of_singleton in Hc. subst c. refute_elem_of Hin.
  - vm_compute. reflexivity.
  - split; [|split; [exact Hs|exact Hq]].
    apply Hnb. discriminate.
Defined.

(** ** Who the completion signal wakes *)

(** C9: the signal of line 303 goes to the one condition variable that
    every requester waits on, so it can unblock a requester whose request
    has not been serviced.  From [two_writers]: thread 1 enqueues its
    request for block 9 and waits, thread 2 enqueues its request for block
    2 and waits, the SSTF turn services block 2 (thread 2's), the signal
    unblocks thread 1, and thread 1 returns to its caller while its node is
    still in the queue and has not been serviced. *)
Theorem signal_wakes_other_requester :
  ∃ m,
    rtc (monitor_step 0) two_writers m ∧
    threads m !! 1 = Some (Returned 10) ∧
    serviced m = [11] ∧
    queue_of (mworld m) 0 [(10, write_request 9 100)] ∧
    ¬ wakes_own_requester 0 two_writers.
Proof.
  pose (w1 := default initial_world
                (enqueue 0 (write_request 9 100) 10 (mworld two_writers))).
  pose (w2 := default initial_world (enqueue 0 (write_request 2 101) 11 w1)).
  pose (w3 := match select_and_remove 10 0 w2 with Done (w, _) => w | _ => w2 end).
  pose (t1 := <[1 := Waiting 10]> (threads two_writers)).
  pose (t2 := <[2 := Waiting 11]> t1).
  pose (t3 := <[1 := Woken 10]> t2).
  pose (t4 := <[1 := Returned 10]> t3).
  pose (m1 := Monitor w1 t1 Idle []).
  pose (m2 := Monitor w2 t2 Idle []).
  pose (m3 := Monitor w3 t2 (Servicing 11) []).
  pose (m4 := Monitor (free_node 11 w3) t3 Idle [11]).
  pose (m5 := Monitor (free_node 11 w3) t4 Idle [11]).
  assert (S1 : monitor_step 0 two_writers m1).
  { apply (requester_enqueues 0 1 (write_request 9 100) 10 two_writers w1);
      vm_compute; reflexivity. }
  assert (S2 : monitor_step 0 m1 m2).
  { apply (requester_enqueues 0 2 (write_request 2 101) 11 m1 w2);
      vm_compute; reflexivity. }
  assert (S3 : monitor_step 0 m2 m3).
  { apply (servicer_selects 0 10 m2 w3 11); vm_compute; reflexivity. }
  assert (S4 : monitor_step 0 m3 m4).
  { apply (servicer_signals 0 1 10 m3 11); vm_compute; reflexivity. }
  assert (S5 : monitor_step 0 m4 m5).
  { apply (requester_returns 0 1 10 m4); vm_compute; reflexivity. }
  assert (Hreach : rtc (monitor_step 0) two_writers m5).
  { eapply rtc_l; [exact S1|]. eapply rtc_l; [exact S2|]. eapply rtc_l; [exact S3|].
    eapply rtc_l; [exact S4|]. eapply rtc_l; [exact S5|]. apply rtc_refl. }
  assert (Hret : threads m5 !! 1 = Some (Returned 10)) by (vm_compute; reflexivity).
  exists m5. split_and!.
  - exact Hreach.
  - exact Hret.
  - reflexivity.
  - exists {| sdisk := Disk 16; mode := DISK_SCHEDULER_MODE_SSTF;
              head := Some 10; tail := Some 10 |}.
    split; [vm_compute; reflexivity|]. solve_is_queue.
  - intros Hown. specialize (Hown m5 1 10 Hreach (or_intror Hret)).
    simpl in Hown. refute_elem_of Hown.
Qed.

(** * Further properties of the module *)

(** ** The queue as a list *)

(** X1: on a well-formed queue, linking a node at an address that is not
    in use never faults and gives the well-formed queue with the new
    request at the tail; the mode, the disk, the cursor, the other
    schedulers and every node outside the queue are left as they were. *)
Theorem enqueue_appends w s sch l r curr :
  scheds w !! s = Some sch →
  is_queue (nodes w) (head sch) (tail sch) l →
  nodes w !! curr = None →
  ∃ w' sch',
    enqueue s r curr w = Some w' ∧
    scheds w' !! s = Some sch' ∧
    is_queue (nodes w') (head sch') (tail sch') (l ++ [(curr, r)]) ∧
    mode sch' = mode sch ∧ sdisk sch' = sdisk sch ∧
    nextblock w' = nextblock w ∧ nextdir w' = nextdir w ∧
    (∀ s', s' ≠ s → scheds w' !! s' = scheds w !! s') ∧
    (∀ c, c ≠ curr → c ∉ l.*1 → nodes w' !! c = nodes w !! c).
Proof.
  intros Hs Hq Hfresh.
  destruct (enqueue_spec w s sch l r curr Hs Hq Hfresh)
    as (w' & sch' & He & Hs' & Hm & Hd & Hq' & Hnb & Hnd & Hframe).
  exists w', sch'. rewrite Hs'. split_and!; try done.
  - apply lookup_insert_eq.
  - intros s' Hne. by rewrite lookup_insert_ne.
Qed.

Lemma enqueue_appends_witness :
  ∃ w' sch',
    enqueue 0 (read_request 4 100) 13
      (pending_world DISK_SCHEDULER_MODE_SCAN 16 (0%Z, 1%Z) (requests_at 10 [3; 12; 9]%Z))
    = Some w' ∧
    scheds w' !! 0 = Some sch' ∧
    is_queue (nodes w') (head sch') (tail sch')
      (requests_at 10 [3; 12; 9]%Z ++ [(13, read_request 4 100)]).
Proof.
  destruct (enqueue_appends
              (pending_world DISK_SCHEDULER_MODE_SCAN 16 (0%Z, 1%Z)
                 (requests_at 10 [3; 12; 9]%Z)) 0
              {| sdisk := Disk 16; mode := DISK_SCHEDULER_MODE_SCAN;
                 head := Some 10; tail := Some 12 |}
              (requests_at 10 [3; 12; 9]%Z) (read_request 4 100) 13)
    as (w' & sch' & He & Hs & Hq & _).
  - vm_compute. reflexivity.
  - solve_is_queue.
  - vm_compute. reflexivity.
  - exists w', sch'. split_and!; assumption.
Defined.

(** X2: the list of a scheduler stays a well-formed doubly linked list
    through any sequence of enqueues and servicing turns on it, and no
    request is lost or duplicated: the queue length grows by one with each
    enqueue and shrinks by one with each turn. *)
Theorem queue_stays_well_formed s os w w' l :
  Forall (uses_only s) os →
  runs os w w' →
  queue_of w s l →
  ∃ l', queue_of w' s l' ∧
    length l' + count_turns os = length l + count_enqueues os.
Proof.
  intros Hos Hruns. revert l Hos.
  induction Hruns as [w|o os w1 w2 w3 Hstep Hruns IH]; intros l Hos (sch & Hs & Hq).
  - exists l. split; [by exists sch|]. simpl. lia.
  - apply Forall_cons in Hos as [Ho Hos].
    destruct Hstep as [s0 junk dc m w Hfresh|s0 r c w w' Hfresh He|s0 fuel w w' r Hrun];
      simpl in Ho; [done| |]; subst s0.
    + destruct (enqueue_spec w s sch l r c Hs Hq Hfresh)
        as (w1 & sch1 & He1 & Hs1 & _ & _ & Hq1 & _).
      assert (w1 = w') as -> by congruence.
      destruct (IH (l ++ [(c, r)]) Hos) as (l' & Hq' & Hlen).
      { exists sch1. by rewrite Hs1, lookup_insert_eq. }
      exists l'. split; [done|]. rewrite length_app in Hlen. simpl in *. lia.
    + destruct (run_turn_inv _ _ _ _ _ _ _ Hs Hq Hrun) as (c & nb & nd & i & Hsel & Hi).
      destruct (run_turn_Done _ _ _ _ _ _ _ _ _ _ Hs Hq Hsel Hi)
        as (w1 & sch1 & Hrun1 & Hs1 & _ & _ & Hq1 & _).
      assert (w1 = w') as -> by congruence.
      destruct (IH (delete i l) Hos) as (l' & Hq' & Hlen).
      { exists sch1. by rewrite Hs1, lookup_insert_eq. }
      exists l'. split; [done|].
      pose proof (lookup_lt_Some _ _ _ Hi).
      rewrite length_delete in Hlen by eauto. simpl in *. lia.
Qed.

Lemma queue_stays_well_formed_witness :
  let w0 := fresh_scheduler DISK_SCHEDULER_MODE_SCAN 16 in
  let w1 := default w0 (enqueue 0 (write_request 15 100) 10 w0) in
  let w2 := default w1 (enqueue 0 (write_request 3 100) 11 w1) in
  let w3 := match run_turn 40 0 w2 with Done (w, _) => w | _ => w2 end in
  ∃ l', queue_of w3 0 l' ∧ length l' + 1 = 0 + 2.
Proof.
  intros w0 w1 w2 w3.
  refine (queue_stays_well_formed 0
            [OpEnqueue 0 (write_request 15 100) 10;
             OpEnqueue 0 (write_request 3 100) 11; OpTurn 0 40]
            w0 w3 [] _ _ _).
  - repeat constructor.
  - apply (runs_cons _ _ w0 w1); [apply step_enqueue; by vm_compute|].
    apply (runs_cons _ _ w1 w2); [apply step_enqueue; by vm_compute|].
    apply (runs_cons _ _ w2 w3); [apply (step_turn _ _ _ _ (write_request 3 100)); by vm_compute|].
    apply runs_nil.
  - exists {| sdisk := Disk 16; mode := DISK_SCHEDULER_MODE_SCAN;
              head := None; tail := None |}.
    split; [vm_compute; reflexivity|apply is_queue_nil].
Defined.

(** ** Every request is serviced once *)

Lemma run_turns_accounts fuel s n :
  ∀ w sch l w' rs,
    scheds w !! s = Some sch →
    is_queue (nodes w) (head sch) (tail sch) l →
    run_turns fuel n s w = Done (w', rs) →
    ∃ sch' l',
      scheds w' !! s = Some sch' ∧
      is_queue (nodes w') (head sch') (tail sch') l' ∧
      mode sch' = mode sch ∧ sdisk sch' = sdisk sch ∧
      rs ++ l'.*2 ≡ₚ l.*2 ∧ length rs = n ∧
      (∀ c, c ∉ l.*1 → nodes w' !! c = nodes w !! c) ∧
      (∀ c, c ∈ l.*1 → c ∉ l'.*1 → nodes w' !! c = None).
Proof.
  induction n as [|n IH]; intros w sch l w' rs Hs Hq Hrun; simpl in Hrun.
  - simplify_eq. exists sch, l. split_and!; try done.
  - destruct (run_turn fuel s w) as [[w1 r]| |] eqn:Hturn; simpl in Hrun; try done.
    destruct (run_turns fuel n s w1) as [[w2 rs']| |] eqn:Hrest; simpl in Hrun; try done.
    simplify_eq.
    destruct (run_turn_inv _ _ _ _ _ _ _ Hs Hq Hturn) as (c & nb & nd & i & Hsel & Hi).
    destruct (run_turn_Done _ _ _ _ _ _ _ _ _ _ Hs Hq Hsel Hi)
      as (w1' & sch1 & Hturn' & Hs1 & Hm1 & Hd1 & Hq1 & _ & _ & Hframe1).
    assert (w1' = w1) as -> by congruence.
    assert (Hs1' : scheds w1 !! s = Some sch1) by (by rewrite Hs1, lookup_insert_eq).
    destruct (IH _ _ _ _ _ Hs1' Hq1 Hrest)
      as (sch' & l' & Hs' & Hq' & Hm' & Hd' & Hperm & Hlen & Hframe & Hfreed).
    assert (Hsub : ∀ c', c' ∈ (delete i l).*1 → c' ∈ l.*1).
    { intros c' Hc'. rewrite list_fmap_delete in Hc'. by eapply list_elem_of_delete_inv. }
    assert (Hgone : nodes w1 !! c = None).
    { unfold run_turn in Hturn.
      destruct (select_and_remove fuel s w) as [[w0 c0]| |] eqn:Hsr; simpl in Hturn; try done.
      destruct (nodes w0 !! c0) eqn:E; simpl in Hturn; simplify_eq.
      assert (c0 = c) as ->.
      { unfold select_and_remove in Hsr. rewrite Hs in Hsr. simpl in Hsr.
        rewrite Hsel in Hsr. simpl in Hsr.
        destruct (unlink s c _); simpl in Hsr; by simplify_eq. }
      simpl. apply lookup_delete_eq. }
    exists sch', l'. split_and!; try done; try congruence.
    + simpl. rewrite Hperm. symmetry.
      apply (delete_Permutation _ _ _) in Hi. rewrite Hi at 1. done.
    + simpl. by rewrite Hlen.
    + intros c' Hc'. rewrite Hframe, Hframe1; [done..|]. intros Hin. auto.
    + intros c' Hc' Hc''.
      destruct (decide (c' ∈ (delete i l).*1)) as [Hin|Hnin]; [by apply Hfreed|].
      rewrite Hframe by done.
      assert (c' = c) as ->; [|done].
      apply list_elem_of_lookup in Hc' as [j Hj]. rewrite list_lookup_fmap in Hj.
      destruct (l !! j) as [[cj rj]|] eqn:Ej; simplify_eq/=.
      destruct (decide (j = i)) as [->|Hne]; [by simplify_eq|].
      exfalso. apply Hnin.
      apply (list_elem_of_fmap_2 fst _ (c', rj)). by eapply elem_of_delete_other.
Qed.



(** ** Draining the queue *)

Lemma run_turns_mono fuel fuel' s n :
  ∀ w x, run_turns fuel n s w = Done x → fuel ≤ fuel' → run_turns fuel' n s w = Done x.
Proof.
  induction n as [|n IH]; intros w x; simpl; [done|].
  destruct (run_turn fuel s w) as [[w1 r]| |] eqn:E; simpl; try done.
  destruct (run_turns fuel n s w1) as [[w2 rs]| |] eqn:E2; simpl; try done.
  intros H Hle.
  rewrite (run_turn_mono _ _ _ _ _ E Hle). simpl.
  by rewrite (IH _ _ E2 Hle).
Qed.

Lemma enqueue_all_frame s xs :
  ∀ w sch l w',
    scheds w !! s = Some sch →
    is_queue (nodes w) (head sch) (tail sch) l →
    (∀ c, c ∈ xs.*1 → nodes w !! c = None) →
    NoDup xs.*1 →
    enqueue_all s xs w = Some w' →
    ∀ c, c ∉ l.*1 → c ∉ xs.*1 → nodes w' !! c = nodes w !! c.
Proof.
  induction xs as [|[c0 r0] xs IH]; intros w sch l w' Hs Hq Hfresh Hnd He c Hl Hx.
  - simpl in He. by simplify_eq.
  - simpl in He, Hnd. apply NoDup_cons in Hnd as [Hc0 Hnd].
    destruct (enqueue_spec w s sch l r0 c0 Hs Hq) as
      (w1 & sch1 & He1 & Hs1 & _ & _ & Hq1 & _ & _ & Hframe).
    { apply Hfresh. simpl. by left. }
    rewrite He1 in He. simpl in He.
    assert (c ≠ c0) by (intros ->; apply Hx; simpl; by left).
    assert (c ∉ xs.*1) by (intros ?; apply Hx; simpl; by right).
    rewrite (IH w1 sch1 (l ++ [(c0, r0)]) w'); try done.
    + by apply Hframe.
    + by rewrite Hs1, lookup_insert_eq.
    + intros c' Hc'. rewrite Hframe.
      * apply Hfresh. simpl. by right.
      * intros ->. done.
      * apply (is_queue_fresh _ _ _ _ _ Hq). apply Hfresh. simpl. by right.
    + rewrite fmap_app. simpl. intros [?|?%list_elem_of_singleton]%elem_of_app; done.
Qed.

(** X4: a round trip through the queue gives the node store back.  When the
    requests [xs] are enqueued on an empty queue and as many turns return,
    in any mode, the requests serviced are those enqueued, the queue is
    empty again, and the store of list nodes is what it was before the
    enqueues: every node linked has been freed and no other node has been
    written. *)
Theorem drain_restores_store fuel s w sch xs w1 w2 rs :
  scheds w !! s = Some sch →
  is_queue (nodes w) (head sch) (tail sch) [] →
  NoDup xs.*1 →
  (∀ c, c ∈ xs.*1 → nodes w !! c = None) →
  enqueue_all s xs w = Some w1 →
  run_turns fuel (length xs) s w1 = Done (w2, rs) →
  rs ≡ₚ xs.*2 ∧ queue_of w2 s [] ∧ nodes w2 = nodes w.
Proof.
  intros Hs Hq Hnd Hfresh He Hrun.
  destruct (enqueue_all_spec s xs w sch [] Hs Hq Hnd Hfresh)
    as (w1' & sch1 & He' & Hs1 & _ & _ & Hq1 & _).
  assert (w1' = w1) as -> by congruence. simpl in Hq1.
  assert (Hs1' : scheds w1 !! s = Some sch1) by (by rewrite Hs1, lookup_insert_eq).
  destruct (run_turns_accounts _ _ _ _ _ _ _ _ Hs1' Hq1 Hrun)
    as (sch2 & l' & Hs2 & Hq2 & _ & _ & Hperm & Hlen & Hframe & Hfreed).
  assert (l' = []) as ->.
  { apply Permutation_length in Hperm.
    rewrite length_app, !length_fmap in Hperm.
    destruct l'; [done|]. simpl in Hperm. lia. }
  rewrite app_nil_r in Hperm. split_and!; [done|by exists sch2|].
  apply map_eq. intros c.
  destruct (decide (c ∈ xs.*1)) as [Hin|Hnin].
  - rewrite Hfreed; [|done|simpl; apply not_elem_of_nil]. by rewrite Hfresh.
  - rewrite Hframe by done.
    apply (enqueue_all_frame s xs w sch [] w1); try done. simpl. apply not_elem_of_nil.
Qed.

Lemma drain_restores_store_witness :
  let w := fresh_scheduler DISK_SCHEDULER_MODE_SSTF 16 in
  let w1 := default w (enqueue_all 0 (requests_at 10 [3; 12; 9]%Z) w) in
  let w2 := match run_turns 40 3 0 w1 with Done (w', _) => w' | _ => w end in
  [write_request 3 100; write_request 9 100; write_request 12 100]
    ≡ₚ (requests_at 10 [3; 12; 9]%Z).*2 ∧
  queue_of w2 0 [] ∧ nodes w2 = nodes w.
Proof.
  intros w w1 w2.
  refine (drain_restores_store 40 0 w
            {| sdisk := Disk 16; mode := DISK_SCHEDULER_MODE_SSTF;
               head := None; tail := None |}
            (requests_at 10 [3; 12; 9]%Z) w1 w2 _ _ _ _ _ _ _).
  - vm_compute. reflexivity.
  - apply is_queue_nil.
  - match goal with |- ?P => apply (bool_decide_unpack P) end. vm_compute. exact I.
  - intros c Hc. vm_compute. reflexivity.
  - vm_compute. reflexivity.
  - vm_compute. reflexivity.
Defined.

Section drain.
Variables (s : loc) (m : disk_scheduler_mode_t) (N : Z).
Variable Inv : Z * Z → list (loc * request) → Prop.

Hypothesis Inv_selects : ∀ w sch l,
  scheds w !! s = Some sch → mode sch = m → disk_scheduler_nblocks sch = N →
  is_queue (nodes w) (head sch) (tail sch) l →
  Inv (nextblock w, nextdir w) l → l ≠ [] →
  ∃ fuel res, select fuel w sch = Done res.

Hypothesis Inv_kept : ∀ w sch l fuel c nb nd i r,
  scheds w !! s = Some sch → mode sch = m → disk_scheduler_nblocks sch = N →
  is_queue (nodes w) (head sch) (tail sch) l →
  Inv (nextblock w, nextdir w) l →
  select fuel w sch = Done (c, nb, nd) → l !! i = Some (c, r) →
  Inv (nb, nd) (delete i l).

(** If the policy finds a request whenever [Inv] holds and a turn keeps
    [Inv], the turns empty the queue. *)
Lemma drains n :
  ∀ l w sch,
    length l = n →
    scheds w !! s = Some sch → mode sch = m → disk_scheduler_nblocks sch = N →
    is_queue (nodes w) (head sch) (tail sch) l →
    Inv (nextblock w, nextdir w) l →
    ∃ fuel w' rs,
      run_turns fuel n s w = Done (w', rs) ∧ Inv (nextblock w', nextdir w') [].
Proof.
  induction n as [|n IH]; intros l w sch Hlen Hs Hm HN Hq HI.
  - destruct l; [|done]. exists 0, w, []. done.
  - assert (l ≠ []) as Hne by (intros ->; done).
    destruct (Inv_selects w sch l Hs Hm HN Hq HI Hne) as (fuel1 & [[c nb] nd] & Hsel).
    destruct (select_in_queue _ _ _ _ _ _ _ Hq Hsel) as (i & r & Hi).
    destruct (run_turn_Done _ _ _ _ _ _ _ _ _ _ Hs Hq Hsel Hi)
      as (w1 & sch1 & Hturn & Hs1 & Hm1 & Hd1 & Hq1 & Hnb & Hnd & _).
    pose proof (Inv_kept w sch l fuel1 c nb nd i r Hs Hm HN Hq HI Hsel Hi) as HI1.
    destruct (IH (delete i l) w1 sch1) as (fuel2 & w2 & rs & Hrest & HI2).
    + pose proof (lookup_lt_Some _ _ _ Hi). rewrite length_delete by eauto. lia.
    + by rewrite Hs1, lookup_insert_eq.
    + congruence.
    + unfold disk_scheduler_nblocks in *. by rewrite Hd1.
    + done.
    + by rewrite Hnb, Hnd.
    + exists (fuel1 `max` fuel2), w2, (r :: rs). split; [|done]. simpl.
      rewrite (run_turn_mono _ _ _ _ _ Hturn) by lia. simpl.
      rewrite (run_turns_mono _ _ _ _ _ _ Hrest) by lia. done.
Qed.
End drain.

(** SCAN empties a queue of requests for blocks of the disk. *)
Lemma scan_drains w s sch l :
  scheds w !! s = Some sch →
  mode sch = DISK_SCHEDULER_MODE_SCAN →
  is_queue (nodes w) (head sch) (tail sch) l →
  cursor_in_range (disk_scheduler_nblocks sch) (nextblock w, nextdir w) →
  (∀ y, y ∈ l → (0 ≤ block1 y.2 ≤ disk_scheduler_nblocks sch - 1)%Z) →
  ∃ fuel w' rs,
    run_turns fuel (length l) s w = Done (w', rs) ∧
    rs ≡ₚ l.*2 ∧ queue_of w' s [] ∧
    cursor_in_range (disk_scheduler_nblocks sch) (nextblock w', nextdir w').
Proof.
  intros Hs Hm Hq Hcur Hin.
  set (N := disk_scheduler_nblocks sch) in *.
  assert (HN : (1 ≤ N)%Z) by (destruct Hcur as [? _]; simpl in *; lia).
  destruct (drains s DISK_SCHEDULER_MODE_SCAN N
              (λ cur l, cursor_in_range N cur ∧
                        ∀ y, y ∈ l → (0 ≤ block1 y.2 ≤ N - 1)%Z))
    with (n := length l) (l := l) (w := w) (sch := sch)
    as (fuel & w' & rs & Hrun & [Hcur' _]); try done.
  - intros w0 sch0 l0 Hs0 Hm0 HN0 Hq0 [Hc0 Hb0] Hne.
    destruct l0 as [|y l0]; [done|].
    apply (select_scan_terminates w0 sch0 (y :: l0) y); try done.
    + by rewrite HN0.
    + by left.
    + rewrite HN0. apply Hb0. by left.
  - intros w0 sch0 l0 fuel c nb nd i r Hs0 Hm0 HN0 Hq0 [Hc0 Hb0] Hsel Hi. split.
    + destruct (select_scan_cursor _ _ _ _ _ _ Hm0 Hsel) as [n ->].
      rewrite HN0. by apply scan_iter_in_range.
    + intros y Hy. apply Hb0. by eapply list_elem_of_delete_inv.
  - exists fuel, w', rs. split; [done|].
    destruct (run_turns_accounts _ _ _ _ _ _ _ _ Hs Hq Hrun)
      as (sch' & l' & Hs' & Hq' & _ & _ & Hperm & Hlen & _).
    assert (l' = []) as ->.
    { apply Permutation_length in Hperm.
      rewrite length_app, !length_fmap in Hperm.
      destruct l'; [done|]. simpl in Hperm. lia. }
    rewrite app_nil_r in Hperm. split_and!; [done|by exists sch'|done].
Qed.

(** X5: a SCAN scheduler services every pending request when its cursor is
    on the disk and every pending request is for a block of the disk: as
    many turns as there are requests return, service each request once and
    leave the queue empty and the cursor on the disk. *)
Theorem scan_drains_queue w s sch l :
  scheds w !! s = Some sch →
  mode sch = DISK_SCHEDULER_MODE_SCAN →
  is_queue (nodes w) (head sch) (tail sch) l →
  cursor_in_range (disk_scheduler_nblocks sch) (nextblock w, nextdir w) →
  (∀ y, y ∈ l → (0 ≤ block1 y.2 ≤ disk_scheduler_nblocks sch - 1)%Z) →
  ∃ fuel w' rs,
    run_turns fuel (length l) s w = Done (w', rs) ∧
    rs ≡ₚ l.*2 ∧ queue_of w' s [] ∧
    cursor_in_range (disk_scheduler_nblocks sch) (nextblock w', nextdir w').
Proof. apply scan_drains. Qed.

Lemma scan_drains_queue_witness :
  ∃ fuel w' rs,
    run_turns fuel 3 0
      (pending_world DISK_SCHEDULER_MODE_SCAN 16 (14%Z, 1%Z) (requests_at 10 [0; 15; 7]%Z))
    = Done (w', rs) ∧
    rs ≡ₚ (requests_at 10 [0; 15; 7]%Z).*2 ∧ queue_of w' 0 [] ∧
    cursor_in_range 16 (nextblock w', nextdir w').
Proof.
  refine (scan_drains_queue
            (pending_world DISK_SCHEDULER_MODE_SCAN 16 (14%Z, 1%Z)
               (requests_at 10 [0; 15; 7]%Z)) 0
            {| sdisk := Disk 16; mode := DISK_SCHEDULER_MODE_SCAN;
               head := Some 10; tail := Some 12 |}
            (requests_at 10 [0; 15; 7]%Z) _ _ _ _ _).
  - vm_compute. reflexivity.
  - reflexivity.
  - solve_is_queue.
  - unfold cursor_in_range, disk_scheduler_nblocks. simpl. lia.
  - intros y Hy. unfold disk_scheduler_nblocks. simpl in *.
    repeat (apply elem_of_cons in Hy as [->|Hy]; [simpl; lia|]).
    by apply elem_of_nil in Hy.
Defined.

(** X6: an SSTF scheduler services every pending request when the cursor
    and all pending blocks lie in a window [lo .. hi] no wider than the
    widest radius of the search, [nblocks - 2]: as many turns as there are
    requests return and service each request once. *)
Theorem sstf_drains_window w s sch l lo hi :
  scheds w !! s = Some sch →
  mode sch = DISK_SCHEDULER_MODE_SSTF →
  is_queue (nodes w) (head sch) (tail sch) l →
  (hi - lo ≤ disk_scheduler_nblocks sch - 2)%Z →
  (lo ≤ nextblock w ≤ hi)%Z →
  (∀ y, y ∈ l → (lo ≤ block1 y.2 ≤ hi)%Z) →
  ∃ fuel w' rs,
    run_turns fuel (length l) s w = Done (w', rs) ∧
    rs ≡ₚ l.*2 ∧ queue_of w' s [] ∧ (lo ≤ nextblock w' ≤ hi)%Z.
Proof.
  intros Hs Hm Hq Hwin Hcur Hin.
  set (N := disk_scheduler_nblocks sch) in *.
  destruct (drains s DISK_SCHEDULER_MODE_SSTF N
              (λ cur l, (lo ≤ cur.1 ≤ hi)%Z ∧ ∀ y, y ∈ l → (lo ≤ block1 y.2 ≤ hi)%Z))
    with (n := length l) (l := l) (w := w) (sch := sch)
    as (fuel & w' & rs & Hrun & [Hcur' _]); try done.
  - intros w0 sch0 l0 Hs0 Hm0 HN0 Hq0 [Hc0 Hb0] Hne. simpl in Hc0.
    destruct l0 as [|y l0]; [done|].
    apply (select_sstf_terminates w0 sch0 (y :: l0) y); try done; [by left|].
    right. rewrite HN0. specialize (Hb0 y ltac:(by left)). unfold dist. lia.
  - intros w0 sch0 l0 fuel c nb nd i r Hs0 Hm0 HN0 Hq0 [Hc0 Hb0] Hsel Hi. split.
    + destruct (select_sstf_spec _ _ _ _ _ _ _ Hq0 Hm0 Hsel) as (i' & r' & Hi' & -> & _).
      simpl. apply (Hb0 (c, r')). by eapply list_elem_of_lookup_2.
    + intros y Hy. apply Hb0. by eapply list_elem_of_delete_inv.
  - exists fuel, w', rs. split; [done|].
    destruct (run_turns_accounts _ _ _ _ _ _ _ _ Hs Hq Hrun)
      as (sch' & l' & Hs' & Hq' & _ & _ & Hperm & Hlen & _).
    assert (l' = []) as ->.
    { apply Permutation_length in Hperm.
      rewrite length_app, !length_fmap in Hperm.
      destruct l'; [done|]. simpl in Hperm. lia. }
    rewrite app_nil_r in Hperm. simpl in Hcur'.
    split; [done|]. split; [by exists sch'|done].
Qed.

Lemma sstf_drains_window_witness :
  ∃ fuel w' rs,
    run_turns fuel 3 0
      (pending_world DISK_SCHEDULER_MODE_SSTF 16 (10%Z, 1%Z) (requests_at 10 [3; 12; 9]%Z))
    = Done (w', rs) ∧
    rs ≡ₚ (requests_at 10 [3; 12; 9]%Z).*2 ∧ queue_of w' 0 [] ∧
    (1 ≤ nextblock w' ≤ 15)%Z.
Proof.
  refine (sstf_drains_window
            (pending_world DISK_SCHEDULER_MODE_SSTF 16 (10%Z, 1%Z)
               (requests_at 10 [3; 12; 9]%Z)) 0
            {| sdisk := Disk 16; mode := DISK_SCHEDULER_MODE_SSTF;
               head := Some 10; tail := Some 12 |}
            (requests_at 10 [3; 12; 9]%Z) 1 15 _ _ _ _ _ _).
  - vm_compute. reflexivity.
  - reflexivity.
  - solve_is_queue.
  - unfold disk_scheduler_nblocks. simpl. lia.
  - simpl. lia.
  - intros y Hy. simpl in *.
    repeat (apply elem_of_cons in Hy as [->|Hy]; [simpl; lia|]).
    by apply elem_of_nil in Hy.
Defined.

(** ** The order of SCAN *)

Lemma in_blocks_elem l b : b ∈ blocks l → ∃ y, y ∈ l ∧ block1 y.2 = b.
Proof.
  intros (y & -> & Hy)%list_elem_of_fmap. eauto.
Qed.

(** A SCAN turn from the cursor [cur]: if the sweep is at block [b] after
    [n] moves, has passed no pending block before, and [b] is pending, the
    turn services a request for [b] and leaves the cursor as the sweep has
    it. *)
Lemma run_turn_scan_at w s sch l n b d :
  scheds w !! s = Some sch →
  is_queue (nodes w) (head sch) (tail sch) l →
  mode sch = DISK_SCHEDULER_MODE_SCAN →
  let sweep m := Nat.iter m (scan_advance (disk_scheduler_nblocks sch))
                   (nextblock w, nextdir w) in
  (∀ m, m < n → (sweep m).1 ∉ blocks l) →
  sweep n = (b, d) →
  b ∈ blocks l →
  ∃ fuel w' r,
    run_turn fuel s w = Done (w', r) ∧
    block1 r = b ∧ nextblock w' = b ∧ nextdir w' = d.
Proof.
  intros Hs Hq Hm sweep Hmiss Hn Hb.
  destruct (in_blocks_elem _ _ Hb) as (y & Hy & Hyb).
  destruct (run_turn_scan w s sch l n Hs Hq Hm) with (fuel := n * length l + length l)
    as (w' & sch' & k & c & r & Hrun & _ & Hbr & _ & _ & _ & _ & Hnb & Hnd).
  - intros m Hlt. apply misses_scan_true. by apply Hmiss.
  - apply (misses_scan_false _ _ y); [done|]. fold (sweep n). by rewrite Hn.
  - done.
  - fold (sweep n) in Hbr, Hnb, Hnd. rewrite Hn in Hbr, Hnb, Hnd.
    exists (n * length l + length l), w', r. done.
Qed.

(** X7: SCAN goes on in its direction.  With the cursor on the disk going
    up, if block [b] at or above the cursor is pending and no block between
    the cursor and [b] is, the turn services a request for [b] and the
    direction is still up; and the same going down. *)
Theorem scan_next_in_direction w s sch l b :
  scheds w !! s = Some sch →
  mode sch = DISK_SCHEDULER_MODE_SCAN →
  is_queue (nodes w) (head sch) (tail sch) l →
  b ∈ blocks l →
  (nextdir w = 1 ∧ 0 ≤ nextblock w ≤ b ∧ b ≤ disk_scheduler_nblocks sch - 1 ∧
   ∀ x, x ∈ blocks l → ¬ (nextblock w ≤ x < b))%Z ∨
  (nextdir w = -1 ∧ 0 ≤ b ≤ nextblock w ∧ nextblock w ≤ disk_scheduler_nblocks sch - 1 ∧
   ∀ x, x ∈ blocks l → ¬ (b < x ≤ nextblock w))%Z →
  ∃ fuel w' r,
    run_turn fuel s w = Done (w', r) ∧
    block1 r = b ∧ nextblock w' = b ∧ nextdir w' = nextdir w.
Proof.
  intros Hs Hm Hq Hb [(Hd & Hnb & HN & Hnone)|(Hd & Hnb & HN & Hnone)]; rewrite Hd.
  - apply (run_turn_scan_at w s sch l (Z.to_nat (b - nextblock w))); try done.
    + intros m Hlt. rewrite Hd, scan_climb by lia. simpl.
      intros Hin. apply (Hnone _ Hin). lia.
    + rewrite Hd, scan_climb by lia. f_equal. lia.
  - apply (run_turn_scan_at w s sch l (Z.to_nat (nextblock w - b))); try done.
    + intros m Hlt. rewrite Hd, scan_descend by lia. simpl.
      intros Hin. apply (Hnone _ Hin). lia.
    + rewrite Hd, scan_descend by lia. f_equal. lia.
Qed.

Lemma scan_next_in_direction_witness :
  ∃ fuel w' r,
    let w := pending_world DISK_SCHEDULER_MODE_SCAN 16 (5%Z, 1%Z)
               (requests_at 10 [2; 12; 9]%Z) in
    run_turn fuel 0 w = Done (w', r) ∧
    block1 r = 9%Z ∧ nextblock w' = 9%Z ∧ nextdir w' = nextdir w.
Proof.
  refine (scan_next_in_direction
            (pending_world DISK_SCHEDULER_MODE_SCAN 16 (5%Z, 1%Z)
               (requests_at 10 [2; 12; 9]%Z)) 0
            {| sdisk := Disk 16; mode := DISK_SCHEDULER_MODE_SCAN;
               head := Some 10; tail := Some 12 |}
            (requests_at 10 [2; 12; 9]%Z) 9%Z _ _ _ _ _).
  - vm_compute. reflexivity.
  - reflexivity.
  - solve_is_queue.
  - simpl. do 2 right. left.
  - left. unfold disk_scheduler_nblocks. simpl. split_and!; try lia.
    intros x Hx.
    repeat (apply elem_of_cons in Hx as [->|Hx]; [lia|]).
    by apply elem_of_nil in Hx.
Defined.

(** The sweep from a block going up, through the turn at the top, and on
    down; and from a block going down, through the turn at block 0, and on
    up. *)
Lemma scan_over_the_top nblocks nb k :
  (0 ≤ nb ≤ nblocks - 1)%Z → (Z.of_nat k ≤ nblocks - 1)%Z →
  Nat.iter (k + (1 + Z.to_nat (nblocks - 1 - nb))) (scan_advance nblocks) (nb, 1%Z)
  = ((nblocks - 1 - Z.of_nat k)%Z, (-1)%Z).
Proof.
  intros Hnb Hk.
  rewrite Nat.iter_add, Nat.iter_add, scan_climb by lia.
  replace (nb + Z.of_nat (Z.to_nat (nblocks - 1 - nb)))%Z with (nblocks - 1)%Z by lia.
  rewrite iter_one, scan_advance_top by lia.
  by rewrite scan_descend by lia.
Qed.

Lemma scan_under_the_bottom nblocks nb k :
  (0 ≤ nb ≤ nblocks - 1)%Z → (Z.of_nat k ≤ nblocks - 1)%Z →
  Nat.iter (k + (1 + Z.to_nat nb)) (scan_advance nblocks) (nb, (-1)%Z)
  = (Z.of_nat k, 1%Z).
Proof.
  intros Hnb Hk.
  rewrite Nat.iter_add, Nat.iter_add, scan_descend by lia.
  replace (nb - Z.of_nat (Z.to_nat nb))%Z with 0%Z by lia.
  rewrite iter_one, scan_advance_bottom by lia.
  by rewrite scan_climb by lia.
Qed.

(** X8: SCAN turns round at the ends of the disk.  With the cursor on the
    disk going up and no pending block from the cursor to the last block,
    the turn services the greatest pending block [b] below the cursor and
    leaves the direction down; going down with no pending block from the
    cursor to block 0, it services the least pending block above the cursor
    and leaves the direction up. *)
Theorem scan_turns_round w s sch l b :
  scheds w !! s = Some sch →
  mode sch = DISK_SCHEDULER_MODE_SCAN →
  is_queue (nodes w) (head sch) (tail sch) l →
  b ∈ blocks l →
  (0 ≤ nextblock w ≤ disk_scheduler_nblocks sch - 1)%Z →
  (nextdir w = 1 ∧ 0 ≤ b < nextblock w ∧
   ∀ x, x ∈ blocks l → ¬ (b < x ≤ disk_scheduler_nblocks sch - 1))%Z ∨
  (nextdir w = -1 ∧ nextblock w < b ≤ disk_scheduler_nblocks sch - 1 ∧
   ∀ x, x ∈ blocks l → ¬ (0 ≤ x < b))%Z →
  ∃ fuel w' r,
    run_turn fuel s w = Done (w', r) ∧
    block1 r = b ∧ nextblock w' = b ∧ nextdir w' = (- nextdir w)%Z.
Proof.
  intros Hs Hm Hq Hb Hcur [(Hd & Hnb & Hnone)|(Hd & Hnb & Hnone)]; rewrite Hd.
  - set (N := disk_scheduler_nblocks sch) in *.
    set (up := Z.to_nat (N - 1 - nextblock w)).
    apply (run_turn_scan_at w s sch l (Z.to_nat (N - 1 - b) + (1 + up))); try done.
    + intros m Hlt. rewrite Hd. fold N.
      destruct (decide (m ≤ up)) as [Hle|Hgt].
      * rewrite scan_climb by lia. simpl. intros Hin. apply (Hnone _ Hin). lia.
      * replace m with ((m - up - 1) + (1 + up)) by lia.
        unfold up. rewrite scan_over_the_top by lia. simpl.
        intros Hin. apply (Hnone _ Hin). lia.
    + rewrite Hd. fold N. unfold up. rewrite scan_over_the_top by lia.
      f_equal. lia.
  - set (N := disk_scheduler_nblocks sch) in *.
    set (down := Z.to_nat (nextblock w)).
    apply (run_turn_scan_at w s sch l (Z.to_nat b + (1 + down))); try done.
    + intros m Hlt. rewrite Hd. fold N.
      destruct (decide (m ≤ down)) as [Hle|Hgt].
      * rewrite scan_descend by lia. simpl. intros Hin. apply (Hnone _ Hin). lia.
      * replace m with ((m - down - 1) + (1 + down)) by lia.
        unfold down. rewrite scan_under_the_bottom by lia. simpl.
        intros Hin. apply (Hnone _ Hin). lia.
    + rewrite Hd. fold N. unfold down. rewrite scan_under_the_bottom by lia.
      f_equal. lia.
Qed.

Lemma scan_turns_round_witness :
  ∃ fuel w' r,
    let w := pending_world DISK_SCHEDULER_MODE_SCAN 16 (13%Z, 1%Z)
               (requests_at 10 [2; 12; 9]%Z) in
    run_turn fuel 0 w = Done (w', r) ∧
    block1 r = 12%Z ∧ nextblock w' = 12%Z ∧ nextdir w' = (- nextdir w)%Z.
Proof.
  refine (scan_turns_round
            (pending_world DISK_SCHEDULER_MODE_SCAN 16 (13%Z, 1%Z)
               (requests_at 10 [2; 12; 9]%Z)) 0
            {| sdisk := Disk 16; mode := DISK_SCHEDULER_MODE_SCAN;
               head := Some 10; tail := Some 12 |}
            (requests_at 10 [2; 12; 9]%Z) 12%Z _ _ _ _ _ _).
  - vm_compute. reflexivity.
  - reflexivity.
  - solve_is_queue.
  - simpl. right. left.
  - unfold disk_scheduler_nblocks. simpl. lia.
  - left. unfold disk_scheduler_nblocks. simpl. split_and!; try lia.
    intros x Hx.
    repeat (apply elem_of_cons in Hx as [->|Hx]; [lia|]).
    by apply elem_of_nil in Hx.
Defined.

(** ** SSTF and SCAN in one process *)

(** With [nextdir] at 0 the SCAN sweep does not move. *)
Lemma scan_iter_stuck nblocks nb n :
  (0 ≤ nb ≤ nblocks - 1)%Z →
  Nat.iter n (scan_advance nblocks) (nb, 0%Z) = (nb, 0%Z).
Proof.
  intros Hnb. induction n as [|n IH]; [done|].
  simpl. rewrite IH. unfold scan_advance.
  rewrite bool_decide_eq_false_2 by lia. rewrite bool_decide_eq_false_2 by lia.
  f_equal. lia.
Qed.

Lemma select_scan_stuck w sch l :
  is_queue (nodes w) (head sch) (tail sch) l →
  mode sch = DISK_SCHEDULER_MODE_SCAN →
  l ≠ [] →
  nextdir w = 0%Z →
  (0 ≤ nextblock w ≤ disk_scheduler_nblocks sch - 1)%Z →
  nextblock w ∉ blocks l →
  ∀ fuel, select fuel w sch = Timeout.
Proof.
  intros Hq Hm Hne Hd Hnb Hnone fuel.
  destruct (is_queue_head_nonempty _ _ _ _ Hq Hne) as (hd & r & Ehd & _).
  rewrite (select_scan _ _ _ _ Ehd Hm). rewrite Ehd in Hq.
  rewrite (walk_diverges _ _ _ _ _ _ Hq); [done|].
  intros n. rewrite Hd, scan_iter_stuck by done.
  by apply misses_scan_true.
Qed.

(** X9: SSTF keeps its search radius in [nextdir], the variable SCAN keeps
    its direction in.  After a turn of an SSTF scheduler that services a
    request on the cursor block (radius 0), a SCAN scheduler of the same
    process with that block on its disk and no pending request for it never
    selects again: its sweep does not move. *)
Theorem scan_hangs_after_sstf_hit w sA sB schA schB lA lB fuel wA r :
  sA ≠ sB →
  scheds w !! sA = Some schA → mode schA = DISK_SCHEDULER_MODE_SSTF →
  is_queue (nodes w) (head schA) (tail schA) lA →
  scheds w !! sB = Some schB → mode schB = DISK_SCHEDULER_MODE_SCAN →
  is_queue (nodes w) (head schB) (tail schB) lB →
  (∀ c, c ∈ lA.*1 → c ∉ lB.*1) →
  lB ≠ [] →
  run_turn fuel sA w = Done (wA, r) →
  block1 r = nextblock w →
  (0 ≤ block1 r ≤ disk_scheduler_nblocks schB - 1)%Z →
  block1 r ∉ blocks lB →
  nextdir wA = 0%Z ∧
  ∀ fuel', select_and_remove fuel' sB wA = Timeout ∧ run_turn fuel' sB wA = Timeout.
Proof.
  intros Hne HsA HmA HqA HsB HmB HqB Hdisj HneB Hrun Hhit Hon Hnone.
  destruct (run_turn_inv _ _ _ _ _ _ _ HsA HqA Hrun) as (c & nb & nd & i & Hsel & Hi).
  destruct (run_turn_Done _ _ _ _ _ _ _ _ _ _ HsA HqA Hsel Hi)
    as (w' & sch' & Hrun' & Hs' & _ & _ & _ & Hnb & Hnd & Hframe).
  assert (w' = wA) as -> by congruence.
  destruct (select_sstf_spec _ _ _ _ _ _ _ HqA HmA Hsel)
    as (i' & r' & Hi' & Hnb' & Hnd' & _).
  assert (i' = i) as ->.
  { apply (is_queue_addr_inj _ _ _ _ HqA _ _ c); by eapply addr_at_lookup. }
  rewrite Hi in Hi'. injection Hi' as <-.
  assert (Hd0 : nextdir wA = 0%Z).
  { rewrite Hnd, Hnd'. unfold dist. rewrite Hhit. lia. }
  split; [done|]. intros fuel'.
  assert (HqB' : is_queue (nodes wA) (head schB) (tail schB) lB).
  { destruct HqB as (HndB & HhdB & HtlB & HnodesB). split_and!; try done.
    intros j c' r'' Hj. rewrite Hframe; [by apply HnodesB|].
    intros Hin. apply (Hdisj c' Hin). apply list_elem_of_lookup. exists j.
    by rewrite list_lookup_fmap, Hj. }
  assert (HsB' : scheds wA !! sB = Some schB) by (by rewrite Hs', lookup_insert_ne).
  assert (Hsel' : select fuel' wA schB = Timeout).
  { apply (select_scan_stuck wA schB lB); try done; by rewrite Hnb, Hnb'. }
  assert (Hsr : select_and_remove fuel' sB wA = Timeout).
  { unfold select_and_remove. rewrite HsB'. simpl. by rewrite Hsel'. }
  split; [done|]. unfold run_turn. by rewrite Hsr.
Qed.

Lemma scan_hangs_after_sstf_hit_witness :
  let wA := match run_turn 10 0 sstf_scan_world with
            | Done (w, _) => w
            | _ => sstf_scan_world
            end in
  nextdir wA = 0%Z ∧
  select_and_remove 1000 1 wA = Timeout ∧ run_turn 1000 1 wA = Timeout.
Proof.
  intros wA.
  destruct (scan_hangs_after_sstf_hit sstf_scan_world 0 1
              {| sdisk := Disk 16; mode := DISK_SCHEDULER_MODE_SSTF;
                 head := Some 10; tail := Some 10 |}
              {| sdisk := Disk 16; mode := DISK_SCHEDULER_MODE_SCAN;
                 head := Some 20; tail := Some 20 |}
              (requests_at 10 [0%Z]) (requests_at 20 [5%Z])
              10 wA (write_request 0 100)) as [Hd Hhang].
  - discriminate.
  - vm_compute. reflexivity.
  - reflexivity.
  - solve_is_queue.
  - vm_compute. reflexivity.
  - reflexivity.
  - solve_is_queue.
  - intros c Hc Hin. apply list_elem_of_singleton in Hc. subst c. refute_elem_of Hin.
  - discriminate.
  - vm_compute. reflexivity.
  - reflexivity.
  - unfold disk_scheduler_nblocks. simpl. lia.
  - intros Hin. refute_elem_of Hin.
  - split; [exact Hd|exact (Hhang 1000)].
Defined.

(** ** Memory safety of a turn *)

Lemma select_no_fault fuel w sch l :
  is_queue (nodes w) (head sch) (tail sch) l → l ≠ [] →
  select fuel w sch ≠ Fault.
Proof.
  intros Hq Hne.
  destruct (is_queue_head_nonempty _ _ _ _ Hq Hne) as (hd & r & Ehd & _).
  destruct (mode sch) eqn:Hm.
  - unfold select. by rewrite Ehd, Hm.
  - rewrite (select_sstf _ _ _ _ Ehd Hm). rewrite Ehd in Hq.
    destruct (run_loop _ _ _) as [[c nd]| |] eqn:E; simpl; [|done|].
    + destruct (walk_returns _ _ _ _ _ _ Hq _ _ _ _ E) as (k & r' & Hk & _).
      by rewrite (is_queue_node _ _ _ _ Hq _ _ _ Hk).
    + by apply (walk_no_fault _ _ _ _ _ _ Hq) in E.
  - rewrite (select_scan _ _ _ _ Ehd Hm). rewrite Ehd in Hq.
    destruct (run_loop _ _ _) as [[c [nb nd]]| |] eqn:E; simpl; [done..|].
    by apply (walk_no_fault _ _ _ _ _ _ Hq) in E.
Qed.

(** X10: on a well-formed, non-empty queue a turn never goes through a null
    or dangling pointer, in any mode and however long the search runs: the
    selection, the unlinking and the read of the request touch only nodes
    of the queue.  On an empty queue, which the wait of lines 216-221
    keeps the turn away from, the choice goes through the null [head]. *)
Theorem turn_never_faults w s sch l :
  scheds w !! s = Some sch →
  is_queue (nodes w) (head sch) (tail sch) l →
  (l ≠ [] → ∀ fuel, select_and_remove fuel s w ≠ Fault ∧ run_turn fuel s w ≠ Fault) ∧
  (l = [] → ∀ fuel, select_and_remove fuel s w = Fault ∧ run_turn fuel s w = Fault).
Proof.
  intros Hs Hq. split.
  - intros Hne fuel.
    destruct (select fuel w sch) as [[[c nb] nd]| |] eqn:Hsel.
    + destruct (select_in_queue _ _ _ _ _ _ _ Hq Hsel) as (i & r & Hi).
      destruct (select_and_remove_Done _ _ _ _ _ _ _ _ _ _ Hs Hq Hsel Hi)
        as (w1 & sch1 & Hsr & _).
      destruct (run_turn_Done _ _ _ _ _ _ _ _ _ _ Hs Hq Hsel Hi)
        as (w2 & sch2 & Hrun & _).
      by rewrite Hsr, Hrun.
    + unfold run_turn, select_and_remove. rewrite Hs. simpl. by rewrite Hsel.
    + by apply (select_no_fault _ _ _ _ Hq Hne) in Hsel.
  - intros -> fuel. destruct Hq as (_ & Hhd & _). simpl in Hhd.
    unfold run_turn, select_and_remove, select. rewrite Hs. simpl.
    by rewrite Hhd.
Qed.

Lemma turn_never_faults_witness :
  select_and_remove 3 0
    (pending_world DISK_SCHEDULER_MODE_SCAN 16 (0%Z, 1%Z) (requests_at 10 [9; 2]%Z))
  ≠ Fault ∧
  run_turn 3 0
    (pending_world DISK_SCHEDULER_MODE_SCAN 16 (0%Z, 1%Z) (requests_at 10 [9; 2]%Z))
  ≠ Fault.
Proof.
  refine (proj1 (turn_never_faults
            (pending_world DISK_SCHEDULER_MODE_SCAN 16 (0%Z, 1%Z)
               (requests_at 10 [9; 2]%Z)) 0
            {| sdisk := Disk 16; mode := DISK_SCHEDULER_MODE_SCAN;
               head := Some 10; tail := Some 11 |}
            (requests_at 10 [9; 2]%Z) _ _) _ 3).
  - vm_compute. reflexivity.
  - solve_is_queue.
  - discriminate.
Defined.

(** ** program.c *)

Lemma program_run_blocks (rand_r : Z → Z * Z) nblocks data seed c :
  (∀ x, (0 ≤ (rand_r x).1)%Z) → (0 < nblocks)%Z →
  c ∈ program_run rand_r nblocks data seed →
  (0 ≤ block1 (call_request c) < nblocks)%Z.
Proof.
  intros Hrand HN (i & -> & _)%list_elem_of_fmap.
  unfold program_iteration.
  destruct (rand_r (seed i)) as [v1 seed1].
  pose proof (Hrand seed1) as H2. destruct (rand_r seed1) as [v2 seed2]. simpl in H2.
  pose proof (Z.rem_bound_pos v2 nblocks H2 HN).
  by case_bool_decide.
Qed.

(** X11: [program_run] makes exactly 100 calls, and each asks for a block of
    the disk: with [rand_r] returning non-negative values (as libc's does)
    and a disk of at least one block, every block number passed to
    [disk_scheduler_read] or [disk_scheduler_write] lies in
    [0 .. nblocks - 1], whatever the uninitialised seeds hold; the call is a
    read when the first random value of the iteration is odd and a write
    when it is even. *)
Theorem program_run_in_range (rand_r : Z → Z * Z) nblocks data seed :
  (∀ x, (0 ≤ (rand_r x).1)%Z) → (0 < nblocks)%Z →
  length (program_run rand_r nblocks data seed) = 100 ∧
  (∀ c, c ∈ program_run rand_r nblocks data seed →
     (0 ≤ block1 (call_request c) < nblocks)%Z) ∧
  (∀ i c, program_run rand_r nblocks data seed !! i = Some c →
     read_write (call_request c)
     = (if Z.odd (rand_r (seed i)).1 then REQUEST_READ else REQUEST_WRITE)).
Proof.
  intros Hrand HN. split_and!.
  - unfold program_run. by rewrite length_fmap, length_seq.
  - intros c Hc. by eapply program_run_blocks.
  - intros i c Hi. unfold program_run in Hi.
    rewrite list_lookup_fmap in Hi.
    destruct (seq 0 100 !! i) as [j|] eqn:Ej; [|done].
    apply lookup_seq in Ej as [-> _]. simpl in Hi. injection Hi as <-.
    unfold program_iteration.
    pose proof (Hrand (seed i)) as H1.
    destruct (rand_r (seed i)) as [v1 seed1]. simpl in *.
    destruct (rand_r seed1) as [v2 seed2].
    rewrite Z.rem_mod_nonneg by lia. rewrite Zmod_odd.
    destruct (Z.odd v1); by case_bool_decide.
Qed.

Lemma program_run_in_range_witness :
  let rand_r := λ x : Z, ((x * 1103515245 + 12345) `mod` 2147483648,
                          (x * 1103515245 + 12345) `mod` 2147483648)%Z in
  length (program_run rand_r 16 7 (λ _, 42%Z)) = 100 ∧
  (∀ c, c ∈ program_run rand_r 16 7 (λ _, 42%Z) →
     (0 ≤ block1 (call_request c) < 16)%Z).
Proof.
  intros rand_r.
  destruct (program_run_in_range rand_r 16 7 (λ _, 42%Z)) as (Hlen & Hin & _).
  - intros x. unfold rand_r. simpl. apply Z.mod_pos_bound. lia.
  - lia.
  - split; [exact Hlen|exact Hin].
Defined.


